(** * odSync: a pull-through cache for a remote file mirror

    A shallow embedding of [main.go] and the properties of its cache-fill
    protocol: the completeness check ([isFileComplete]), the atomic
    download ([downloadFile]), the request handler ([proxyHandler]), the
    mapping from request paths to local paths ([filepath.Join]), the
    per-path lock table ([getFileLock] / [cleanupLock]), the names of the
    temp files ([generateTempSuffix]) and the statistics ([getStats]). *)

From Stdlib Require Import ZArith Lia List String Ascii DecimalString DecimalPos DecimalZ.
From stdpp Require Import base option list gmap strings.
Import ListNotations.

Local Open Scope Z_scope.
Local Open Scope string_scope.
Local Open Scope stdpp_scope.

(** * The program *)

(** Go strings and byte slices are both sequences of bytes; so are Rocq's
    strings, and [string(data)] and [[]byte(s)] are the identity here. *)

(** ** Path names: [path/filepath] on a Unix system

    The library functions that the program calls, by the rules of their
    documentation: a path is split into its elements at the separators,
    multiple separators count as one, [.] is dropped, [..] removes the
    element before it, and a [..] that would climb above the root is
    dropped. *)

Definition Separator : ascii := "/"%char.

(** [strings.Split(s, "/")]. *)
Fixpoint split (s : string) : list string :=
  match s with
  | "" => [""]
  | String c s' =>
      if decide (c = Separator) then "" :: split s'
      else match split s' with
           | e :: es => String c e :: es
           | [] => [String c ""]
           end
  end.

(** [strings.Join(l, "/")]. *)
Fixpoint join_sep (l : list string) : string :=
  match l with
  | [] => ""
  | [e] => e
  | e :: es => e +:+ "/" +:+ join_sep es
  end.

Definition is_rooted (path : string) : bool :=
  match path with
  | String c _ => bool_decide (c = Separator)
  | "" => false
  end.

(** What [filepath.Clean] has written so far: the number of leading [..]
    elements, which nothing can remove, and the elements after them, the
    last one first. *)
Record Out := { dotdots : nat; elems : list string }.

(** One element of the path, as the loop of [filepath.Clean] treats it:
    an empty element and [.] are dropped; [..] removes the element before
    it, is dropped at the root, and is kept at the start of a path that is
    not rooted. *)
Definition clean_step (rooted : bool) (out : Out) (e : string) : Out :=
  if decide (e = "") then out
  else if decide (e = ".") then out
  else if decide (e = "..") then
    match elems out with
    | _ :: es => {| dotdots := dotdots out; elems := es |}
    | [] => if rooted then out
            else {| dotdots := S (dotdots out); elems := [] |}
    end
  else {| dotdots := dotdots out; elems := e :: elems out |}.

Definition clean_from (rooted : bool) (out : Out) (l : list string) : Out :=
  foldl (clean_step rooted) out l.

Definition out_elems (out : Out) : list string :=
  replicate (dotdots out) ".." ++ rev (elems out).

Definition render (rooted : bool) (out : Out) : string :=
  let body := join_sep (out_elems out) in
  if rooted then "/" +:+ body
  else if decide (body = "") then "." else body.

(** [filepath.Clean]. *)
Definition Clean (path : string) : string :=
  if decide (path = "") then "."
  else
    let rooted := is_rooted path in
    render rooted (clean_from rooted {| dotdots := 0; elems := [] |} (split path)).

(** The elements of a path after cleaning, and whether it is rooted. *)
Definition cleaned (path : string) : bool * Out :=
  let rooted := is_rooted path in
  (rooted, clean_from rooted {| dotdots := 0; elems := [] |} (split path)).

(** A path lies strictly inside a directory when, both cleaned, they start
    at the same place (the root, or the same number of [..] above the
    current directory) and the elements of the directory are the first
    elements of the path, which has more. *)
Definition inside (dir path : string) : bool :=
  let '(r1, o1) := cleaned dir in
  let '(r2, o2) := cleaned path in
  bool_decide (r1 = r2) && bool_decide (dotdots o1 = dotdots o2)
  && bool_decide (rev (elems o1) `prefix_of` rev (elems o2))
  && negb (bool_decide (elems o1 = elems o2)).

(** The path is the directory itself, or lies inside it.  The empty
    string names no directory ([os.Lstat] fails on it), and nothing is at
    or inside it. *)
Definition at_or_inside (dir path : string) : bool :=
  let '(r1, o1) := cleaned dir in
  let '(r2, o2) := cleaned path in
  negb (bool_decide (dir = ""))
  && bool_decide (r1 = r2) && bool_decide (dotdots o1 = dotdots o2)
  && bool_decide (rev (elems o1) `prefix_of` rev (elems o2)).

(** How far below its start a relative walk along the elements ends;
    [None] when a [..] climbs above the start. *)
Fixpoint depth (l : list string) (d : nat) : option nat :=
  match l with
  | [] => Some d
  | e :: l' =>
      if decide (e = "") then depth l' d
      else if decide (e = ".") then depth l' d
      else if decide (e = "..") then
        match d with
        | O => None
        | S d' => depth l' d'
        end
      else depth l' (S d)
  end.

(** The request path names something below its start and never climbs
    above it. *)
Definition descends (requestPath : string) : bool :=
  match depth (split requestPath) 0 with
  | Some (S _) => true
  | _ => false
  end.

(** No separator in the string. *)
Fixpoint no_sep (s : string) : bool :=
  match s with
  | "" => true
  | String c s' => negb (bool_decide (c = Separator)) && no_sep s'
  end.

(** No dot in the string. *)
Fixpoint no_dot (s : string) : bool :=
  match s with
  | "" => true
  | String c s' => negb (bool_decide (c = "."%char)) && no_dot s'
  end.

(** An element that [filepath.Clean] keeps as a name. *)
Definition name (e : string) : Prop :=
  e ≠ "" ∧ e ≠ "." ∧ e ≠ ".." ∧ no_sep e = true.

(** What [filepath.Clean] writes: names, and no [..] before them when
    the path is rooted. *)
Definition clean_out (rooted : bool) (out : Out) : Prop :=
  Forall name (elems out) ∧ (rooted = true → dotdots out = 0%nat).

(** The elements of a path that are neither empty nor [.]. *)
Definition steps_of (path : string) : list string :=
  filter (λ e, e ≠ "" ∧ e ≠ ".") (split path).

(** [filepath.Join] of two elements: the first non-empty element and what
    follows it are joined by a separator and cleaned. *)
Definition Join (a b : string) : string :=
  if decide (a = "") then (if decide (b = "") then "" else Clean b)
  else Clean (a +:+ "/" +:+ b).

(** The prefix of a path up to and with its last separator. *)
Fixpoint dir_prefix (s : string) : string :=
  match s with
  | "" => ""
  | String c s' =>
      let r := dir_prefix s' in
      if decide (c = Separator) then String c r
      else if decide (r = "") then "" else String c r
  end.

(** [filepath.Dir]. *)
Definition filepath_Dir (path : string) : string := Clean (dir_prefix path).

(** The length of a path counted by its elements: each element and the
    separator after it. *)
Definition weight (l : list string) : nat :=
  sum_list_with (λ e, S (String.length e)) l.

Definition empties (l : list string) : nat :=
  length (filter (λ e, e = "") l).

Definition out_weight (out : Out) : nat :=
  (3 * dotdots out + weight (elems out))%nat.

(** ** The file system

    The state of the storage volume: a finite map from path names to
    nodes.  A regular file carries its bytes. *)

Inductive Node :=
| File (data : string)
| Dir.

Abbreviation FS := (gmap string Node).

(** [os.FileInfo], as far as the program looks at it. *)
Record FileInfo := { IsDir : bool; Size : Z }.

(** [os.Stat]: fails on a missing path.  The size of a directory depends
    on the system; the program never looks at it ([IsDir] is tested
    first). *)
Definition Stat (fs : FS) (path : string) : option FileInfo :=
  match fs !! path with
  | Some (File data) =>
      Some {| IsDir := false; Size := Z.of_nat (String.length data) |}
  | Some Dir => Some {| IsDir := true; Size := 4096 |}
  | None => None
  end.

(** The path is a directory of the volume. *)
Definition is_dir (fs : FS) (path : string) : bool :=
  match fs !! path with
  | Some Dir => true
  | _ => false
  end.

(** [os.ReadFile]: the bytes of a regular file; an error on a missing
    path or a directory. *)
Definition ReadFile (fs : FS) (path : string) : option string :=
  match fs !! path with
  | Some (File data) => Some data
  | _ => None
  end.

(** The [os.FileInfo] of a node, as [Stat] gives it. *)
Definition info_of (n : Node) : FileInfo :=
  match n with
  | File data => {| IsDir := false; Size := Z.of_nat (String.length data) |}
  | Dir => {| IsDir := true; Size := 4096 |}
  end.

(** [filepath.Walk(root, fn)]: the paths that the walk calls [fn] with
    and no error, each with its [os.FileInfo].  The volume is a tree, so
    these are the root and what lies inside it; for the empty root
    [Lstat] fails, [fn] gets the error and no path is left.  The walk
    goes in lexical order; the function that [getStats] passes only adds
    up, and the model takes the entries as the map has them. *)
Definition Walk (fs : FS) (root : string) : list (string * FileInfo) :=
  (λ kv, (kv.1, info_of kv.2))
    <$> filter (λ kv, at_or_inside root kv.1 = true) (map_to_list fs).

(** A sum over the entries of the volume. *)
Definition tally (f : string → Node → nat) (fs : FS) : nat :=
  sum_list_with (λ kv, f kv.1 kv.2) (map_to_list fs).

(** What a regular file at or below the root counts for: its bytes, or
    one. *)
Definition file_weight (root : string) (bytes : bool) (path : string)
    (n : Node) : nat :=
  match n with
  | File data =>
      if at_or_inside root path
      then (if bytes then String.length data else 1%nat)
      else 0%nat
  | Dir => 0%nat
  end.

(** A directory holds an entry when some path of the volume lies below it. *)
Definition has_entry (fs : FS) (dir : string) : bool :=
  existsb (λ kv, String.prefix (dir +:+ "/") kv.1) (map_to_list fs).

(** [os.Remove]: removes a file or an empty directory; [None] is the error
    (nothing is removed then). *)
Definition Remove (fs : FS) (path : string) : option FS :=
  match fs !! path with
  | Some (File _) => Some (delete path fs)
  | Some Dir => if has_entry fs path then None else Some (delete path fs)
  | None => None
  end.

(** The program drops the error of every [os.Remove] it calls. *)
Definition Remove_ (fs : FS) (path : string) : FS :=
  default fs (Remove fs path).

(** What can go wrong while [calculateChecksum] reads an existing file: the
    open fails, or the stream breaks before the end. *)
Inductive ReadFault := ReadOk | OpenFails | CopyFails.

(** [os.Open]: the node behind the path. *)
Definition Open (rf : ReadFault) (fs : FS) (path : string) : option Node :=
  match rf with
  | OpenFails => None
  | _ => fs !! path
  end.

(** [io.Copy(hasher, file)]: all the bytes of the file; reading a
    directory is an error. *)
Definition CopyAll (rf : ReadFault) (file : Node) : option string :=
  match rf, file with
  | CopyFails, _ => None
  | _, Dir => None
  | _, File data => Some data
  end.

(** ** The rest of the file system interface *)

(** The paths [os.MkdirAll] looks at, outermost first: the prefixes of the
    path that end before a separator, and the path itself.  The current
    directory and the root always exist. *)
Fixpoint prefixes_from (done rest : string) : list string :=
  match rest with
  | "" => [done]
  | String c rest' =>
      (if decide (c = Separator) then [done] else [])
        ++ prefixes_from (done +:+ String c "") rest'
  end.

Definition ancestors (path : string) : list string :=
  filter (λ d, d ≠ "" ∧ d ≠ "." ∧ d ≠ "/") (prefixes_from "" path).

(** Creating the directories of a list in turn: a directory that exists
    is kept, a regular file in the way is the error, and what was created
    before the error stays. *)
Fixpoint mkdirs (fs : FS) (l : list string) : FS * bool :=
  match l with
  | [] => (fs, true)
  | d :: l' =>
      match fs !! d with
      | Some (File _) => (fs, false)
      | Some Dir => mkdirs fs l'
      | None => mkdirs (<[d := Dir]> fs) l'
      end
  end.

(** [os.MkdirAll]; [fails] stands for an error of the system (permission,
    full disk). *)
Definition MkdirAll (fails : bool) (fs : FS) (path : string) : FS * bool :=
  if fails then (fs, false) else mkdirs fs (ancestors path).

(** [os.Create]: an empty file at the path, truncating a file that is
    there; a directory at the path is an error. *)
Definition Create (fails : bool) (fs : FS) (path : string) : option FS :=
  if fails then None
  else match fs !! path with
       | Some Dir => None
       | _ => Some (<[path := File ""]> fs)
       end.

(** [os.WriteFile]: the file is opened for writing, which creates it or
    truncates it, the data is written, and the file is closed.  [fails]
    says that the call returns an error, and [written] what it has done
    by then: [None] when the file could not be opened, so that nothing
    has changed, and [Some k] when it was opened and holds the first [k]
    bytes of the data (all of them, when only the close fails).  A
    directory at the path cannot be opened.  The result is the volume and
    whether the call succeeded. *)
Definition WriteFile (fails : bool) (written : option nat) (fs : FS)
    (path data : string) : FS * bool :=
  match fs !! path with
  | Some Dir => (fs, false)
  | _ =>
      if fails then
        match written with
        | None => (fs, false)
        | Some k => (<[path := File (String.substring 0 k data)]> fs, false)
        end
      else (<[path := File data]> fs, true)
  end.

(** [os.Rename] of a regular file: the source must exist, and a directory
    at the new path is an error. *)
Definition Rename (fails : bool) (fs : FS) (oldpath newpath : string)
  : option FS :=
  if fails then None
  else match fs !! oldpath, fs !! newpath with
       | Some (File data), Some Dir => None
       | Some (File data), _ => Some (<[newpath := File data]> (delete oldpath fs))
       | _, _ => None
       end.

(** ** The upstream and the environment of a request *)

Definition StatusOK : Z := 200.
Definition StatusNotFound : Z := 404.
Definition StatusInternalServerError : Z := 500.
Definition StatusBadGateway : Z := 502.

Definition StatusMovedPermanently : Z := 301.
Definition StatusBadRequest : Z := 400.
Definition StatusForbidden : Z := 403.

(** How the body of a response comes in.  With a [Content-Length] header
    the stream of [net/http] is limited to the length announced, and it
    ends with the error [io.ErrUnexpectedEOF] when the connection closes
    before that many bytes have arrived.  Without one (a chunked body, or
    a body that ends with the connection) the length is not known, the
    stream delivers what arrives, and it may break. *)
Inductive Transfer :=
| Announced (length : nat) (arrived : string)
| Unannounced (arrived : string) (broken : bool).

(** [http.Response], as far as the program looks at it. *)
Record Response := {
  StatusCode : Z;
  transfer : Transfer
}.

(** [resp.ContentLength]: [-1] when the length is not known. *)
Definition ContentLength (resp : Response) : Z :=
  match transfer resp with
  | Announced length _ => Z.of_nat length
  | Unannounced _ _ => -1
  end.

(** The bytes that [resp.Body] delivers, and whether the stream then ends
    with an error instead of the end of the file. *)
Definition Body (resp : Response) : string :=
  match transfer resp with
  | Announced length arrived => String.substring 0 length arrived
  | Unannounced arrived _ => arrived
  end.

Definition BodyErr (resp : Response) : bool :=
  match transfer resp with
  | Announced length arrived => (String.length arrived <? length)%nat
  | Unannounced _ broken => broken
  end.

(** What the system decides during one request. *)
Record Env := {
  (** [http.Get]: [None] is a transport error *)
  http_Get : string → option Response;
  Getpid : Z;
  UnixNano : Z;
  (** the read fault of the n-th completeness check of the request *)
  read_fault : nat → ReadFault;
  mkdir_fails : bool;
  create_fails : bool;
  (** the write to the temp file fails after that many bytes *)
  write_fails_at : option nat;
  sync_fails : bool;
  (** [os.WriteFile] of the sidecar returns an error, and what it has
      done by then (see [WriteFile]) *)
  checksum_write_fails : bool;
  checksum_written : option nat;
  rename_fails : bool
}.

(** [fmt.Sprintf("%d", n)]. *)
Definition fmt_d (n : Z) : string := NilZero.string_of_int (Z.to_int n).

Definition generateTempSuffix (env : Env) : string :=
  fmt_d (Getpid env) +:+ "." +:+ fmt_d (UnixNano env).

(** [io.Copy(writer, resp.Body)] into the temp file and the hasher: the
    bytes that reached the file, their number, and whether the copy ended
    with an error. *)
Definition Copy (env : Env) (resp : Response) : string * Z * bool :=
  let all := (Body resp, Z.of_nat (String.length (Body resp)), BodyErr resp) in
  match write_fails_at env with
  | Some k =>
      if (k <? String.length (Body resp))%nat
      then (String.substring 0 k (Body resp), Z.of_nat k, true)
      else all
  | None => all
  end.

(** [tempFile.Sync]. *)
Definition Sync (fails : bool) : bool := negb fails.

(** The errors of [downloadFile]: the one named value, and one
    constructor for each [fmt.Errorf]. *)
Inductive error :=
| errUpstreamNotFound
| errFetch
| errStatus (code : Z)
| errMkdir
| errCreateTemp
| errDownload
| errIncomplete (got expected : Z)
| errSync
| errRename.

Global Instance error_eq_dec : EqDecision error.
Proof. solve_decision. Defined.

(** The call that the handler ends in: [c.File(path)] or
    [c.JSON(status, error)].  [c.JSON] sends the status it is given;
    what [c.File] sends is decided inside it, by [http_ServeFile]
    below. *)
Inductive Answer :=
| ServeFile (path : string)
| JSON (status : Z) (message : string).

(** ** What [c.File] sends

    [c.File(path)] is [http.ServeFile(c.Writer, c.Request, path)]. *)

(** [isSlashRune]: a slash or a backslash. *)
Definition isSlashRune (c : ascii) : bool :=
  bool_decide (c = "/"%char) || bool_decide (c = ascii_of_nat 92).

(** The pieces of a string between the characters that [f] accepts, and
    [strings.FieldsFunc(s, f)]: the pieces that are not empty. *)
Fixpoint pieces (f : ascii → bool) (s : string) : list string :=
  match s with
  | "" => [""]
  | String c s' =>
      if f c then "" :: pieces f s'
      else match pieces f s' with
           | e :: es => String c e :: es
           | [] => [String c ""]
           end
  end.

Definition FieldsFunc (s : string) (f : ascii → bool) : list string :=
  filter (λ e, e ≠ "") (pieces f s).

(** [containsDotDot]: some field of the path is [..].  (The test
    [strings.Contains(v, "..")] before the loop only saves the loop.) *)
Definition containsDotDot (v : string) : bool :=
  existsb (λ ent, bool_decide (ent = "..")) (FieldsFunc v isSlashRune).

(** [strings.HasSuffix]. *)
Definition HasSuffix (s suffix : string) : bool :=
  (String.length suffix <=? String.length s)%nat
  && bool_decide
       (String.substring (String.length s - String.length suffix)
          (String.length suffix) s = suffix).

(** An error of [Open] or [Stat] on the file, and [http.toHTTPError]:
    the status that stands for it. *)
Inductive OpenError := ErrNotExist | ErrPermission | ErrOther.

Definition toHTTPError (err : OpenError) : Z :=
  match err with
  | ErrNotExist => StatusNotFound
  | ErrPermission => StatusForbidden
  | ErrOther => StatusInternalServerError
  end.

(** What [http.ServeFile] does with the request. *)
Inductive Served :=
| ServeError (code : Z)        (* [serveError]: the status and a message *)
| LocalRedirect (to : string)  (* [localRedirect]: 301 to a relative path *)
| ServeDir                     (* a directory: a redirect, its index or a listing *)
| ServeContent (data : string) (* [http.serveContent] on the open file *).

(** [http.ServeFile] for a request with the URL path [urlPath]: a path
    with an element [..] is refused, a path that ends in [/index.html] is
    redirected to its directory, and otherwise the file is opened and,
    when it is a regular file, served.  A file that is missing cannot be
    opened; [fault] is an error that the system gives on a file that is
    there. *)
Definition http_ServeFile (fault : option OpenError) (urlPath : string)
    (fs : FS) (name : string) : Served :=
  if containsDotDot urlPath then ServeError StatusBadRequest
  else if HasSuffix urlPath "/index.html" then LocalRedirect "./"
  else match fs !! name, fault with
       | None, _ => ServeError (toHTTPError ErrNotExist)
       | Some _, Some err => ServeError (toHTTPError err)
       | Some Dir, None => ServeDir
       | Some (File data), None => ServeContent data
       end.

(** The status of the answer.  [http.serveContent] answers 200, unless
    the headers of the request set a condition or ask for a range, and
    then 304, 412, 206 or 416, as they decide: [headers] is [None] for a
    request without such headers and the status they lead to otherwise.
    The status for a directory depends on more than the model has. *)
Definition Served_status (headers : option Z) (s : Served) : option Z :=
  match s with
  | ServeError code => Some code
  | LocalRedirect _ => Some StatusMovedPermanently
  | ServeDir => None
  | ServeContent _ => Some (default StatusOK headers)
  end.

(** The volume and the requests sent to the upstream, the last one first. *)
Record World := { files : FS; requests : list string }.

(** An [int64] (and an [int], on the 64-bit platforms): the value after
    wrap-around. *)
Definition int64 (z : Z) : Z := (z + 2 ^ 63) mod 2 ^ 64 - 2 ^ 63.

(** The JSON object that [getStats] answers with. *)
Record Stats := {
  cached_files : Z;
  cache_size_mb : Z;
  cache_limit_mb : Z;
  storage_dir : string;
  upstream : string
}.

Record Config := {
  Port : string;
  StorageDir : string;
  UpstreamURL : string;
  CacheSize : Z
}.

Section Program.

(** [filepath.Glob] with its error dropped, as the program calls it: the
    paths of the volume that match the pattern. *)
Variable Glob : FS → string → list string.

(** The lower-case hex form of the SHA-256 digest:
    [fmt.Sprintf("%x", hasher.Sum(nil))]. *)
Variable sha256hex : string → string.

Definition calculateChecksum (rf : ReadFault) (fs : FS) (path : string)
  : string :=
  match Open rf fs path with
  | None => ""
  | Some file =>
      match CopyAll rf file with
      | None => ""
      | Some data => sha256hex data
      end
  end.

(** [isFileComplete]: the verdict and the volume it leaves. *)
Definition isFileComplete (rf : ReadFault) (fs : FS) (path : string)
  : bool * FS :=
  match Stat fs path with
  | None => (false, fs)
  | Some fileInfo =>
      if IsDir fileInfo || (Size fileInfo =? 0)%Z then (false, fs)
      else
        let pattern := path +:+ ".tmp.*" in
        let matches := Glob fs pattern in
        if (0 <? length matches)%nat then (false, fs)
        else
          let checksumPath := path +:+ ".sha256" in
          match ReadFile fs checksumPath with
          | Some checksumData =>
              let expectedChecksum := checksumData in
              let actualChecksum := calculateChecksum rf fs path in
              if decide (actualChecksum ≠ expectedChecksum) then
                let fs1 := Remove_ fs path in
                let fs2 := Remove_ fs1 checksumPath in
                (false, fs2)
              else (true, fs)
          | None => (true, fs)
          end
  end.

(** The entry at [path] is sound: a regular file that is not empty, and
    no temp file of the path's pattern. *)
Definition sound (fs : FS) (path : string) : Prop :=
  ∃ fileInfo, Stat fs path = Some fileInfo ∧ IsDir fileInfo = false
    ∧ Size fileInfo ≠ 0%Z ∧ Glob fs (path +:+ ".tmp.*") = [].

Variable config : Config.

(** The name of the temp file of a download, and the URL it asks for. *)
Definition tempPathOf (env : Env) (localPath : string) : string :=
  localPath +:+ ".tmp." +:+ generateTempSuffix env.

Definition upstreamURLOf (requestPath : string) : string :=
  UpstreamURL config +:+ requestPath.

(** The upstream answers the request with the status 404. *)
Definition upstream_not_found (env : Env) (requestPath : string) : Prop :=
∃ resp, http_Get env (upstreamURLOf requestPath) = Some resp
  ∧ StatusCode resp = StatusNotFound.

(** The download got as far as creating its temp file: the upstream
    answered 200 with [resp], the directories are there, and [fs2] is
    the volume with the new, empty temp file. *)
Definition temp_created (env : Env) (fs : FS) (localPath requestPath : string)
    (resp : Response) (fs2 : FS) : Prop :=
  http_Get env (upstreamURLOf requestPath) = Some resp
  ∧ StatusCode resp = StatusOK
  ∧ ∃ fs1, MkdirAll (mkdir_fails env) fs (filepath_Dir localPath) = (fs1, true)
      ∧ Create (create_fails env) fs1 (tempPathOf env localPath) = Some fs2.

(** The body of [downloadFile] once the temp file exists: the volume,
    the flag [success] and the error returned. *)
Definition commit (env : Env) (resp : Response) (fs : FS)
    (localPath tempPath : string) : FS * bool * option error :=
  let '(data, written, err) := Copy env resp in
  let fs1 := <[tempPath := File data]> fs in
  if err then (fs1, false, Some errDownload)
  else if (0 <? ContentLength resp)%Z && negb (written =? ContentLength resp)%Z
  then (fs1, false, Some (errIncomplete written (ContentLength resp)))
  else if negb (Sync (sync_fails env)) then (fs1, false, Some errSync)
  else
    let checksumPath := localPath +:+ ".sha256" in
    let checksum := sha256hex data in
    let fs2 :=
      (WriteFile (checksum_write_fails env) (checksum_written env)
         fs1 checksumPath checksum).1 in
    match Rename (rename_fails env) fs2 tempPath localPath with
    | None => (fs2, false, Some errRename)
    | Some fs3 => (fs3, true, None)
    end.

(** [downloadFile]: the world it leaves and the error it returns. *)
Definition downloadFile (env : Env) (w : World)
    (localPath requestPath : string) : World * option error :=
  let upstreamURL := UpstreamURL config +:+ requestPath in
  let w := {| files := files w; requests := upstreamURL :: requests w |} in
  match http_Get env upstreamURL with
  | None => (w, Some errFetch)
  | Some resp =>
      if (StatusCode resp =? StatusNotFound)%Z
      then (w, Some errUpstreamNotFound)
      else if negb (StatusCode resp =? StatusOK)%Z
      then (w, Some (errStatus (StatusCode resp)))
      else
        let with_files fs := {| files := fs; requests := requests w |} in
        match MkdirAll (mkdir_fails env) (files w) (filepath_Dir localPath) with
        | (fs1, false) => (with_files fs1, Some errMkdir)
        | (fs1, true) =>
            let tempPath := localPath +:+ ".tmp." +:+ generateTempSuffix env in
            match Create (create_fails env) fs1 tempPath with
            | None => (with_files fs1, Some errCreateTemp)
            | Some fs2 =>
                let '(fs3, success, err) :=
                  commit env resp fs2 localPath tempPath in
                (* the deferred function *)
                let fs4 := if success then fs3 else Remove_ fs3 tempPath in
                (with_files fs4, err)
            end
        end
  end.

(** [proxyHandler], for a request that runs alone: [getFileLock] then
    stores a new mutex, [Lock] returns at once, and the deferred calls
    leave the lock table as it was, so lines 114-117 change nothing
    that the request sees.  Requests that run together are the matter of
    [LockManager]. *)
Definition proxyHandler (env : Env) (w : World) (requestPath : string)
  : Answer * World :=
  let localPath := Join (StorageDir config) requestPath in
  let with_files fs := {| files := fs; requests := requests w |} in
  let '(complete, fs1) := isFileComplete (read_fault env 0) (files w) localPath in
  if complete then (ServeFile localPath, with_files fs1)
  else
    let '(complete, fs2) := isFileComplete (read_fault env 1) fs1 localPath in
    if complete then (ServeFile localPath, with_files fs2)
    else
      match downloadFile env (with_files fs2) localPath requestPath with
      | (w3, Some err) =>
          if decide (err = errUpstreamNotFound)
          then (JSON StatusNotFound "File not found on upstream", w3)
          else (JSON StatusBadGateway "Failed to fetch from upstream", w3)
      | (w3, None) =>
          let '(complete, fs4) :=
            isFileComplete (read_fault env 2) (files w3) localPath in
          let w4 := {| files := fs4; requests := requests w3 |} in
          if negb complete
          then (JSON StatusInternalServerError "File verification failed", w4)
          else (ServeFile localPath, w4)
      end.

(** The outcomes of the commit, with the volume before the deferred
    function runs. *)
Inductive commit_result (env : Env) (resp : Response) (fs : FS)
    (localPath tempPath : string) : FS * bool * option error → Prop :=
| commit_copy_error data written :
    Copy env resp = (data, written, true) →
    commit_result env resp fs localPath tempPath
      (<[tempPath := File data]> fs, false, Some errDownload)
| commit_length_mismatch written :
    Copy env resp = (Body resp, written, false) →
    (0 < ContentLength resp)%Z → written ≠ ContentLength resp →
    commit_result env resp fs localPath tempPath
      (<[tempPath := File (Body resp)]> fs, false,
       Some (errIncomplete written (ContentLength resp)))
| commit_sync_error written :
    Copy env resp = (Body resp, written, false) →
    ((ContentLength resp ≤ 0)%Z ∨ written = ContentLength resp) →
    sync_fails env = true →
    commit_result env resp fs localPath tempPath
      (<[tempPath := File (Body resp)]> fs, false, Some errSync)
| commit_rename_error written fs2 :
    Copy env resp = (Body resp, written, false) →
    ((ContentLength resp ≤ 0)%Z ∨ written = ContentLength resp) →
    fs2 !! tempPath = Some (File (Body resp)) →
    (∀ q, q ≠ localPath +:+ ".sha256" →
       fs2 !! q = <[tempPath := File (Body resp)]> fs !! q) →
    rename_fails env = true ∨ fs2 !! localPath = Some Dir →
    commit_result env resp fs localPath tempPath (fs2, false, Some errRename)
| commit_success written fs2 :
    Copy env resp = (Body resp, written, false) →
    ((ContentLength resp ≤ 0)%Z ∨ written = ContentLength resp) →
    (∀ q, q ≠ localPath +:+ ".sha256" →
       fs2 !! q = <[tempPath := File (Body resp)]> fs !! q) →
    fs2 !! localPath ≠ Some Dir → rename_fails env = false →
    sync_fails env = false →
    commit_result env resp fs localPath tempPath
      (<[localPath := File (Body resp)]> (delete tempPath fs2), true, None).

(** The upstream answers 200 with no bytes, and gives the length zero or
    none. *)
Definition empty_success (env : Env) (requestPath : string) : Prop :=
  ∃ resp, http_Get env (upstreamURLOf requestPath) = Some resp
    ∧ StatusCode resp = StatusOK ∧ Body resp = "" ∧ BodyErr resp = false
    ∧ (ContentLength resp ≤ 0)%Z.

(** Nothing that the download does on the volume fails: the system
    reports no fault, no regular file is in the way of the directories
    above the object, and neither the object path nor the temp path is a
    directory. *)
Definition local_io_ok (env : Env) (fs : FS) (localPath : string) : Prop :=
  mkdir_fails env = false ∧ create_fails env = false
  ∧ sync_fails env = false ∧ rename_fails env = false
  ∧ (mkdirs fs (ancestors (filepath_Dir localPath))).2 = true
  ∧ fs !! localPath ≠ Some Dir
  ∧ fs !! tempPathOf env localPath ≠ Some Dir.

(** A download gets as far as the rename: what [local_io_ok] asks of the
    steps before it. *)
Definition reaches_rename (env : Env) (fs : FS) (localPath : string) : Prop :=
  mkdir_fails env = false ∧ create_fails env = false
  ∧ write_fails_at env = None ∧ sync_fails env = false
  ∧ (mkdirs fs (ancestors (filepath_Dir localPath))).2 = true
  ∧ fs !! tempPathOf env localPath ≠ Some Dir.

(** The upstream answers 200 and delivers [body] to its end, with the
    right length or none. *)
Definition upstream_serves (env : Env) (requestPath body : string) : Prop :=
  ∃ resp, http_Get env (upstreamURLOf requestPath) = Some resp
    ∧ StatusCode resp = StatusOK ∧ Body resp = body ∧ BodyErr resp = false
    ∧ ((ContentLength resp ≤ 0)%Z
       ∨ ContentLength resp = Z.of_nat (String.length body)).

(** The upstream gives no 200: a transport error, or another status. *)
Definition upstream_refuses (env : Env) (requestPath : string) : Prop :=
  match http_Get env (upstreamURLOf requestPath) with
  | None => True
  | Some resp => StatusCode resp ≠ StatusOK
  end.

(** How far a download gets: the upstream refuses; or the directories
    cannot be made; or the temp file cannot be created; or the temp file
    exists, and the commit ends with [r]. *)
Inductive stage (env : Env) (w : World) (localPath requestPath : string)
  : World * option error → Prop :=
| stage_refused e :
    upstream_refuses env requestPath →
    stage env w localPath requestPath
      ({| files := files w;
          requests := upstreamURLOf requestPath :: requests w |}, Some e)
| stage_mkdir resp fs1 :
    http_Get env (upstreamURLOf requestPath) = Some resp →
    StatusCode resp = StatusOK →
    MkdirAll (mkdir_fails env) (files w) (filepath_Dir localPath) = (fs1, false) →
    stage env w localPath requestPath
      ({| files := fs1;
          requests := upstreamURLOf requestPath :: requests w |}, Some errMkdir)
| stage_create resp fs1 :
    http_Get env (upstreamURLOf requestPath) = Some resp →
    StatusCode resp = StatusOK →
    MkdirAll (mkdir_fails env) (files w) (filepath_Dir localPath) = (fs1, true) →
    Create (create_fails env) fs1 (tempPathOf env localPath) = None →
    stage env w localPath requestPath
      ({| files := fs1;
          requests := upstreamURLOf requestPath :: requests w |},
       Some errCreateTemp)
| stage_commit resp fs1 fs2 r :
    temp_created env (files w) localPath requestPath resp fs2 →
    MkdirAll (mkdir_fails env) (files w) (filepath_Dir localPath) = (fs1, true) →
    Create (create_fails env) fs1 (tempPathOf env localPath) = Some fs2 →
    commit_result env resp fs2 localPath (tempPathOf env localPath) r →
    stage env w localPath requestPath
      ({| files := if r.1.2 then r.1.1
                   else Remove_ r.1.1 (tempPathOf env localPath);
          requests := upstreamURLOf requestPath :: requests w |}, r.2).

(** The loop of [getStats], lines 71-80: [totalSize] and [fileCount]
    after the walk. *)
Definition count_files (fs : FS) : Z * Z :=
  foldl (λ '(totalSize, fileCount) '(path, info),
           if negb (IsDir info)
           then (int64 (totalSize + Size info), int64 (fileCount + 1))
           else (totalSize, fileCount))
    (0, 0) (Walk fs (StorageDir config)).

(** [getStats]; the division of Go truncates. *)
Definition getStats (fs : FS) : Stats :=
  let '(totalSize, fileCount) := count_files fs in
  {| cached_files := fileCount;
     cache_size_mb := totalSize ÷ 1024 ÷ 1024;
     cache_limit_mb := CacheSize config;
     storage_dir := StorageDir config;
     upstream := UpstreamURL config |}.

(** The regular files at or below the storage directory, and their
    bytes. *)
Definition stored_files (fs : FS) : nat :=
  tally (file_weight (StorageDir config) false) fs.

Definition stored_bytes (fs : FS) : nat :=
  tally (file_weight (StorageDir config) true) fs.

(** Requests for one path that the server handles one after the other,
    each in its own environment. *)
Fixpoint serve (envs : list Env) (w : World) (requestPath : string)
  : list Answer * World :=
  match envs with
  | [] => ([], w)
  | env :: rest =>
      let '(answer, w1) := proxyHandler env w requestPath in
      let '(answers, w2) := serve rest w1 requestPath in
      (answer :: answers, w2)
  end.

End Program.

(** ** A server to compute with

    The configuration that [main] sets when no flag is given, and
    stand-ins for the two library functions that the program is
    parametric in: a digest that is easy to read, and a glob for the
    patterns of the program, which are a literal stem and a final star. *)

Definition default_config : Config :=
  {| Port := "8080"; StorageDir := "./storage";
     UpstreamURL := "https://mirrors.tuna.tsinghua.edu.cn";
     CacheSize := 10240 |}.

Definition toy_hex (data : string) : string := "sum:" +:+ data.

Definition star_match (pattern path : string) : bool :=
  let n := pred (String.length pattern) in
  let stem := String.substring 0 n pattern in
  bool_decide (String.substring n 1 pattern = "*")
  && String.prefix stem path
  && no_sep (String.substring n (String.length path - n) path).

Definition star_glob (fs : FS) (pattern : string) : list string :=
  filter (λ path, star_match pattern path = true) (map_to_list fs).*1.

(** A volume with one complete entry, and one whose object was changed
    behind the back of the server. *)
Definition cached_volume : FS :=
  <["storage/a" := File "abc"]>
    (<["storage/a.sha256" := File "sum:abc"]> (<["storage" := Dir]> ∅)).

Definition corrupt_volume : FS :=
  <["storage/a" := File "abX"]>
    (<["storage/a.sha256" := File "sum:abc"]> (<["storage" := Dir]> ∅)).

Definition empty_world : World := {| files := ∅; requests := [] |}.

(** An environment in which nothing fails, for a process and a clock. *)
Definition calm (upstream : string → option Response) : Env :=
  {| http_Get := upstream; Getpid := 4711; UnixNano := 1700000000000000000;
     read_fault := λ _, ReadOk;
     mkdir_fails := false; create_fails := false; write_fails_at := None;
     sync_fails := false; checksum_write_fails := false;
     checksum_written := None; rename_fails := false |}.

(** An upstream that has one answer for every request. *)
Definition always (resp : Response) : string → option Response :=
  λ _, Some resp.

(** The answer 200 with a length announced and the bytes that arrive,
    or, for a negative length, with no length announced. *)
Definition ok_response (length : Z) (body : string) : Response :=
  {| StatusCode := 200;
     transfer := if (0 <=? length)%Z then Announced (Z.to_nat length) body
                 else Unannounced body false |}.

(** An upstream that is out of service. *)
Definition unavailable : Response :=
  {| StatusCode := 503; transfer := Announced 0 "" |}.


Definition no_rename (upstream : string → option Response) : Env :=
  {| http_Get := upstream; Getpid := 4711; UnixNano := 1700000000000000000;
     read_fault := λ _, ReadOk;
     mkdir_fails := false; create_fails := false; write_fails_at := None;
     sync_fails := false; checksum_write_fails := false;
     checksum_written := None; rename_fails := true |}.

(** The volume as [main] leaves it: the storage directory and nothing
    else. *)
Definition fresh_world : World :=
  {| files := <["storage" := Dir]> ∅; requests := [] |}.

(** ** The lock table under concurrent requests

    [FileDownloader.locks] is a [sync.Map] from local paths to mutexes.
    Each request is a goroutine that runs [proxyHandler]: the check before
    the lock, lines 114-117, the check after the lock, the download, and
    then the deferred calls, in the reverse order of their [defer]
    statements: [cleanupLock] first, [Unlock] last.  [LoadOrStore],
    [Delete], [Lock] and [Unlock] are atomic, so a run of the server is an
    interleaving of these steps.  The volume is seen through
    [isFileComplete] alone: it is the set of the paths whose entry the
    check accepts, and a download that succeeds adds its path. *)

Module LockManager.

(** Where a request stands.  A mutex is named by its address. *)
Inductive PC :=
| FastCheck               (* line 105: the check before the lock *)
| AtGetFileLock           (* line 114: [downloader.getFileLock] *)
| AtLock (m : nat)        (* line 115: [fileLock.Lock()] *)
| DoubleCheck (m : nat)   (* line 120: the check after the lock *)
| Fetching (m : nat)      (* lines 127-142: [http.Get] sent, commit to come *)
| Deferred (m : nat)      (* the body has returned, [cleanupLock] is next *)
| AtUnlock (m : nat)      (* [cleanupLock] done, [Unlock] is next *)
| Returned.

(** A request: its local path, whether its download will succeed (the
    upstream and the volume decide), and where it stands. *)
Record Request := { localPath : string; fetch_ok : bool; pc : PC }.

Record State := {
  locks : gmap string nat;     (* [fd.locks]: path to mutex *)
  locked : gset nat;           (* the mutexes that are locked *)
  next : nat;                  (* the next address to allocate *)
  complete : gset string;      (* the entries [isFileComplete] accepts *)
  contacts : list string;      (* the calls of [http.Get], by local path *)
  goroutines : list Request
}.

(** [fd.locks.LoadOrStore(path, &sync.Mutex{})]: a mutex is allocated,
    and stored unless the path has one. *)
Definition getFileLock (s : State) (path : string) : nat * State :=
  let fresh := next s in
  match locks s !! path with
  | Some actual =>
      (actual, {| locks := locks s; locked := locked s; next := S fresh;
                  complete := complete s; contacts := contacts s;
                  goroutines := goroutines s |})
  | None =>
      (fresh, {| locks := <[path := fresh]> (locks s); locked := locked s;
                 next := S fresh;
                 complete := complete s; contacts := contacts s;
                 goroutines := goroutines s |})
  end.

(** [fd.locks.Delete(path)]. *)
Definition cleanupLock (s : State) (path : string) : State :=
  {| locks := delete path (locks s); locked := locked s; next := next s;
     complete := complete s; contacts := contacts s;
     goroutines := goroutines s |}.

(** [m.Lock()]: [None] while another goroutine holds the mutex. *)
Definition Lock (s : State) (m : nat) : option State :=
  if decide (m ∈ locked s) then None
  else Some {| locks := locks s; locked := {[m]} ∪ locked s; next := next s;
               complete := complete s; contacts := contacts s;
               goroutines := goroutines s |}.

(** [m.Unlock()]. *)
Definition Unlock (s : State) (m : nat) : State :=
  {| locks := locks s; locked := locked s ∖ {[m]}; next := next s;
     complete := complete s; contacts := contacts s;
     goroutines := goroutines s |}.

(** [http.Get] for the path: the upstream is contacted. *)
Definition http_Get (s : State) (path : string) : State :=
  {| locks := locks s; locked := locked s; next := next s;
     complete := complete s; contacts := path :: contacts s;
     goroutines := goroutines s |}.

(** The end of a download: a download that succeeds leaves a complete
    entry. *)
Definition finish (s : State) (path : string) (ok : bool) : State :=
  {| locks := locks s; locked := locked s; next := next s;
     complete := if ok then {[path]} ∪ complete s else complete s;
     contacts := contacts s; goroutines := goroutines s |}.

Definition goto (s : State) (g : nat) (r : Request) (l : PC) : State :=
  {| locks := locks s; locked := locked s; next := next s;
     complete := complete s; contacts := contacts s;
     goroutines :=
       <[g := {| localPath := localPath r; fetch_ok := fetch_ok r; pc := l |}]>
         (goroutines s) |}.

(** One step of goroutine [g]; [None] when it cannot move. *)
Definition step (s : State) (g : nat) : option State :=
  match goroutines s !! g with
  | None => None
  | Some r =>
      let path := localPath r in
      match pc r with
      | FastCheck =>
          if decide (path ∈ complete s) then Some (goto s g r Returned)
          else Some (goto s g r AtGetFileLock)
      | AtGetFileLock =>
          let '(fileLock, s1) := getFileLock s path in
          Some (goto s1 g r (AtLock fileLock))
      | AtLock fileLock =>
          match Lock s fileLock with
          | Some s1 => Some (goto s1 g r (DoubleCheck fileLock))
          | None => None
          end
      | DoubleCheck fileLock =>
          if decide (path ∈ complete s) then Some (goto s g r (Deferred fileLock))
          else Some (goto (http_Get s path) g r (Fetching fileLock))
      | Fetching fileLock =>
          Some (goto (finish s path (fetch_ok r)) g r (Deferred fileLock))
      | Deferred fileLock =>
          Some (goto (cleanupLock s path) g r (AtUnlock fileLock))
      | AtUnlock fileLock =>
          Some (goto (Unlock s fileLock) g r Returned)
      | Returned => None
      end
  end.

(** A schedule names the goroutine that moves at each step. *)
Fixpoint run (s : State) (schedule : list nat) : option State :=
  match schedule with
  | [] => Some s
  | g :: rest =>
      match step s g with
      | Some s1 => run s1 rest
      | None => None
      end
  end.

(** Requests for one path arrive at a server that has neither the entry
    nor a lock; [oks] tells for each whether its download will succeed. *)
Definition start (path : string) (oks : list bool) : State :=
  {| locks := ∅; locked := ∅; next := 0; complete := ∅; contacts := [];
     goroutines :=
       (λ ok, {| localPath := path; fetch_ok := ok; pc := FastCheck |}) <$> oks |}.

Definition count (P : Request → bool) (l : list Request) : nat :=
  length (filter (λ r, P r = true) l).

(** Inside the critical section for a path: between [Lock] and the
    deferred calls. *)
Definition filling (path : string) (r : Request) : bool :=
  match pc r with
  | DoubleCheck _ | Fetching _ => bool_decide (localPath r = path)
  | _ => false
  end.

Definition fillers (s : State) (path : string) : nat :=
  count (filling path) (goroutines s).

(** In the middle of a download. *)
Definition fetching (r : Request) : bool :=
  match pc r with
  | Fetching _ => true
  | _ => false
  end.

(** The requests that hold a given mutex. *)
Definition holds (m : nat) (r : Request) : bool :=
  match pc r with
  | DoubleCheck m' | Fetching m' | Deferred m' | AtUnlock m' =>
      bool_decide (m' = m)
  | _ => false
  end.

Definition holders (s : State) (m : nat) : nat := count (holds m) (goroutines s).

(** A mutex that is locked has one holder, a mutex that is not has
    none. *)
Definition mutexes_exclude (s : State) : Prop :=
  ∀ m, holders s m = if decide (m ∈ locked s) then 1%nat else 0%nat.

(** Before the entry is complete, a request is at most as far as its
    download, and the mutex it has is the one in the table. *)
Definition before_commit (entry : option nat) (r : Request) : Prop :=
  match pc r with
  | FastCheck | AtGetFileLock => True
  | AtLock m | DoubleCheck m | Fetching m => entry = Some m
  | Deferred _ | AtUnlock _ | Returned => False
  end.

(** What holds of every run in which all requests are for [path] and
    every download succeeds. *)
Record fills_once (path : string) (s : State) : Prop := {
  once_exclude : mutexes_exclude s;
  once_requests :
    Forall (λ r, localPath r = path ∧ fetch_ok r = true) (goroutines s);
  once_before :
    path ∉ complete s →
    Forall (before_commit (locks s !! path)) (goroutines s)
    ∧ length (contacts s) = count fetching (goroutines s);
  once_after :
    path ∈ complete s →
    count fetching (goroutines s) = 0%nat ∧ (length (contacts s) ≤ 1)%nat
}.

(** Requests for any paths arrive at a server that holds no lock and has
    the entries [entries] complete; each comes with its path and with
    whether its download will succeed. *)
Definition arrive (entries : gset string) (reqs : list (string * bool)) : State :=
  {| locks := ∅; locked := ∅; next := 0; complete := entries; contacts := [];
     goroutines :=
       (λ req, {| localPath := req.1; fetch_ok := req.2; pc := FastCheck |})
         <$> reqs |}.

(** The steps that a request has still to take, at most. *)
Definition steps_left (r : Request) : nat :=
  match pc r with
  | FastCheck => 7
  | AtGetFileLock => 6
  | AtLock _ => 5
  | DoubleCheck _ => 4
  | Fetching _ => 3
  | Deferred _ => 2
  | AtUnlock _ => 1
  | Returned => 0
  end.

Definition work (s : State) : nat := sum_list_with steps_left (goroutines s).

Definition returned (r : Request) : bool :=
  match pc r with
  | Returned => true
  | _ => false
  end.

(** Between [getFileLock] and [cleanupLock] for a path. *)
Definition registered (path : string) (r : Request) : bool :=
  match pc r with
  | AtLock _ | DoubleCheck _ | Fetching _ | Deferred _ =>
      bool_decide (localPath r = path)
  | _ => false
  end.

(** Every entry of the lock table belongs to a request that has still
    to call [cleanupLock] for its path. *)
Definition entries_owned (s : State) : Prop :=
  ∀ path, is_Some (locks s !! path) →
    ∃ r, r ∈ goroutines s ∧ registered path r = true.

(** Past the check after the lock, or returned. *)
Definition decided (r : Request) : bool :=
  match pc r with
  | Fetching _ | Deferred _ | AtUnlock _ | Returned => true
  | _ => false
  end.

(** The mutex that a request has got from [getFileLock]. *)
Definition mutex_of (r : Request) : option nat :=
  match pc r with
  | AtLock m | DoubleCheck m | Fetching m | Deferred m | AtUnlock m => Some m
  | _ => None
  end.

(** A mutex serves one path: the mutexes in use have been allocated,
    an entry of the table names the path of every request that has its
    mutex, no two entries share a mutex, and the requests that have the
    same mutex are for the same path. *)
Record mutexes_per_path (s : State) : Prop := {
  per_path_next :
    ∀ r m, r ∈ goroutines s → mutex_of r = Some m → (m < next s)%nat;
  per_path_entry :
    ∀ p m, locks s !! p = Some m →
      (m < next s)%nat
      ∧ ∀ r, r ∈ goroutines s → mutex_of r = Some m → localPath r = p;
  per_path_table :
    ∀ p q m, locks s !! p = Some m → locks s !! q = Some m → p = q;
  per_path_same :
    ∀ r r' m, r ∈ goroutines s → r' ∈ goroutines s →
      mutex_of r = Some m → mutex_of r' = Some m →
      localPath r = localPath r'
}.

End LockManager.

(** * Properties *)

(** ** Strings *)

Lemma append_cons (c : ascii) (s t : string) :
  String c s +:+ t = String c (s +:+ t).
Proof. reflexivity. Qed.

Lemma append_nil_r (s : string) : s +:+ "" = s.
Proof.
  induction s as [|c s IH]; [done|]. by rewrite append_cons, IH.
Qed.

Lemma length_append (a b : string) :
  String.length (a +:+ b) = (String.length a + String.length b)%nat.
Proof.
  induction a as [|x a IH]; [done|]. rewrite append_cons. simpl. by rewrite IH.
Qed.

Lemma append_ne_self (p x : string) : x ≠ "" → p +:+ x ≠ p.
Proof.
  intros Hx Heq. apply Hx.
  apply (inj (String.append p)). by rewrite append_nil_r.
Qed.

(** ** The file system *)

Lemma Remove_file (fs : FS) (path data : string) :
  fs !! path = Some (File data) → Remove_ fs path = delete path fs.
Proof. intros H. unfold Remove_, Remove. by rewrite H. Qed.

Lemma Remove_missing (fs : FS) (path : string) :
  fs !! path = None → Remove_ fs path = fs.
Proof. intros H. unfold Remove_, Remove. by rewrite H. Qed.

(** ** Path names, on the examples of the Go documentation and tests *)

Example Clean_examples :
  Clean "a/c" = "a/c" ∧ Clean "a//c" = "a/c" ∧ Clean "a/c/." = "a/c" ∧
  Clean "a/c/b/.." = "a/c" ∧ Clean "/../a/c" = "/a/c" ∧
  Clean "/../a/b/../././/c" = "/a/c" ∧ Clean "" = "." ∧
  Clean "abc/def/../../.." = ".." ∧ Clean "../../abc" = "../../abc" ∧
  Clean "abc/../../././../def" = "../../def" ∧ Clean "/" = "/" ∧
  Clean "abc/def/ghi/../jkl" = "abc/def/jkl" ∧ Clean "abc/def/.." = "abc" ∧
  Clean "abc/def/../.." = "." ∧ Clean "/abc/def/../.." = "/" ∧
  Clean "abc/./../def" = "def" ∧ Clean "abc//./../def" = "def" ∧
  Clean "abc/" = "abc" ∧ Clean "///" = "/" ∧ Clean "./storage//a/b" = "storage/a/b".
Proof. repeat split; vm_compute; reflexivity. Qed.

Example Join_examples :
  Join "./storage" "/ubuntu/dists/Release" = "storage/ubuntu/dists/Release" ∧
  Join "./storage" "/../etc/passwd" = "etc/passwd" ∧
  Join "/srv/cache" "/../../etc/passwd" = "/etc/passwd" ∧
  Join "./storage" "/" = "storage" ∧
  Join "" "/a" = "/a" ∧ Join "" "" = "" ∧ Join "a" "" = "a".
Proof. repeat split; vm_compute; reflexivity. Qed.

Example Dir_examples :
  filepath_Dir "storage/a/b" = "storage/a" ∧ filepath_Dir "a" = "." ∧
  filepath_Dir "/a" = "/" ∧ filepath_Dir "/" = "/" ∧ filepath_Dir "" = "." ∧
  filepath_Dir "/foo/bar/baz.js" = "/foo/bar" ∧ filepath_Dir "dev.txt" = "." ∧
  filepath_Dir "../todo.txt" = ".." ∧ filepath_Dir "/usr/local//go" = "/usr/local".
Proof. repeat split; vm_compute; reflexivity. Qed.

(** ** The length of cleaned paths *)

Lemma weight_app (l1 l2 : list string) :
  weight (l1 ++ l2) = (weight l1 + weight l2)%nat.
Proof. apply sum_list_with_app. Qed.

Lemma split_nonempty (s : string) : split s ≠ [].
Proof.
  destruct s as [|c s]; simpl; [done|].
  case_decide; [done|]. by destruct (split s).
Qed.

Lemma weight_split (s : string) : weight (split s) = S (String.length s).
Proof.
  induction s as [|c s IH]; [done|]. simpl.
  case_decide.
  - unfold weight in *. simpl. by rewrite IH.
  - pose proof (split_nonempty s). destruct (split s) as [|e es]; [done|].
    unfold weight in *. simpl in *. lia.
Qed.

Lemma length_join_sep (l : list string) :
  String.length (join_sep l) = pred (weight l).
Proof.
  induction l as [|e [|e' es] IH]; [done|..].
  - unfold weight. simpl. lia.
  - change (join_sep (e :: e' :: es)) with (e +:+ "/" +:+ join_sep (e' :: es)).
    rewrite !length_append, IH. unfold weight. simpl. lia.
Qed.

Lemma weight_replicate_dotdot (n : nat) : weight (replicate n "..") = (3 * n)%nat.
Proof. induction n as [|n IH]; [done|]. unfold weight in *. simpl in *. lia. Qed.

Lemma weight_rev (l : list string) : weight (rev l) = weight l.
Proof.
  induction l as [|e l IH]; [done|]. simpl. rewrite weight_app, IH.
  unfold weight. simpl. lia.
Qed.

Lemma weight_out_elems (out : Out) : weight (out_elems out) = out_weight out.
Proof.
  unfold out_elems, out_weight.
  by rewrite weight_app, weight_replicate_dotdot, weight_rev.
Qed.

(** An element adds at most its own weight to what is written, and an
    empty element adds nothing. *)
Lemma clean_step_weight (rooted : bool) (out : Out) (e : string) :
  (out_weight (clean_step rooted out e) + empties [e]
     ≤ out_weight out + weight [e])%nat.
Proof.
  unfold clean_step, out_weight, empties, weight.
  destruct (decide (e = "")) as [->|He]; [simpl; lia|].
  rewrite filter_cons_False, filter_nil by done.
  destruct (decide (e = ".")) as [->|?]; [simpl; lia|].
  destruct (decide (e = "..")) as [->|?].
  - destruct out as [k [|x es]], rooted; simpl; lia.
  - simpl. lia.
Qed.

Lemma clean_from_weight (rooted : bool) (l : list string) (out : Out) :
  (out_weight (clean_from rooted out l) + empties l
     ≤ out_weight out + weight l)%nat.
Proof.
  revert out. induction l as [|e l IH]; intros out.
  { unfold empties, weight. simpl. lia. }
  pose proof (IH (clean_step rooted out e)) as H1.
  pose proof (clean_step_weight rooted out e) as H2.
  assert (empties (e :: l) = (empties [e] + empties l)%nat) as ->.
  { unfold empties. by rewrite <- length_app, <- filter_app. }
  assert (weight (e :: l) = (weight [e] + weight l)%nat) as ->.
  { by rewrite <- weight_app. }
  change (clean_from rooted out (e :: l))
    with (clean_from rooted (clean_step rooted out e) l).
  lia.
Qed.

Lemma weight_zero (l : list string) : weight l = 0%nat → l = [].
Proof. by destruct l. Qed.

Lemma length_render (rooted : bool) (out : Out) :
  render rooted out = "." ∨ render rooted out = "/"
  ∨ (0 < out_weight out)%nat
    ∧ String.length (render rooted out)
        = ((if rooted then 1 else 0) + pred (out_weight out))%nat.
Proof.
  unfold render. rewrite <- weight_out_elems.
  destruct (decide (weight (out_elems out) = 0%nat)) as [Hz|Hnz].
  - apply weight_zero in Hz. rewrite Hz. simpl.
    destruct rooted; [by right; left|by left].
  - destruct rooted.
    + right. right. split; [lia|].
      by rewrite length_append, length_join_sep.
    + case_decide as Hb; [by left|]. right. right. split; [lia|].
      by rewrite length_join_sep.
Qed.

Lemma split_snoc_sep (s : string) :
  split (s +:+ "/") = (split s ++ [""])%list.
Proof.
  induction s as [|c s IH]; [done|].
  rewrite append_cons. simpl. rewrite IH. case_decide; [done|].
  pose proof (split_nonempty s). by destruct (split s).
Qed.

Lemma dir_prefix_cases (s : string) :
  dir_prefix s = ""
  ∨ ∃ x, dir_prefix s = x +:+ "/"
      ∧ (String.length (dir_prefix s) ≤ String.length s)%nat.
Proof.
  induction s as [|c s IH]; [by left|]. simpl.
  destruct IH as [IH|(x & IH & Hlen)].
  - rewrite IH. case_decide as Hc; [|by left].
    right. exists "". subst c. split; [done|]. simpl. lia.
  - right. assert (dir_prefix s ≠ "") as Hne.
    { rewrite IH. by destruct x. }
    exists (String c x). case_decide.
    + split; [by rewrite IH|]. simpl. lia.
    + rewrite decide_False by done. split; [by rewrite IH|]. simpl. lia.
Qed.

Lemma empties_rooted_dir (x : string) :
  is_rooted (x +:+ "/") = true → (2 ≤ empties (split (x +:+ "/")))%nat.
Proof.
  rewrite split_snoc_sep. unfold empties. rewrite filter_app, length_app.
  destruct x as [|c x]; [done|].
  rewrite append_cons. simpl. intros Hc. apply bool_decide_eq_true in Hc.
  rewrite decide_True by done. rewrite filter_cons_True by done. simpl. lia.
Qed.

Lemma empties_dir (x : string) : (1 ≤ empties (split (x +:+ "/")))%nat.
Proof.
  rewrite split_snoc_sep. unfold empties. rewrite filter_app, length_app.
  simpl. lia.
Qed.

(** Cleaning a path that ends in a separator makes it shorter, unless the
    result is the current directory or the root. *)
Lemma Clean_dir_shorter (x : string) :
  Clean (x +:+ "/") = "." ∨ Clean (x +:+ "/") = "/"
  ∨ (String.length (Clean (x +:+ "/")) < String.length (x +:+ "/"))%nat.
Proof.
  unfold Clean. case_decide as Hx; [by left|].
  set (rooted := is_rooted (x +:+ "/")).
  set (out := clean_from _ _ _).
  destruct (length_render rooted out) as [?|[?|[Hpos Hlen]]];
    [by left|by right; left|].
  right. right. rewrite Hlen.
  pose proof (clean_from_weight rooted (split (x +:+ "/"))
                {| dotdots := 0; elems := [] |}) as Hw.
  fold out in Hw. rewrite weight_split in Hw.
  unfold out_weight at 2 in Hw. simpl in Hw.
  pose proof (empties_dir x).
  destruct (is_rooted (x +:+ "/")) eqn:Hr; subst rooted.
  - pose proof (empties_rooted_dir x Hr). clearbody out. simpl. lia.
  - clearbody out. simpl. lia.
Qed.

Lemma prefixes_from_length (done rest a : string) :
  a ∈ prefixes_from done rest →
  (String.length a ≤ String.length done + String.length rest)%nat.
Proof.
  revert done. induction rest as [|c rest IH]; intros done; simpl.
  - intros ->%list_elem_of_singleton. lia.
  - rewrite elem_of_app. intros [Ha|Ha].
    + case_decide; [|by apply elem_of_nil in Ha].
      apply list_elem_of_singleton in Ha as ->. lia.
    + apply IH in Ha. rewrite length_append in Ha. simpl in Ha. lia.
Qed.

(** The directories that [os.MkdirAll(filepath.Dir(path))] looks at have
    names shorter than the path. *)
Lemma ancestors_Dir_shorter (path a : string) :
  a ∈ ancestors (filepath_Dir path) →
  (String.length a < String.length path)%nat.
Proof.
  unfold ancestors, filepath_Dir. intros Ha.
  apply list_elem_of_filter in Ha as [(Ha1 & Ha2 & Ha3) Ha].
  destruct (dir_prefix_cases path) as [Hd|(x & Hd & Hlen)].
  - rewrite Hd in Ha. vm_compute in Ha.
    apply list_elem_of_singleton in Ha. done.
  - rewrite Hd in *. destruct (Clean_dir_shorter x) as [Hc|[Hc|Hc]].
    + rewrite Hc in Ha. vm_compute in Ha.
      apply list_elem_of_singleton in Ha. done.
    + rewrite Hc in Ha. vm_compute in Ha.
      apply elem_of_cons in Ha as [?|Ha]; [done|].
      apply list_elem_of_singleton in Ha. done.
    + apply prefixes_from_length in Ha. simpl in Ha. lia.
Qed.

(** ** Where a joined path lies *)

Lemma split_app_sep (a b : string) :
  split (a +:+ "/" +:+ b) = (split a ++ split b)%list.
Proof.
  induction a as [|c a IH]; [done|].
  rewrite append_cons. simpl. rewrite IH. case_decide; [done|].
  pose proof (split_nonempty a). by destruct (split a).
Qed.

Lemma is_rooted_app (a b : string) : a ≠ "" → is_rooted (a +:+ b) = is_rooted a.
Proof. by destruct a. Qed.

Lemma clean_from_app (rooted : bool) (out : Out) (l1 l2 : list string) :
  clean_from rooted out (l1 ++ l2)
    = clean_from rooted (clean_from rooted out l1) l2.
Proof. apply foldl_app. Qed.

(** A walk that never climbs above its start only adds elements to what
    is written. *)
Lemma clean_from_descends (rooted : bool) (k : nat) (base : list string)
    (l : list string) (es : list string) (n : nat) :
  depth l (length es) = Some n →
  ∃ es', length es' = n
    ∧ clean_from rooted {| dotdots := k; elems := es ++ base |} l
        = {| dotdots := k; elems := es' ++ base |}.
Proof.
  revert es. induction l as [|e l IH]; intros es; simpl.
  { intros [= <-]. by exists es. }
  unfold clean_from. simpl. unfold clean_step at 2.
  destruct (decide (e = "")); [apply IH|].
  destruct (decide (e = ".")); [apply IH|].
  destruct (decide (e = "..")).
  - destruct es as [|x es]; [done|]. simpl. apply IH.
  - simpl. apply (IH (e :: es)).
Qed.

Lemma split_no_sep (s : string) : Forall (λ e, no_sep e = true) (split s).
Proof.
  induction s as [|c s IH]; simpl; [by repeat constructor|].
  case_decide as Hc; [by constructor|].
  pose proof (split_nonempty s). destruct (split s) as [|e es]; [done|].
  apply Forall_cons in IH as [He Hes]. constructor; [|done].
  simpl. rewrite He. by rewrite bool_decide_eq_false_2.
Qed.

Lemma clean_step_out (rooted : bool) (out : Out) (e : string) :
  no_sep e = true → clean_out rooted out → clean_out rooted (clean_step rooted out e).
Proof.
  intros He [Hn Hr]. unfold clean_step.
  destruct (decide (e = "")); [done|].
  destruct (decide (e = ".")); [done|].
  destruct (decide (e = "..")).
  - destruct out as [k [|x es]]; simpl in *.
    + destruct rooted; [done|]. by split.
    + apply Forall_cons in Hn as [_ Hn]. by split.
  - split; [|done]. simpl. by constructor.
Qed.

Lemma clean_from_out (rooted : bool) (l : list string) (out : Out) :
  Forall (λ e, no_sep e = true) l →
  clean_out rooted out → clean_out rooted (clean_from rooted out l).
Proof.
  revert out. induction l as [|e l IH]; intros out Hl Hout; [done|].
  apply Forall_cons in Hl as [He Hl].
  apply (IH (clean_step rooted out e)); [done|]. by apply clean_step_out.
Qed.

Lemma cleaned_out (path : string) : clean_out (cleaned path).1 (cleaned path).2.
Proof.
  unfold cleaned. simpl. apply clean_from_out; [apply split_no_sep|].
  by split; [constructor|].
Qed.

Lemma split_one (e : string) : no_sep e = true → split e = [e].
Proof.
  induction e as [|c e IH]; [done|]. simpl.
  intros [Hc He]%andb_true_iff. apply negb_true_iff, bool_decide_eq_false in Hc.
  rewrite decide_False by done. by rewrite IH.
Qed.

Lemma split_join_sep (l : list string) :
  l ≠ [] → Forall (λ e, no_sep e = true) l → split (join_sep l) = l.
Proof.
  induction l as [|e [|e' es] IH]; [done|..]; intros _ Hl.
  - apply Forall_cons in Hl as [He _]. by apply split_one.
  - apply Forall_cons in Hl as [He Hl].
    change (join_sep (e :: e' :: es)) with (e +:+ "/" +:+ join_sep (e' :: es)).
    rewrite split_app_sep, IH by done. by rewrite split_one.
Qed.

Lemma clean_from_dotdots (k j : nat) :
  clean_from false {| dotdots := j; elems := [] |} (replicate k "..")
    = {| dotdots := (j + k)%nat; elems := [] |}.
Proof.
  revert j. induction k as [|k IH]; intros j; simpl.
  { by rewrite Nat.add_0_r. }
  unfold clean_from in *. simpl. unfold clean_step at 2. simpl.
  rewrite IH. f_equal. lia.
Qed.

Lemma clean_from_names (rooted : bool) (k : nat) (l acc : list string) :
  Forall name l →
  clean_from rooted {| dotdots := k; elems := acc |} l
    = {| dotdots := k; elems := (rev l ++ acc)%list |}.
Proof.
  revert acc. induction l as [|e l IH]; intros acc Hl; [done|].
  apply Forall_cons in Hl as [(? & ? & ? & ?) Hl].
  unfold clean_from in *. simpl. unfold clean_step at 2.
  rewrite !decide_False by done. simpl. rewrite IH by done.
  by rewrite <- app_assoc.
Qed.

Lemma clean_from_out_elems (rooted : bool) (out : Out) :
  clean_out rooted out →
  clean_from rooted {| dotdots := 0; elems := [] |} (out_elems out) = out.
Proof.
  intros [Hn Hr]. unfold out_elems. rewrite clean_from_app.
  assert (clean_from rooted {| dotdots := 0; elems := [] |}
            (replicate (dotdots out) "..")
          = {| dotdots := dotdots out; elems := [] |}) as ->.
  { destruct rooted; [by rewrite Hr|]. by rewrite clean_from_dotdots. }
  rewrite clean_from_names by by apply Forall_rev.
  rewrite rev_involutive, app_nil_r. by destruct out.
Qed.

Lemma out_elems_no_sep (rooted : bool) (out : Out) :
  clean_out rooted out → Forall (λ e, no_sep e = true) (out_elems out).
Proof.
  intros [Hn _]. unfold out_elems. apply Forall_app. split.
  - by apply Forall_replicate.
  - apply Forall_rev. eapply Forall_impl; [done|]. by intros e (_ & _ & _ & ?).
Qed.

Lemma out_elems_nonempty (rooted : bool) (out : Out) :
  clean_out rooted out → Forall (λ e, e ≠ "") (out_elems out).
Proof.
  intros [Hn _]. unfold out_elems. apply Forall_app. split.
  - by apply Forall_replicate.
  - apply Forall_rev. eapply Forall_impl; [done|]. by intros e (? & _).
Qed.

Lemma join_sep_head (l : list string) (e : string) (es : list string) :
  l = e :: es → e ≠ "" →
  ∃ c rest, e = String c rest ∧ ∃ rest', join_sep l = String c rest'.
Proof.
  intros -> He. destruct e as [|c rest]; [done|].
  exists c, rest. split; [done|]. destruct es; simpl; eauto.
Qed.

(** Cleaning what [filepath.Clean] has written finds the same elements. *)
Lemma cleaned_render (rooted : bool) (out : Out) :
  clean_out rooted out → cleaned (render rooted out) = (rooted, out).
Proof.
  intros Hout. pose proof (out_elems_no_sep _ _ Hout) as Hns.
  pose proof (out_elems_nonempty _ _ Hout) as Hne.
  pose proof (clean_from_out_elems _ _ Hout) as Hce.
  unfold cleaned, render. destruct rooted.
  - simpl. f_equal. change ("" +:+ ?b) with b.
    change (clean_step true {| dotdots := 0; elems := [] |} "")
      with {| dotdots := 0; elems := [] |}.
    destruct (out_elems out) as [|e es] eqn:Hl; [done|].
    by rewrite split_join_sep.
  - destruct (out_elems out) as [|e es] eqn:Hl.
    { simpl. by rewrite <- Hce. }
    apply Forall_cons in Hne as [He _].
    destruct (join_sep_head (e :: es) e es eq_refl He)
      as (c & rest & -> & rest' & Hj).
    rewrite decide_False by by rewrite Hj.
    assert (is_rooted (join_sep (String c rest :: es)) = false) as ->.
    { rewrite Hj. simpl. pose proof Hns as [Hc _]%Forall_cons. simpl in Hc.
      apply andb_true_iff in Hc as [Hc _]. by apply negb_true_iff in Hc. }
    by rewrite split_join_sep, Hce.
Qed.

Lemma cleaned_Clean (path : string) : path ≠ "" → cleaned (Clean path) = cleaned path.
Proof.
  intros Hp. unfold Clean. rewrite decide_False by done.
  apply (cleaned_render _ _ (cleaned_out path)).
Qed.

Lemma depth_descends (requestPath : string) :
  descends requestPath = true →
  ∃ n, depth (split requestPath) 0 = Some (S n).
Proof.
  unfold descends. destruct (depth _ _) as [[|n]|]; [done| |done]. eauto.
Qed.

Lemma depth_no_dotdot (l : list string) (d : nat) :
  Forall (λ e, e ≠ "..") l →
  depth l d = Some (d + length (filter (λ e, e ≠ "" ∧ e ≠ ".") l))%nat.
Proof.
  revert d. induction l as [|e l IH]; intros d Hl; simpl.
  { by rewrite Nat.add_0_r. }
  apply Forall_cons in Hl as [He Hl].
  destruct (decide (e = "")) as [->|?].
  { rewrite filter_cons_False by (intros [? _]; done). by apply IH. }
  destruct (decide (e = ".")) as [->|?].
  { rewrite filter_cons_False by (intros [_ ?]; done). by apply IH. }
  rewrite decide_False by done. rewrite filter_cons_True by done.
  rewrite IH by done. simpl. f_equal. lia.
Qed.

(** A request path without a [..] element that names something
    descends. *)
Lemma descends_without_dotdot (requestPath : string) :
  Forall (λ e, e ≠ "..") (split requestPath) →
  Exists (λ e, e ≠ "" ∧ e ≠ ".") (split requestPath) →
  descends requestPath = true.
Proof.
  intros Hno Hsome. unfold descends. rewrite (depth_no_dotdot _ _ Hno). simpl.
  apply Exists_exists in Hsome as (e & Hin & He).
  assert (e ∈ filter (λ e, e ≠ "" ∧ e ≠ ".") (split requestPath)) as Hf.
  { by apply list_elem_of_filter. }
  by destruct (filter _ _); [apply elem_of_nil in Hf|].
Qed.

(** C2, as the code has it: the local path is the storage directory and
    the request path joined and cleaned, with no check of the result.
    When the storage directory is not the empty string and the request
    path names an element below its start without ever climbing above
    it, the local path lies strictly inside the storage directory. *)
Theorem Join_stays_inside (config : Config) (requestPath : string) :
  StorageDir config ≠ "" →
  descends requestPath = true →
  inside (StorageDir config) (Join (StorageDir config) requestPath) = true.
Proof.
  set (dir := StorageDir config).
  intros Hdir [n Hn]%depth_descends. unfold Join, inside.
  rewrite decide_False by done.
  rewrite cleaned_Clean by by destruct dir.
  unfold cleaned. rewrite is_rooted_app by done.
  rewrite split_app_sep, clean_from_app.
  set (rooted := is_rooted dir).
  set (out := clean_from rooted _ (split dir)).
  destruct (clean_from_descends rooted (dotdots out) (elems out)
              (split requestPath) [] (S n) Hn) as (es & Hlen & Heq).
  simpl in Heq. replace {| dotdots := dotdots out; elems := elems out |}
    with out in Heq by by destruct out.
  rewrite Heq. simpl.
  rewrite !andb_true_iff. split_and!.
  - by apply bool_decide_eq_true.
  - by apply bool_decide_eq_true.
  - apply bool_decide_eq_true. rewrite rev_app_distr. by apply prefix_app_r.
  - apply negb_true_iff, bool_decide_eq_false.
    intros H. apply (f_equal length) in H. rewrite length_app in H. lia.
Qed.

(** ** The names of the temp file and of the sidecar *)

Lemma temp_ne_local (path suffix : string) :
  path +:+ ".tmp." +:+ suffix ≠ path.
Proof. by apply append_ne_self. Qed.

Lemma sidecar_ne_local (path : string) : path +:+ ".sha256" ≠ path.
Proof. by apply append_ne_self. Qed.

Lemma sidecar_ne_temp (path suffix : string) :
  path +:+ ".sha256" ≠ path +:+ ".tmp." +:+ suffix.
Proof. intros H. apply (inj (String.append path)) in H. discriminate H. Qed.

(** ** The copy of the body *)

Lemma Copy_ok (env : Env) (resp : Response) (data : string) (written : Z) :
  Copy env resp = (data, written, false) →
  data = Body resp ∧ written = Z.of_nat (String.length (Body resp)).
Proof.
  unfold Copy. destruct (write_fails_at env) as [k|].
  - destruct (k <? _)%nat; intros; simplify_eq; done.
  - intros; simplify_eq; done.
Qed.

Lemma Remove_lookup (fs : FS) (path q : string) :
  Remove_ fs path !! q = fs !! q ∨ Remove_ fs path !! q = None.
Proof.
  unfold Remove_, Remove. destruct (fs !! path) as [[]|]; simpl; [|..|by left].
  - destruct (decide (path = q)) as [->|?];
      [right; apply lookup_delete_eq|left; by apply lookup_delete_ne].
  - destruct (has_entry fs path); simpl; [by left|].
    destruct (decide (path = q)) as [->|?];
      [right; apply lookup_delete_eq|left; by apply lookup_delete_ne].
Qed.

(** [mkdirs] changes the volume only by making directories of its list
    at paths where nothing was. *)
Lemma mkdirs_lookup (l : list string) (fs : FS) (q : string) :
  (mkdirs fs l).1 !! q = fs !! q
  ∨ (fs !! q = None ∧ q ∈ l ∧ (mkdirs fs l).1 !! q = Some Dir).
Proof.
  revert fs. induction l as [|d l IH]; intros fs; simpl; [by left|].
  destruct (fs !! d) as [[]|] eqn:Hd; [by left| |].
  - destruct (IH fs) as [?|(? & ? & ?)]; [by left|].
    right. split_and!; [done| |done]. by apply elem_of_cons; right.
  - destruct (decide (q = d)) as [->|Hne].
    + right. split; [done|]. split; [by apply elem_of_cons; left|].
      destruct (IH (<[d:=Dir]> fs)) as [Heq|(Hnone & _)].
      * by rewrite Heq, lookup_insert_eq.
      * by rewrite lookup_insert_eq in Hnone.
    + destruct (IH (<[d:=Dir]> fs)) as [Heq|(Hnone & Hin & Hdir)].
      * left. by rewrite Heq, lookup_insert_ne.
      * right. rewrite lookup_insert_ne in Hnone by done.
        split_and!; [done| |done]. by apply elem_of_cons; right.
Qed.

(** It succeeds exactly when no path of its list is a regular file. *)
Lemma mkdirs_ok (l : list string) (fs : FS) :
  (mkdirs fs l).2 = true ↔ ∀ q data, q ∈ l → fs !! q ≠ Some (File data).
Proof.
  revert fs. induction l as [|d l IH]; intros fs; simpl.
  { split; [|done]. intros _ q data Hq. by apply elem_of_nil in Hq. }
  destruct (fs !! d) as [[data|]|] eqn:Hd; simpl.
  - split; [done|]. intros H. exfalso. eapply H; [|done]. by apply elem_of_cons; left.
  - rewrite IH. split.
    + intros H q data [->|Hq]%elem_of_cons; [by rewrite Hd|by apply H].
    + intros H q data Hq. apply H. by apply elem_of_cons; right.
  - rewrite IH. split.
    + intros H q data [->|Hq]%elem_of_cons; [by rewrite Hd|].
      specialize (H q data Hq).
      destruct (decide (d = q)) as [->|?]; [by rewrite Hd|].
      by rewrite lookup_insert_ne in H.
    + intros H q data Hq. destruct (decide (d = q)) as [->|?].
      * by rewrite lookup_insert_eq.
      * rewrite lookup_insert_ne by done. apply H. by apply elem_of_cons; right.
Qed.

Section Properties.

Variable Glob : FS → string → list string.
Variable sha256hex : string → string.
Variable config : Config.

Local Abbreviation calculateChecksum := (calculateChecksum sha256hex).
Local Abbreviation isFileComplete := (isFileComplete Glob sha256hex).
Local Abbreviation downloadFile := (downloadFile sha256hex config).
Local Abbreviation proxyHandler := (proxyHandler Glob sha256hex config).
Local Abbreviation serve := (serve Glob sha256hex config).
Local Abbreviation sound := (sound Glob).
Local Abbreviation upstreamURLOf := (upstreamURLOf config).
Local Abbreviation temp_created := (temp_created config).
Local Abbreviation empty_success := (empty_success config).
Local Abbreviation upstream_not_found := (upstream_not_found config).

(** *** The completeness check *)

Lemma sound_file (fs : FS) (path : string) :
  sound fs path ↔
  ∃ data, fs !! path = Some (File data) ∧ data ≠ ""
    ∧ Glob fs (path +:+ ".tmp.*") = [].
Proof.
  unfold sound, Stat. split.
  - intros (fi & Hst & Hdir & Hsz & Hg).
    destruct (fs !! path) as [[data|]|]; simplify_eq/=.
    exists data. split_and!; [done| |done]. by intros ->.
  - intros (data & -> & Hne & Hg). eexists. split_and!; [done..| |done].
    simpl. destruct data; [done | simpl; lia].
Qed.

Lemma calculateChecksum_ok (fs : FS) (path data : string) :
  fs !! path = Some (File data) →
  calculateChecksum ReadOk fs path = sha256hex data.
Proof. intros H. unfold calculateChecksum, Open. by rewrite H. Qed.

Lemma calculateChecksum_fault (rf : ReadFault) (fs : FS) (path : string) :
  rf ≠ ReadOk → calculateChecksum rf fs path = "".
Proof.
  intros H. unfold calculateChecksum, Open.
  destruct rf; [done|done|]. by destruct (fs !! path) as [[]|].
Qed.

(** The check on a sound entry comes down to the sidecar. *)
Lemma isFileComplete_sound (rf : ReadFault) (fs : FS) (path : string) :
  sound fs path →
  isFileComplete rf fs path =
    match ReadFile fs (path +:+ ".sha256") with
    | Some sum =>
        if decide (calculateChecksum rf fs path ≠ sum)
        then (false, Remove_ (Remove_ fs path) (path +:+ ".sha256"))
        else (true, fs)
    | None => (true, fs)
    end.
Proof.
  intros (fi & Hst & Hdir & Hsz & Hg). unfold isFileComplete.
  rewrite Hst, Hdir, Hg. simpl.
  by destruct (Z.eqb_spec (Size fi) 0).
Qed.

Lemma isFileComplete_unsound (rf : ReadFault) (fs : FS) (path : string) :
  ¬ sound fs path → isFileComplete rf fs path = (false, fs).
Proof.
  intros Hns. unfold isFileComplete.
  destruct (Stat fs path) as [fi|] eqn:Hst; [|done].
  destruct (IsDir fi) eqn:Hdir; [done|]. simpl.
  destruct (Z.eqb_spec (Size fi) 0) as [|Hsz]; [done|].
  destruct (Glob fs (path +:+ ".tmp.*")) as [|m ms] eqn:Hg; [|done].
  destruct Hns. by exists fi.
Qed.

Lemma sound_dec (fs : FS) (path : string) : sound fs path ∨ ¬ sound fs path.
Proof.
  rewrite sound_file.
  destruct (fs !! path) as [[data|]|] eqn:H.
  - destruct (decide (data = "")) as [->|Hd].
    { right. intros (? & ? & ? & _). naive_solver. }
    destruct (Glob fs (path +:+ ".tmp.*")) eqn:Hg.
    + left. eauto.
    + right. intros (? & _ & _ & ?). naive_solver.
  - right. by intros (? & ? & ?).
  - right. by intros (? & ? & ?).
Qed.

(** The check changes the volume only when it answers no. *)
Lemma isFileComplete_true (rf : ReadFault) (fs : FS) (path : string) :
  (isFileComplete rf fs path).1 = true → (isFileComplete rf fs path).2 = fs.
Proof.
  destruct (sound_dec fs path) as [Hs|Hs].
  - rewrite (isFileComplete_sound _ _ _ Hs).
    destruct (ReadFile _ _); [|done]. by case_decide.
  - by rewrite (isFileComplete_unsound _ _ _ Hs).
Qed.


(** A check that answers no leaves a volume on which every later check
    answers no as well, and changes nothing. *)
Lemma isFileComplete_false_again (rf rf' : ReadFault) (fs : FS) (path : string) :
  (isFileComplete rf fs path).1 = false →
  isFileComplete rf' (isFileComplete rf fs path).2 path
    = (false, (isFileComplete rf fs path).2).
Proof.
  intros Hc. destruct (sound_dec fs path) as [Hs|Hs].
  - rewrite (isFileComplete_sound _ _ _ Hs) in Hc |- *.
    destruct (ReadFile _ _) as [sum|]; [|done].
    case_decide; [|done]. simpl.
    apply isFileComplete_unsound. rewrite sound_file.
    intros (data & Hd & _). apply sound_file in Hs as (data0 & H0 & _).
    rewrite (Remove_file _ _ _ H0) in Hd.
    destruct ((delete path fs) !! (path +:+ ".sha256")) as [[d|]|] eqn:Hside.
    + rewrite (Remove_file _ _ _ Hside) in Hd.
      apply lookup_delete_Some in Hd as [_ Hd].
      by rewrite lookup_delete_eq in Hd.
    + unfold Remove_, Remove in Hd. rewrite Hside in Hd.
      destruct (has_entry _ _); simpl in Hd.
      * by rewrite lookup_delete_eq in Hd.
      * apply lookup_delete_Some in Hd as [_ Hd].
        by rewrite lookup_delete_eq in Hd.
    + rewrite (Remove_missing _ _ Hside) in Hd.
      by rewrite lookup_delete_eq in Hd.
  - rewrite (isFileComplete_unsound _ _ _ Hs). simpl.
    by apply isFileComplete_unsound.
Qed.

(** What the check does to a sound entry whose sidecar disagrees. *)
Lemma isFileComplete_mismatch (rf : ReadFault) (fs : FS) (path sum : string) :
  sound fs path →
  ReadFile fs (path +:+ ".sha256") = Some sum →
  calculateChecksum rf fs path ≠ sum →
  isFileComplete rf fs path
    = (false, delete (path +:+ ".sha256") (delete path fs)).
Proof.
  intros Hs Hside Hne. rewrite (isFileComplete_sound _ _ _ Hs), Hside.
  rewrite decide_True by done. f_equal.
  apply sound_file in Hs as (data & Hd & _).
  rewrite (Remove_file _ _ _ Hd).
  unfold ReadFile in Hside.
  destruct (fs !! (path +:+ ".sha256")) as [[d|]|] eqn:Hs'; simplify_eq.
  apply (Remove_file _ _ sum). rewrite lookup_delete_ne; [done|].
  intros Heq. symmetry in Heq. by apply append_ne_self in Heq.
Qed.


(** C10, for a sidecar that is not empty: when the object cannot be
    opened or read to its end while the digest is recomputed, the
    recomputed digest is the empty string, the check removes the object
    and the sidecar and answers INCOMPLETE, as it does for every entry
    whose digest disagrees with the sidecar. *)
Theorem read_failure_counts_as_corruption
    (rf : ReadFault) (fs : FS) (path sum : string) :
  sound fs path →
  ReadFile fs (path +:+ ".sha256") = Some sum →
  sum ≠ "" →
  rf ≠ ReadOk →
  calculateChecksum rf fs path = ""
  ∧ isFileComplete rf fs path
      = (false, delete (path +:+ ".sha256") (delete path fs))
  ∧ (∀ rf', calculateChecksum rf' fs path ≠ sum →
       isFileComplete rf' fs path = isFileComplete rf fs path).
Proof.
  intros Hs Hside Hsum Hrf.
  pose proof (calculateChecksum_fault _ fs path Hrf) as Hempty.
  assert (calculateChecksum rf fs path ≠ sum) as Hne by congruence.
  split; [done|]. split; [by apply (isFileComplete_mismatch _ _ _ sum)|].
  intros rf' Hne'. by rewrite !(isFileComplete_mismatch _ _ _ sum).
Qed.

(** An empty sidecar agrees with the empty string of a failed read: the
    entry is accepted. *)
Lemma read_failure_with_empty_sidecar (rf : ReadFault) (fs : FS) (path : string) :
  sound fs path →
  ReadFile fs (path +:+ ".sha256") = Some "" →
  rf ≠ ReadOk →
  isFileComplete rf fs path = (true, fs).
Proof.
  intros Hs Hside Hrf. rewrite (isFileComplete_sound _ _ _ Hs), Hside.
  by rewrite (calculateChecksum_fault _ _ _ Hrf).
Qed.

(** *** The download *)

Lemma downloadFile_commit (env : Env) (w : World) (localPath requestPath : string)
    (resp : Response) (fs2 : FS) :
  temp_created env (files w) localPath requestPath resp fs2 →
  downloadFile env w localPath requestPath =
    let r := commit sha256hex env resp fs2 localPath (tempPathOf env localPath) in
    ({| files := if r.1.2 then r.1.1
                 else Remove_ r.1.1 (tempPathOf env localPath);
        requests := upstreamURLOf requestPath :: requests w |}, r.2).
Proof.
  intros (Hget & Hst & fs1 & Hmk & Hcr). unfold downloadFile.
  fold (upstreamURLOf requestPath). rewrite Hget, Hst. simpl.
  rewrite Hmk. fold (tempPathOf env localPath). rewrite Hcr.
  by destruct (commit _ _ _ _ _ _) as [[??]?].
Qed.

Lemma write_sidecar_frame (fails : bool) (written : option nat) (fs : FS)
    (side sum q : string) :
  q ≠ side → (WriteFile fails written fs side sum).1 !! q = fs !! q.
Proof.
  intros Hq. unfold WriteFile.
  destruct (fs !! side) as [[]|], fails, written; simpl;
    by rewrite ?lookup_insert_ne.
Qed.

Lemma commit_cases (env : Env) (resp : Response) (fs : FS) (localPath suffix : string) :
  let tempPath := localPath +:+ ".tmp." +:+ suffix in
  commit_result env resp fs localPath tempPath
    (commit sha256hex env resp fs localPath tempPath).
Proof.
  intros tempPath. unfold commit.
  destruct (Copy env resp) as [[data written] err] eqn:Hcopy.
  destruct err; [by eapply commit_copy_error|].
  destruct (Copy_ok _ _ _ _ Hcopy) as [-> Hw].
  assert (Hlen : (0 <? ContentLength resp)%Z
                   && negb (written =? ContentLength resp)%Z = true
                 ∨ ((0 <? ContentLength resp)%Z
                   && negb (written =? ContentLength resp)%Z = false
                    ∧ ((ContentLength resp ≤ 0)%Z ∨ written = ContentLength resp))).
  { destruct (Z.ltb_spec 0 (ContentLength resp)); simpl; [|right; split; [done|lia]].
    destruct (Z.eqb_spec written (ContentLength resp)); simpl; eauto. }
  destruct Hlen as [Hlen|[Hlen Hlen']]; rewrite Hlen.
  { apply andb_true_iff in Hlen as [Hpos Hne].
    apply Z.ltb_lt in Hpos. apply negb_true_iff, Z.eqb_neq in Hne.
    by eapply commit_length_mismatch. }
  unfold Sync. destruct (sync_fails env) eqn:Hsync; simpl.
  { by eapply commit_sync_error. }
  set (fs2 := (WriteFile _ _ _ _ _).1).
  assert (Hfs2 : ∀ q, q ≠ localPath +:+ ".sha256" →
            fs2 !! q = <[tempPath := File (Body resp)]> fs !! q).
  { intros q Hq. by apply write_sidecar_frame. }
  assert (Htmp : fs2 !! tempPath = Some (File (Body resp))).
  { rewrite Hfs2 by (symmetry; apply sidecar_ne_temp).
    by rewrite lookup_insert_eq. }
  unfold Rename. destruct (rename_fails env) eqn:Hren.
  { eapply commit_rename_error; eauto. }
  rewrite Htmp. destruct (fs2 !! localPath) as [[]|] eqn:Hlp.
  - eapply commit_success; eauto. by rewrite Hlp.
  - eapply commit_rename_error; eauto.
  - eapply commit_success; eauto. by rewrite Hlp.
Qed.

(** What a download that created its temp file does to the object
    path: the body of the response on success, nothing on an error. *)
Lemma downloadFile_after_create (env : Env) (w : World)
    (localPath requestPath : string) (resp : Response) (fs2 : FS) :
  temp_created env (files w) localPath requestPath resp fs2 →
  let w' := (downloadFile env w localPath requestPath).1 in
  let err := (downloadFile env w localPath requestPath).2 in
  (err = None → files w' !! localPath = Some (File (Body resp)))
  ∧ (∀ e, err = Some e → files w' !! localPath = fs2 !! localPath).
Proof.
  intros Hcreated. rewrite (downloadFile_commit _ _ _ _ _ _ Hcreated).
  pose proof (commit_cases env resp fs2 localPath (generateTempSuffix env)) as Hc.
  fold (tempPathOf env localPath) in Hc. simpl in Hc.
  pose proof (temp_ne_local localPath (generateTempSuffix env)) as Hne.
  fold (tempPathOf env localPath) in Hne.
  pose proof (sidecar_ne_local localPath) as Hside.
  set (tempPath := tempPathOf env localPath) in *.
  inversion Hc as [data written Hcopy Heq|written Hcopy Hpos Hlen Heq
                  |written Hcopy Hlen Hsync Heq
                  |written fs3 Hcopy Hlen Htmp Hframe Hwhy Heq
                  |written fs3 Hcopy Hlen Hframe Hdir Hren Hsync Heq]; simpl.
  - split; [done|]. intros e _.
    rewrite (Remove_file _ _ data) by by rewrite lookup_insert_eq.
    by rewrite lookup_delete_ne, lookup_insert_ne.
  - split; [done|]. intros e _.
    rewrite (Remove_file _ _ (Body resp)) by by rewrite lookup_insert_eq.
    by rewrite lookup_delete_ne, lookup_insert_ne.
  - split; [done|]. intros e _.
    rewrite (Remove_file _ _ (Body resp)) by by rewrite lookup_insert_eq.
    by rewrite lookup_delete_ne, lookup_insert_ne.
  - split; [done|]. intros e _.
    rewrite (Remove_file _ _ _ Htmp), lookup_delete_ne by done.
    rewrite Hframe by done. by rewrite lookup_insert_ne.
  - split; [|done]. intros _. by rewrite lookup_insert_eq.
Qed.

(** C7: once the temp file of a download exists, the download ends in
    one of two ways.  With an error (of the copy, the length check, the
    sync or the rename), and then the deferred function has removed the
    temp file when the error is returned; or without one, and then the
    temp file has been renamed to the object path, which holds the
    body.  Either way no temp file of the attempt is left. *)
Theorem downloadFile_leaves_no_temp (env : Env) (w : World)
    (localPath requestPath : string) (resp : Response) (fs2 : FS) :
  temp_created env (files w) localPath requestPath resp fs2 →
  let w' := (downloadFile env w localPath requestPath).1 in
  let err := (downloadFile env w localPath requestPath).2 in
  files w' !! tempPathOf env localPath = None
  ∧ (err = None → files w' !! localPath = Some (File (Body resp)))
  ∧ (∀ e, err = Some e →
       e = errDownload ∨ e = errSync ∨ e = errRename
       ∨ ∃ got, e = errIncomplete got (ContentLength resp)).
Proof.
  intros Hcreated. rewrite (downloadFile_commit _ _ _ _ _ _ Hcreated).
  pose proof (commit_cases env resp fs2 localPath (generateTempSuffix env)) as Hc.
  fold (tempPathOf env localPath) in Hc. simpl in Hc.
  pose proof (temp_ne_local localPath (generateTempSuffix env)) as Hne.
  fold (tempPathOf env localPath) in Hne.
  set (tempPath := tempPathOf env localPath) in *.
  inversion Hc as [data written Hcopy Heq|written Hcopy Hpos Hlen Heq
                  |written Hcopy Hlen Hsync Heq
                  |written fs3 Hcopy Hlen Htmp Hframe Hwhy Heq
                  |written fs3 Hcopy Hlen Hframe Hdir Hren Hsync Heq]; simpl.
  - (* the copy failed: the deferred function removes the temp file *)
    rewrite (Remove_file _ _ data) by by rewrite lookup_insert_eq.
    rewrite lookup_delete_eq. split; [done|]. split; [done|].
    intros e [= <-]. by left.
  - (* the length differs *)
    rewrite (Remove_file _ _ (Body resp)) by by rewrite lookup_insert_eq.
    rewrite lookup_delete_eq. split; [done|]. split; [done|].
    intros e [= <-]. do 3 right. by exists written.
  - (* the sync failed *)
    rewrite (Remove_file _ _ (Body resp)) by by rewrite lookup_insert_eq.
    rewrite lookup_delete_eq. split; [done|]. split; [done|].
    intros e [= <-]. by right; left.
  - (* the rename failed, the sidecar may have been written *)
    rewrite (Remove_file _ _ _ Htmp), lookup_delete_eq.
    split; [done|]. split; [done|].
    intros e [= <-]. by right; right; left.
  - (* the rename moved the temp file to the object path *)
    rewrite lookup_insert_ne, lookup_delete_eq by done.
    split; [done|]. split; [|done]. intros _. by rewrite lookup_insert_eq.
Qed.





(** *** The handler *)

Lemma downloadFile_requests (env : Env) (w : World) (localPath requestPath : string) :
  requests (downloadFile env w localPath requestPath).1
    = upstreamURLOf requestPath :: requests w.
Proof.
  unfold downloadFile. fold (upstreamURLOf requestPath).
  destruct (http_Get env _) as [resp|]; [|done].
  destruct (StatusCode resp =? StatusNotFound)%Z; [done|].
  destruct (negb _); [done|].
  destruct (MkdirAll _ _ _) as [fs1 []]; [|done].
  destruct (Create _ _ _); [|done].
  by destruct (commit _ _ _ _ _ _) as [[??]?].
Qed.

Lemma downloadFile_not_found (env : Env) (w : World) (localPath requestPath : string) :
  (downloadFile env w localPath requestPath).2 = Some errUpstreamNotFound
  ↔ upstream_not_found env requestPath.
Proof.
  unfold downloadFile, upstream_not_found. fold (upstreamURLOf requestPath).
  destruct (http_Get env _) as [resp|]; [|split; [done|by intros (? & ? & _)]].
  destruct (Z.eqb_spec (StatusCode resp) StatusNotFound) as [Hnf|Hnf].
  { split; [|done]. intros _. by exists resp. }
  split; [|intros (resp' & [= <-] & ?); done].
  destruct (StatusCode resp =? StatusOK)%Z; simpl; [|done].
  destruct (MkdirAll _ _ _) as [fs1 []]; [|done].
  destruct (Create _ _ _) as [fs2|] eqn:Hcr; [|done].
  pose proof (commit_cases env resp fs2 localPath (generateTempSuffix env)) as Hc.
  simpl in Hc. inversion Hc; done.
Qed.

(** A request whose first check answers COMPLETE. *)
Lemma proxyHandler_hit (env : Env) (w : World) (requestPath : string) :
  let localPath := Join (StorageDir config) requestPath in
  (isFileComplete (read_fault env 0) (files w) localPath).1 = true →
  proxyHandler env w requestPath = (ServeFile localPath, w).
Proof.
  intros localPath Hc. unfold proxyHandler. fold localPath.
  pose proof (isFileComplete_true _ _ _ Hc) as Hfs.
  destruct (isFileComplete _ _ _) as [c fs1]. simpl in *. subst.
  by destruct w.
Qed.

(** A request whose first check answers no: run alone, it finds the
    second check answering no as well, and downloads. *)
Lemma proxyHandler_miss (env : Env) (w : World) (requestPath : string) :
  let localPath := Join (StorageDir config) requestPath in
  let fs1 := (isFileComplete (read_fault env 0) (files w) localPath).2 in
  let d := downloadFile env {| files := fs1; requests := requests w |}
             localPath requestPath in
  let v := isFileComplete (read_fault env 2) (files d.1) localPath in
  (isFileComplete (read_fault env 0) (files w) localPath).1 = false →
  proxyHandler env w requestPath =
    match d.2 with
    | Some err =>
        if decide (err = errUpstreamNotFound)
        then (JSON StatusNotFound "File not found on upstream", d.1)
        else (JSON StatusBadGateway "Failed to fetch from upstream", d.1)
    | None =>
        (if v.1 then ServeFile localPath
         else JSON StatusInternalServerError "File verification failed",
         {| files := v.2; requests := requests d.1 |})
    end.
Proof.
  intros localPath fs1 d v Hc. unfold proxyHandler. fold localPath.
  pose proof (isFileComplete_false_again _ (read_fault env 1) _ _ Hc) as H2.
  fold fs1 in H2. unfold v, d, fs1 in *. clear v d fs1.
  destruct (isFileComplete (read_fault env 0) _ _) as [c fs1].
  simpl in *. subst c. rewrite H2.
  destruct (downloadFile _ _ _ _) as [w3 [err|]]; simpl; [done|].
  by destruct (isFileComplete (read_fault env 2) _ _) as [[] fs4].
Qed.

Lemma proxyHandler_miss_requests (env : Env) (w : World) (requestPath : string) :
  (isFileComplete (read_fault env 0) (files w)
     (Join (StorageDir config) requestPath)).1 = false →
  requests (proxyHandler env w requestPath).2
    = upstreamURLOf requestPath :: requests w.
Proof.
  intros Hc. rewrite (proxyHandler_miss _ _ _ Hc).
  pose proof (downloadFile_requests env
    {| files := (isFileComplete (read_fault env 0) (files w)
                   (Join (StorageDir config) requestPath)).2;
       requests := requests w |}
    (Join (StorageDir config) requestPath) requestPath) as Hreq.
  destruct (downloadFile _ _ _ _) as [w3 [err|]]; simpl in *.
  - by case_decide.
  - done.
Qed.

Local Ltac answers :=
  intuition (eauto; try discriminate);
  repeat match goal with
         | H : ∃ _, _ |- _ => destruct H as (? & ? & ?)
         end;
  simplify_eq; try done; eauto.

(** The handler ends in one of four calls and in no other: [c.File] on
    the local path (a hit of the first or the second check, or a
    download that the third check confirms); the JSON answer 404
    exactly when it downloads and the upstream says not found; 502
    exactly when the download fails in any other way; 500 exactly when
    the download succeeds and the check after it answers no. *)
Lemma proxyHandler_four_ways (env : Env) (w : World) (requestPath : string) :
  let localPath := Join (StorageDir config) requestPath in
  let c1 := isFileComplete (read_fault env 0) (files w) localPath in
  let c2 := isFileComplete (read_fault env 1) c1.2 localPath in
  let miss := c1.1 = false ∧ c2.1 = false in
  let d := downloadFile env {| files := c2.2; requests := requests w |}
             localPath requestPath in
  let c3 := isFileComplete (read_fault env 2) (files d.1) localPath in
  let answer := (proxyHandler env w requestPath).1 in
  (answer = ServeFile localPath
   ∨ answer = JSON 404 "File not found on upstream"
   ∨ answer = JSON 502 "Failed to fetch from upstream"
   ∨ answer = JSON 500 "File verification failed")
  ∧ (answer = ServeFile localPath ↔
       c1.1 = true ∨ c2.1 = true ∨ (miss ∧ d.2 = None ∧ c3.1 = true))
  ∧ (answer = JSON 404 "File not found on upstream" ↔
       miss ∧ upstream_not_found env requestPath)
  ∧ (answer = JSON 502 "Failed to fetch from upstream" ↔
       miss ∧ ∃ e, d.2 = Some e ∧ e ≠ errUpstreamNotFound)
  ∧ (answer = JSON 500 "File verification failed" ↔
       miss ∧ d.2 = None ∧ c3.1 = false).
Proof.
  intros localPath c1 c2 miss d c3 answer.
  destruct (c1.1) eqn:Hc1.
  - (* the first check hits *)
    unfold answer. rewrite (proxyHandler_hit _ _ _ Hc1). fold localPath.
    unfold miss. simpl. answers.
  - (* it misses, and so does the second *)
    pose proof (isFileComplete_false_again _ (read_fault env 1) _ _ Hc1) as H2.
    fold localPath in H2. fold c1 in H2. fold c2 in H2.
    assert (c2.1 = false) as Hc2 by by rewrite H2.
    assert (c2.2 = c1.2) as Hfs by by rewrite H2.
    pose proof (downloadFile_not_found env
      {| files := c2.2; requests := requests w |} localPath requestPath) as Hnf.
    fold d in Hnf.
    unfold answer. rewrite (proxyHandler_miss _ _ _ Hc1).
    fold localPath. fold c1. rewrite <- Hfs. fold d. fold c3.
    unfold miss. rewrite Hc2. clear answer miss H2 Hfs.
    destruct (d.2) as [err|] eqn:Hd.
    + case_decide as Herr; simpl.
      * subst err. destruct Hnf as [Hnf _]. specialize (Hnf eq_refl). answers.
      * assert (¬ upstream_not_found env requestPath)
          as Hcl by (intros Hcl; apply Hnf in Hcl; congruence).
        answers.
    + assert (¬ upstream_not_found env requestPath)
        as Hcl by (intros Hcl; apply Hnf in Hcl; congruence).
      simpl. destruct (c3.1) eqn:Hc3; simpl; answers.
Qed.

Lemma isFileComplete_file (rf : ReadFault) (fs : FS) (path : string) :
  (isFileComplete rf fs path).1 = true →
  ∃ data, fs !! path = Some (File data) ∧ data ≠ "".
Proof.
  intros Hc. destruct (sound_dec fs path) as [Hs|Hs].
  - apply sound_file in Hs as (data & Hd & Hne & _). by exists data.
  - by rewrite (isFileComplete_unsound _ _ _ Hs) in Hc.
Qed.

(** The file that [c.File] is called on is a regular file of the volume
    and not empty. *)
Lemma served_file (env : Env) (w : World) (requestPath : string) :
  let localPath := Join (StorageDir config) requestPath in
  let r := proxyHandler env w requestPath in
  r.1 = ServeFile localPath →
  ∃ data, files r.2 !! localPath = Some (File data) ∧ data ≠ "".
Proof.
  intros localPath r. unfold r.
  destruct (isFileComplete (read_fault env 0) (files w) localPath).1 eqn:Hc1.
  { rewrite (proxyHandler_hit _ _ _ Hc1). intros _. simpl.
    by apply (isFileComplete_file (read_fault env 0)). }
  rewrite (proxyHandler_miss _ _ _ Hc1). fold localPath.
  destruct (downloadFile _ _ _ _) as [w3 [err|]]; simpl.
  { by case_decide. }
  destruct (isFileComplete (read_fault env 2) (files w3) localPath).1 eqn:Hc3;
    simpl; [|done].
  intros _. rewrite (isFileComplete_true _ _ _ Hc3).
  by apply (isFileComplete_file (read_fault env 2)).
Qed.

(** C5, as the code and [http.ServeFile] have it.  The handler ends in
    one of four calls and in no other: [c.File] on the local path, or
    the JSON answer 404, 502 or 500, each exactly under its condition.
    The status of [c.File] is not always 200: the file is a regular
    file of the volume, and [http.ServeFile] answers 400 when the
    request path has an element [..], 301 when it ends in
    [/index.html], the status of the error when the file cannot be
    opened, and otherwise serves the file, with the status 200 unless
    the headers of the request decide on another. *)
Theorem proxyHandler_answers (env : Env) (w : World) (requestPath : string) :
  let localPath := Join (StorageDir config) requestPath in
  let c1 := isFileComplete (read_fault env 0) (files w) localPath in
  let c2 := isFileComplete (read_fault env 1) c1.2 localPath in
  let miss := c1.1 = false ∧ c2.1 = false in
  let d := downloadFile env {| files := c2.2; requests := requests w |}
             localPath requestPath in
  let c3 := isFileComplete (read_fault env 2) (files d.1) localPath in
  let answer := (proxyHandler env w requestPath).1 in
  let after := files (proxyHandler env w requestPath).2 in
  (answer = ServeFile localPath
   ∨ answer = JSON 404 "File not found on upstream"
   ∨ answer = JSON 502 "Failed to fetch from upstream"
   ∨ answer = JSON 500 "File verification failed")
  ∧ (answer = ServeFile localPath ↔
       c1.1 = true ∨ c2.1 = true ∨ (miss ∧ d.2 = None ∧ c3.1 = true))
  ∧ (answer = JSON 404 "File not found on upstream" ↔
       miss ∧ upstream_not_found env requestPath)
  ∧ (answer = JSON 502 "Failed to fetch from upstream" ↔
       miss ∧ ∃ e, d.2 = Some e ∧ e ≠ errUpstreamNotFound)
  ∧ (answer = JSON 500 "File verification failed" ↔
       miss ∧ d.2 = None ∧ c3.1 = false)
  ∧ (answer = ServeFile localPath →
       ∃ data, after !! localPath = Some (File data) ∧ data ≠ ""
         ∧ ∀ fault,
             http_ServeFile fault requestPath after localPath
             = (if containsDotDot requestPath then ServeError 400
                else if HasSuffix requestPath "/index.html"
                     then LocalRedirect "./"
                     else match fault with
                          | Some err => ServeError (toHTTPError err)
                          | None => ServeContent data
                          end)
             ∧ ∀ headers,
                 Served_status headers
                   (http_ServeFile fault requestPath after localPath)
                 = Some (if containsDotDot requestPath then 400
                         else if HasSuffix requestPath "/index.html"
                              then 301
                              else match fault with
                                   | Some err => toHTTPError err
                                   | None => default 200 headers
                                   end)).
Proof.
  intros localPath c1 c2 miss d c3 answer after.
  pose proof (proxyHandler_four_ways env w requestPath) as Hfour.
  cbv zeta in Hfour. fold localPath in Hfour.
  destruct Hfour as (H1 & H2 & H3 & H4 & H5).
  split_and!; try done.
  intros Hserve.
  destruct (served_file env w requestPath Hserve) as (data & Hdata & Hne).
  fold localPath in Hdata. fold after in Hdata.
  exists data. split; [done|]. split; [done|]. intros fault.
  unfold http_ServeFile. rewrite Hdata.
  destruct (containsDotDot requestPath); [done|].
  destruct (HasSuffix requestPath "/index.html"); [done|].
  by destruct fault.
Qed.

(** C4: on an object that is there and not empty, with no temp file of
    its pattern and a sidecar that differs from the recomputed digest,
    the check removes the object and the sidecar, touches nothing else
    and answers INCOMPLETE; the next request for the path finds no
    entry and asks the upstream. *)
Theorem corrupt_entry_is_removed
    (rf : ReadFault) (fs : FS) (path sum : string) :
  sound fs path →
  ReadFile fs (path +:+ ".sha256") = Some sum →
  calculateChecksum rf fs path ≠ sum →
  let fs' := (isFileComplete rf fs path).2 in
  (isFileComplete rf fs path).1 = false
  ∧ fs' !! path = None
  ∧ fs' !! (path +:+ ".sha256") = None
  ∧ (∀ q, q ≠ path → q ≠ path +:+ ".sha256" → fs' !! q = fs !! q)
  ∧ (∀ env w requestPath,
       Join (StorageDir config) requestPath = path →
       files w = fs' →
       requests (proxyHandler env w requestPath).2
         = upstreamURLOf requestPath :: requests w).
Proof.
  intros Hs Hside Hne fs'. unfold fs'.
  rewrite (isFileComplete_mismatch _ _ _ _ Hs Hside Hne). simpl.
  split; [done|]. split.
  { rewrite lookup_delete_ne by apply sidecar_ne_local.
    apply lookup_delete_eq. }
  split; [apply lookup_delete_eq|]. split.
  { intros q Hq Hq'. by rewrite !lookup_delete_ne. }
  intros env w requestPath Hpath Hfiles.
  apply proxyHandler_miss_requests. rewrite Hpath, Hfiles.
  rewrite isFileComplete_unsound; [done|].
  rewrite sound_file. intros (data & Hd & _).
  rewrite lookup_delete_ne in Hd by apply sidecar_ne_local.
  by rewrite lookup_delete_eq in Hd.
Qed.

(** *** An upstream that answers with an empty body *)
Lemma isFileComplete_lookup (rf : ReadFault) (fs : FS) (path q : string) :
  (isFileComplete rf fs path).2 !! q = fs !! q
  ∨ (isFileComplete rf fs path).2 !! q = None.
Proof.
  destruct (sound_dec fs path) as [Hs|Hs].
  - rewrite (isFileComplete_sound _ _ _ Hs).
    destruct (ReadFile _ _); [|by left]. case_decide; [|by left]. simpl.
    destruct (Remove_lookup (Remove_ fs path) (path +:+ ".sha256") q) as [-> | ->];
      [|by right].
    apply Remove_lookup.
  - rewrite (isFileComplete_unsound _ _ _ Hs). by left.
Qed.

Lemma local_io_ok_after_check (rf : ReadFault) (env : Env) (fs : FS)
    (localPath path : string) :
  local_io_ok env fs localPath →
  local_io_ok env (isFileComplete rf fs path).2 localPath.
Proof.
  intros (? & ? & ? & ? & Hmk & Hlp & Htmp).
  split_and!; try done.
  - rewrite mkdirs_ok in Hmk |- *. intros q data Hq.
    destruct (isFileComplete_lookup rf fs path q) as [->| ->]; [by apply Hmk|done].
  - by destruct (isFileComplete_lookup rf fs path localPath) as [->| ->].
  - by destruct (isFileComplete_lookup rf fs path (tempPathOf env localPath))
      as [->| ->].
Qed.

Lemma not_ancestor (localPath x : string) :
  localPath +:+ x ∉ ancestors (filepath_Dir localPath).
Proof.
  intros H%ancestors_Dir_shorter. rewrite length_append in H. lia.
Qed.

(** With an empty body and no failure on the volume, the download
    succeeds and publishes an empty object. *)
Lemma downloadFile_empty (env : Env) (w : World) (localPath requestPath : string) :
  empty_success env requestPath →
  local_io_ok env (files w) localPath →
  (downloadFile env w localPath requestPath).2 = None
  ∧ files (downloadFile env w localPath requestPath).1 !! localPath
      = Some (File "").
Proof.
  intros (resp & Hget & Hst & Hbody & Hberr & Hcl)
         (Hmkf & Hcrf & Hsyf & Hrnf & Hmk & Hlp & Htmp).
  set (l := ancestors (filepath_Dir localPath)) in *.
  set (fs1 := (mkdirs (files w) l).1).
  assert (Hfs1 : ∀ x, fs1 !! (localPath +:+ x) = files w !! (localPath +:+ x)).
  { intros x. destruct (mkdirs_lookup l (files w) (localPath +:+ x))
      as [?|(_ & Hin & _)]; [done|].
    by apply not_ancestor in Hin. }
  assert (Hcreated : temp_created env (files w) localPath requestPath resp
                       (<[tempPathOf env localPath := File ""]> fs1)).
  { split; [done|]. split; [done|]. exists fs1. split.
    - unfold MkdirAll. rewrite Hmkf. fold l. unfold fs1.
      destruct (mkdirs (files w) l); simpl in *. by subst.
    - unfold Create. rewrite Hcrf. unfold tempPathOf in *. rewrite Hfs1.
      by destruct (files w !! (localPath +:+ _)) as [[]|]. }
  pose proof (downloadFile_after_create _ _ _ _ _ _ Hcreated) as (Hok & _).
  simpl in Hok. rewrite Hbody in Hok.
  assert ((downloadFile env w localPath requestPath).2 = None) as Hnone;
    [|by split; [|apply Hok]].
  rewrite (downloadFile_commit _ _ _ _ _ _ Hcreated). simpl.
  pose proof (commit_cases env resp (<[tempPathOf env localPath := File ""]> fs1)
                localPath (generateTempSuffix env)) as Hc.
  fold (tempPathOf env localPath) in Hc. simpl in Hc.
  assert (Copy env resp = ("", 0%Z, false)) as Hcopy.
  { unfold Copy. rewrite Hbody, Hberr. simpl.
    destruct (write_fails_at env) as [k|]; [|done]. by destruct k. }
  inversion Hc as [data written Hcp Heq|written Hcp Hpos Hlen Heq
                  |written Hcp Hlen Hsync Heq
                  |written fs3 Hcp Hlen Htmp' Hframe Hwhy Heq
                  |written fs3 Hcp Hlen Hframe Hdir Hren Hsync Heq];
    try done; try congruence; try lia.
  exfalso. destruct Hwhy as [?|Hdir]; [congruence|].
  rewrite Hframe in Hdir by (symmetry; apply sidecar_ne_local).
  rewrite !lookup_insert_ne in Hdir by apply temp_ne_local.
  specialize (Hfs1 ""). rewrite append_nil_r in Hfs1. congruence.
Qed.

(** A download keeps a regular file at the object path, or replaces it
    by the body of the response when it succeeds. *)
Lemma downloadFile_object (env : Env) (w : World)
    (localPath requestPath data : string) :
  files w !! localPath = Some (File data) →
  let d := downloadFile env w localPath requestPath in
  (d.2 ≠ None → files d.1 !! localPath = Some (File data))
  ∧ (d.2 = None →
     ∃ resp, http_Get env (upstreamURLOf requestPath) = Some resp
       ∧ files d.1 !! localPath = Some (File (Body resp))).
Proof.
  intros Hlp d.
  destruct (http_Get env (upstreamURLOf requestPath)) as [resp|] eqn:Hget;
    [|by unfold d, downloadFile; fold (upstreamURLOf requestPath); rewrite Hget].
  destruct (decide (StatusCode resp = StatusOK)) as [Hst|Hst]; cycle 1.
  { unfold d, downloadFile. fold (upstreamURLOf requestPath). rewrite Hget.
    destruct (Z.eqb_spec (StatusCode resp) StatusNotFound); [done|].
    by destruct (Z.eqb_spec (StatusCode resp) StatusOK). }
  destruct (MkdirAll (mkdir_fails env) (files w) (filepath_Dir localPath))
    as [fs1 ok] eqn:Hmk.
  assert (fs1 !! localPath = Some (File data)) as Hfs1.
  { unfold MkdirAll in Hmk. destruct (mkdir_fails env); [by simplify_eq|].
    destruct (mkdirs_lookup (ancestors (filepath_Dir localPath)) (files w) localPath)
      as [Heq|(Hnone & _)]; [|congruence].
    rewrite Hmk in Heq. simpl in Heq. congruence. }
  destruct ok; cycle 1.
  { unfold d, downloadFile. fold (upstreamURLOf requestPath).
    rewrite Hget, Hst. simpl. by rewrite Hmk. }
  destruct (Create (create_fails env) fs1 (tempPathOf env localPath))
    as [fs2|] eqn:Hcr; cycle 1.
  { unfold d, downloadFile. fold (upstreamURLOf requestPath).
    rewrite Hget, Hst. simpl. rewrite Hmk. fold (tempPathOf env localPath).
    by rewrite Hcr. }
  assert (Hcreated : temp_created env (files w) localPath requestPath resp fs2).
  { split; [done|]. split; [done|]. by exists fs1. }
  pose proof (downloadFile_after_create _ _ _ _ _ _ Hcreated) as (Hok & Herr).
  fold d in Hok, Herr. simpl in Hok, Herr. split.
  - intros Hne. destruct (d.2) as [e|] eqn:He; [|done].
    rewrite (Herr e eq_refl).
    unfold Create in Hcr. destruct (create_fails env); [done|].
    assert (fs2 = <[tempPathOf env localPath := File ""]> fs1) as ->.
    { by destruct (fs1 !! tempPathOf env localPath) as [[]|]; simplify_eq. }
    by rewrite lookup_insert_ne by apply temp_ne_local.
  - intros Hnone. exists resp. split; [done|]. by apply Hok.
Qed.

Lemma isFileComplete_empty_file (rf : ReadFault) (fs : FS) (path : string) :
  fs !! path = Some (File "") → isFileComplete rf fs path = (false, fs).
Proof.
  intros H. apply isFileComplete_unsound. rewrite sound_file.
  intros (data & Hd & Hne & _). congruence.
Qed.

(** A request that finds an empty object, while the upstream has only
    an empty body to give: the request is no hit, it asks the upstream,
    and the empty object is still there afterwards. *)
Lemma proxyHandler_empty_object (env : Env) (w : World) (requestPath : string) :
  let localPath := Join (StorageDir config) requestPath in
  files w !! localPath = Some (File "") →
  empty_success env requestPath →
  (proxyHandler env w requestPath).1 ≠ ServeFile localPath
  ∧ files (proxyHandler env w requestPath).2 !! localPath = Some (File "")
  ∧ requests (proxyHandler env w requestPath).2
      = upstreamURLOf requestPath :: requests w.
Proof.
  intros localPath Hlp (resp & Hget & _ & Hbody & _).
  pose proof (isFileComplete_empty_file (read_fault env 0) _ _ Hlp) as Hc1.
  assert ((isFileComplete (read_fault env 0) (files w) localPath).1 = false)
    as Hmiss by by rewrite Hc1.
  split_and!; [| |by apply proxyHandler_miss_requests].
  - rewrite (proxyHandler_miss _ _ _ Hmiss). fold localPath. rewrite Hc1. simpl.
    pose proof (downloadFile_object env
      {| files := files w; requests := requests w |}
      localPath requestPath "" Hlp) as [_ Hok]. simpl in Hok.
    destruct (downloadFile _ _ _ _) as [w3 [err|]]; simpl in *.
    + by case_decide.
    + destruct (Hok eq_refl) as (resp' & Hget' & Hobj).
      assert (resp' = resp) as -> by congruence. rewrite Hbody in Hobj.
      by rewrite (isFileComplete_empty_file _ _ _ Hobj).
  - rewrite (proxyHandler_miss _ _ _ Hmiss). fold localPath. rewrite Hc1. simpl.
    pose proof (downloadFile_object env
      {| files := files w; requests := requests w |}
      localPath requestPath "" Hlp) as [Herr Hok]. simpl in Herr, Hok.
    destruct (downloadFile _ _ _ _) as [w3 [err|]]; simpl in *.
    + case_decide; simpl; by apply Herr.
    + destruct (Hok eq_refl) as (resp' & Hget' & Hobj).
      assert (resp' = resp) as -> by congruence. rewrite Hbody in Hobj.
      by rewrite (isFileComplete_empty_file _ _ _ Hobj).
Qed.

Lemma serve_empty_object (envs : list Env) (w : World) (requestPath : string) :
  let localPath := Join (StorageDir config) requestPath in
  files w !! localPath = Some (File "") →
  Forall (λ env, empty_success env requestPath) envs →
  Forall (λ answer, answer ≠ ServeFile localPath) (serve envs w requestPath).1
  ∧ requests (serve envs w requestPath).2
      = (replicate (length envs) (upstreamURLOf requestPath) ++ requests w)%list.
Proof.
  intros localPath. revert w.
  induction envs as [|env envs IH]; intros w Hlp Henvs; simpl; [done|].
  apply Forall_cons in Henvs as [Henv Henvs].
  destruct (proxyHandler_empty_object env w requestPath Hlp Henv)
    as (Hans & Hobj & Hreq).
  destruct (proxyHandler env w requestPath) as [answer w1]. simpl in *.
  destruct (IH w1 Hobj Henvs) as [Hall Hreqs].
  destruct (serve envs w1 requestPath) as [answers w2]. simpl in *.
  split; [by constructor|].
  rewrite Hreqs, Hreq.
  change (?x :: ?l) with ([x] ++ l)%list at 1.
  rewrite app_assoc. f_equal.
  change ([?x] ++ ?l)%list with (x :: l).
  by rewrite <- replicate_cons_app.
Qed.

(** C9: a request that misses the cache, gets an empty body with status
    200 from the upstream, and meets no failure on the volume: the
    download succeeds and publishes an object of zero bytes, the check
    after the download answers no, and the answer is 500.  While the
    upstream has only the empty body to give, none of the requests that
    follow is served from the cache, and each of them asks the upstream
    again. *)
Theorem empty_body_is_never_cached
    (env : Env) (later : list Env) (w : World) (requestPath : string) :
  let localPath := Join (StorageDir config) requestPath in
  let c1 := isFileComplete (read_fault env 0) (files w) localPath in
  let d := downloadFile env {| files := c1.2; requests := requests w |}
             localPath requestPath in
  let first := proxyHandler env w requestPath in
  let rest := serve later first.2 requestPath in
  c1.1 = false →
  empty_success env requestPath →
  local_io_ok env (files w) localPath →
  Forall (λ env', empty_success env' requestPath) later →
  d.2 = None
  ∧ files d.1 !! localPath = Some (File "")
  ∧ isFileComplete (read_fault env 2) (files d.1) localPath = (false, files d.1)
  ∧ first.1 = JSON 500 "File verification failed"
  ∧ requests first.2 = upstreamURLOf requestPath :: requests w
  ∧ Forall (λ answer, answer ≠ ServeFile localPath) rest.1
  ∧ requests rest.2
      = (replicate (length later) (upstreamURLOf requestPath)
           ++ requests first.2)%list.
Proof.
  intros localPath c1 d first rest Hmiss Hempty Hio Hlater.
  apply (local_io_ok_after_check (read_fault env 0) _ _ _ localPath) in Hio.
  fold c1 in Hio.
  destruct (downloadFile_empty env {| files := c1.2; requests := requests w |}
              localPath requestPath Hempty Hio) as [Hnone Hobj].
  fold d in Hnone, Hobj.
  pose proof (isFileComplete_empty_file (read_fault env 2) _ _ Hobj) as Hc3.
  assert (first = (JSON 500 "File verification failed",
                   {| files := files d.1; requests := requests d.1 |})) as Hfirst.
  { unfold first. rewrite (proxyHandler_miss _ _ _ Hmiss).
    fold localPath. fold c1. fold d. by rewrite Hnone, Hc3. }
  split_and!; try done.
  - by rewrite Hfirst.
  - by apply proxyHandler_miss_requests.
  - apply serve_empty_object; [|done]. by rewrite Hfirst.
  - apply serve_empty_object; [|done]. by rewrite Hfirst.
Qed.

End Properties.

(** ** The theorems at work on the example server *)

(** An object whose bytes no longer match its sidecar is removed with it. *)
Lemma corrupt_entry_is_removed_witness :
  let check := isFileComplete star_glob toy_hex ReadOk corrupt_volume "storage/a" in
  check.1 = false ∧ check.2 !! "storage/a" = None
  ∧ check.2 !! "storage/a.sha256" = None.
Proof.
  destruct (corrupt_entry_is_removed star_glob toy_hex default_config
              ReadOk corrupt_volume "storage/a" "sum:abc")
    as (H1 & H2 & H3 & _).
  - exists {| IsDir := false; Size := 3 |}.
    split; [reflexivity|]. split; [reflexivity|]. split; [discriminate|].
    vm_compute. reflexivity.
  - reflexivity.
  - vm_compute. discriminate.
  - split; [exact H1|]. split; [exact H2 | exact H3].
Defined.


(** The same entry, when the object cannot be opened: both files go. *)
Lemma read_failure_counts_as_corruption_witness :
  calculateChecksum toy_hex OpenFails cached_volume "storage/a" = ""
  ∧ isFileComplete star_glob toy_hex OpenFails cached_volume "storage/a"
      = (false, delete "storage/a.sha256" (delete "storage/a" cached_volume)).
Proof.
  destruct (read_failure_counts_as_corruption star_glob toy_hex
              OpenFails cached_volume "storage/a" "sum:abc")
    as (H1 & H2 & _).
  - exists {| IsDir := false; Size := 3 |}.
    split; [reflexivity|]. split; [reflexivity|]. split; [discriminate|].
    vm_compute. reflexivity.
  - reflexivity.
  - discriminate.
  - discriminate.
  - split; [exact H1 | exact H2].
Defined.

(** A download of three bytes into an empty volume: the object is there,
    the temp file is not. *)
Lemma downloadFile_leaves_no_temp_witness :
  let env := calm (always (ok_response 3 "abc")) in
  let d := downloadFile toy_hex default_config env empty_world "storage/a" "/a" in
  files d.1 !! tempPathOf env "storage/a" = None
  ∧ files d.1 !! "storage/a" = Some (File "abc").
Proof.
  intros env d.
  destruct (downloadFile_leaves_no_temp toy_hex default_config env empty_world
              "storage/a" "/a" (ok_response 3 "abc")
              (<[tempPathOf env "storage/a" := File ""]> (<["storage" := Dir]> ∅)))
    as (H1 & H2 & _).
  - split; [reflexivity|]. split; [reflexivity|].
    exists (<["storage" := Dir]> ∅). split; vm_compute; reflexivity.
  - split; [exact H1|]. apply H2. vm_compute. reflexivity.
Defined.


(** An upstream with an empty body: the answer is 500, and three requests
    in a row contact it three times. *)
Lemma empty_body_is_never_cached_witness :
  let env := calm (always (ok_response 0 "")) in
  (proxyHandler star_glob toy_hex default_config env empty_world "/a").1
    = JSON 500 "File verification failed"
  ∧ requests (serve star_glob toy_hex default_config [env; env]
                (proxyHandler star_glob toy_hex default_config env empty_world "/a").2
                "/a").2
    = [ "https://mirrors.tuna.tsinghua.edu.cn/a";
        "https://mirrors.tuna.tsinghua.edu.cn/a";
        "https://mirrors.tuna.tsinghua.edu.cn/a" ].
Proof.
  intros env.
  assert (empty_success default_config env "/a") as Hempty.
  { exists (ok_response 0 ""). split; [reflexivity|]. split; [reflexivity|].
    split; [reflexivity|]. split; [reflexivity|]. vm_compute. discriminate. }
  destruct (empty_body_is_never_cached star_glob toy_hex default_config
              env [env; env] empty_world "/a")
    as (_ & _ & _ & H1 & H2 & _ & H3).
  - vm_compute. reflexivity.
  - exact Hempty.
  - split; [reflexivity|]. split; [reflexivity|]. split; [reflexivity|].
    split; [reflexivity|]. split; [vm_compute; reflexivity|].
    split; vm_compute; discriminate.
  - constructor; [exact Hempty|]. constructor; [exact Hempty|]. constructor.
  - split; [exact H1|]. rewrite H3, H2. reflexivity.
Defined.

(** A request path of a mirror stays inside the storage directory. *)
Lemma Join_stays_inside_witness :
  inside (StorageDir default_config)
    (Join (StorageDir default_config) "/ubuntu/dists/noble/Release") = true.
Proof.
  apply (Join_stays_inside default_config); [discriminate | vm_compute; reflexivity].
Defined.

(** C2 as it is written fails: the path [/../etc/passwd] is joined to a
    local path outside the storage directory, and the handler writes the
    object and its sidecar there. *)
Lemma traversal_leaves_storage :
  let env := calm (always (ok_response 4 "root")) in
  let w := {| files := <["storage" := Dir]> ∅; requests := [] |} in
  let after := (proxyHandler star_glob toy_hex default_config env w
                  "/../etc/passwd").2 in
  Join (StorageDir default_config) "/../etc/passwd" = "etc/passwd"
  ∧ inside (StorageDir default_config)
      (Join (StorageDir default_config) "/../etc/passwd") = false
  ∧ files after !! "etc/passwd" = Some (File "root")
  ∧ files after !! "etc/passwd.sha256" = Some (File "sum:root").
Proof. vm_compute. repeat split; reflexivity. Qed.


(** C10 as it is written fails for an empty sidecar: the object cannot be
    opened, the recomputed digest is the empty string, it equals the
    sidecar, and the entry is accepted and left in place. *)
Lemma empty_sidecar_hides_read_failure :
  let fs : FS := <["storage/a" := File "abc"]>
                   (<["storage/a.sha256" := File ""]> (<["storage" := Dir]> ∅)) in
  calculateChecksum toy_hex OpenFails fs "storage/a" = ""
  ∧ ReadFile fs "storage/a.sha256" = Some ""
  ∧ isFileComplete star_glob toy_hex OpenFails fs "storage/a" = (true, fs).
Proof. vm_compute. repeat split; reflexivity. Qed.

(** C5 as it is written fails: both objects are cached and their
    requests are hits, but the answers of [c.File] are 400 and 301, not
    200. *)
Lemma served_is_not_always_200 :
  let fs : FS := <["storage/b" := File "abc"]>
                   (<["storage/index.html" := File "abc"]>
                      (<["storage" := Dir]> ∅)) in
  let w := {| files := fs; requests := [] |} in
  let env := calm (λ _, None) in
  proxyHandler star_glob toy_hex default_config env w "/a/../b"
    = (ServeFile "storage/b", w)
  ∧ Served_status None (http_ServeFile None "/a/../b" fs "storage/b")
    = Some 400
  ∧ proxyHandler star_glob toy_hex default_config env w "/index.html"
    = (ServeFile "storage/index.html", w)
  ∧ Served_status None
      (http_ServeFile None "/index.html" fs "storage/index.html")
    = Some 301.
Proof. vm_compute. repeat split; reflexivity. Qed.

(** ** The lock table *)

Module LockManagerFacts.
Import LockManager.

Lemma count_cons (P : Request → bool) (r : Request) (l : list Request) :
count P (r :: l) = ((if P r then 1 else 0) + count P l)%nat.
Proof.
unfold count. destruct (P r) eqn:Hr.
- by rewrite filter_cons_True.
- by rewrite filter_cons_False by congruence.
Qed.

Lemma count_insert (P : Request → bool) (l : list Request) (g : nat)
  (old new : Request) :
l !! g = Some old →
(count P (<[g := new]> l) + (if P old then 1 else 0)
   = count P l + (if P new then 1 else 0))%nat.
Proof.
revert g. induction l as [|r l IH]; intros g Hg; [done|].
destruct g as [|g]; simpl in *.
- simplify_eq. rewrite !count_cons. lia.
- specialize (IH g Hg). rewrite !count_cons. lia.
Qed.

Lemma count_le (P Q : Request → bool) (l : list Request) :
Forall (λ r, P r = true → Q r = true) l → (count P l ≤ count Q l)%nat.
Proof.
induction 1 as [|r l Hr _ IH]; [done|]. rewrite !count_cons.
destruct (P r); [rewrite Hr by done|destruct (Q r)]; lia.
Qed.

(** Moving a goroutine to a place where it holds the same mutexes, in a
  state with the same locked mutexes, keeps the exclusion. *)
Lemma goto_excludes (s s1 : State) (g : nat) (r : Request) (l : PC) :
mutexes_exclude s →
goroutines s !! g = Some r →
goroutines s1 = goroutines s → locked s1 = locked s →
(∀ m, holds m {| localPath := localPath r; fetch_ok := fetch_ok r; pc := l |}
        = holds m r) →
mutexes_exclude (goto s1 g r l).
Proof.
intros Hinv Hg Hgs Hlk Hsame m. unfold holders. simpl.
rewrite Hgs, Hlk, <- (Hinv m). unfold holders.
pose proof (count_insert (holds m) (goroutines s) g r
  {| localPath := localPath r; fetch_ok := fetch_ok r; pc := l |} Hg) as Hc.
rewrite Hsame in Hc. lia.
Qed.

Lemma start_excludes (path : string) (oks : list bool) :
mutexes_exclude (start path oks).
Proof.
intros m. unfold holders, start. simpl.
rewrite decide_False by apply not_elem_of_empty.
induction oks as [|ok oks IH]; [done|]. simpl. by rewrite count_cons.
Qed.

(** Each mutex does its work: whatever the schedule, a step keeps every
  mutex with at most one holder. *)
Lemma step_excludes (s s' : State) (g : nat) :
mutexes_exclude s → step s g = Some s' → mutexes_exclude s'.
Proof.
intros Hinv. unfold step.
destruct (goroutines s !! g) as [r|] eqn:Hg; [|done].
destruct r as [path ok l]. simpl.
destruct l as [| |m0|m0|m0|m0|m0|].
- case_decide; intros [= <-]; by eapply goto_excludes.
- destruct (getFileLock s path) as [m1 s1] eqn:Hget. intros [= <-].
  assert (goroutines s1 = goroutines s ∧ locked s1 = locked s) as [Hgs Hlk].
  { unfold getFileLock in Hget. by destruct (locks s !! path); simplify_eq. }
  by eapply goto_excludes.
- unfold Lock. destruct (decide (m0 ∈ locked s)) as [|Hfree]; [done|].
  intros [= <-] m. unfold holders. simpl.
  pose proof (count_insert (holds m) (goroutines s) g _
    {| localPath := path; fetch_ok := ok; pc := DoubleCheck m0 |} Hg) as Hc.
  cbn [holds pc] in Hc.
  specialize (Hinv m). unfold holders in Hinv.
  case_bool_decide; subst.
  + rewrite decide_False in Hinv by done.
    rewrite decide_True
      by (apply elem_of_union; left; by apply elem_of_singleton).
    lia.
  + destruct (decide (m ∈ locked s)) as [Hin|Hout].
    * rewrite decide_True by (apply elem_of_union; by right). lia.
    * rewrite decide_False; [lia|].
      intros [Hm%elem_of_singleton|Hm]%elem_of_union; done.
- case_decide; intros [= <-]; by eapply goto_excludes.
- intros [= <-]. by eapply goto_excludes.
- intros [= <-]. by eapply goto_excludes.
- intros [= <-] m. unfold holders. simpl.
  pose proof (count_insert (holds m) (goroutines s) g _
    {| localPath := path; fetch_ok := ok; pc := Returned |} Hg) as Hc.
  cbn [holds pc] in Hc.
  specialize (Hinv m). unfold holders in Hinv.
  case_bool_decide; subst.
  + rewrite decide_False.
    * destruct (decide (m ∈ locked s)) as [Hin|Hout]; lia.
    * intros [_ Hm]%elem_of_difference. by apply Hm, elem_of_singleton.
  + destruct (decide (m ∈ locked s)) as [Hin|Hout].
    * rewrite decide_True; [lia|].
      apply elem_of_difference. split; [done|].
      by intros Hm%elem_of_singleton.
    * rewrite decide_False; [lia|]. by intros [Hm _]%elem_of_difference.
- done.
Qed.

Lemma run_excludes (schedule : list nat) (s s' : State) :
mutexes_exclude s → run s schedule = Some s' → mutexes_exclude s'.
Proof.
revert s. induction schedule as [|g rest IH]; intros s Hinv; simpl.
{ by intros [= <-]. }
destruct (step s g) as [s1|] eqn:Hstep; [|done].
apply IH. by eapply step_excludes.
Qed.

(** No mutex ever has two holders. *)
Lemma mutex_has_one_holder (path : string) (oks : list bool)
  (schedule : list nat) (s : State) (m : nat) :
run (start path oks) schedule = Some s → (holders s m ≤ 1)%nat.
Proof.
intros Hrun.
pose proof (run_excludes _ _ _ (start_excludes path oks) Hrun m) as H.
destruct (decide (m ∈ locked s)) as [Hin|Hout]; lia.
Qed.

(** *** Downloads that succeed *)

Lemma count_zero (P : Request → bool) (l : list Request) :
count P l = 0%nat → Forall (λ r, P r = false) l.
Proof.
induction l as [|r l IH]; [done|]. rewrite count_cons.
destruct (P r) eqn:Hr; [lia|]. intros H. constructor; [done|by apply IH].
Qed.

Lemma start_fills_once (path : string) (oks : list bool) :
Forall (λ ok, ok = true) oks → fills_once path (start path oks).
Proof.
intros Hoks. split.
- apply start_excludes.
- simpl. apply Forall_fmap. eapply Forall_impl; [done|]. by intros ok ->.
- intros _. simpl. split.
  + apply Forall_fmap. by apply Forall_true.
  + clear Hoks. induction oks as [|ok oks IH]; [done|].
    simpl. by rewrite count_cons.
- simpl. intros []%not_elem_of_empty.
Qed.

(** Moving a goroutine between two places that are not in a download. *)
Lemma insert_count_fetching (G : list Request) (g : nat) (r r' : Request) :
G !! g = Some r → fetching r = fetching r' →
count fetching (<[g := r']> G) = count fetching G.
Proof.
intros Hg Hsame.
pose proof (count_insert fetching G g r r' Hg) as Hc.
rewrite <- Hsame in Hc. lia.
Qed.

(** Before the entry is complete, the requests in a download hold the
  mutex of the table, so there is at most one. *)
Lemma one_fetching (path : string) (s : State) :
mutexes_exclude s →
Forall (before_commit (locks s !! path)) (goroutines s) →
(count fetching (goroutines s) ≤ 1)%nat.
Proof.
intros Hex Hbefore.
destruct (locks s !! path) as [m0|] eqn:Hentry.
- transitivity (holders s m0).
  + apply count_le. eapply Forall_impl; [done|].
    intros [p ok l] Hb Hf. unfold before_commit, fetching, holds in *.
    simpl in *. destruct l; try done. simplify_eq. by apply bool_decide_eq_true.
  + rewrite (Hex m0). case_decide; lia.
- assert (count fetching (goroutines s) = 0%nat) as ->; [|lia].
  assert (Forall (λ r, fetching r = false) (goroutines s)) as Hnone.
  { eapply Forall_impl; [done|].
    intros [p ok l] Hb. unfold before_commit, fetching in *. simpl in *.
    by destruct l. }
  clear Hbefore. induction Hnone as [|r G Hr _ IH]; [done|].
  by rewrite count_cons, Hr.
Qed.

Lemma step_fills_once (path : string) (s s' : State) (g : nat) :
fills_once path s → step s g = Some s' → fills_once path s'.
Proof.
intros [Hex Hreq Hbefore Hafter] Hstep.
pose proof (step_excludes _ _ _ Hex Hstep) as Hex'.
unfold step in Hstep.
destruct (goroutines s !! g) as [r|] eqn:Hg; [|done].
destruct (Forall_lookup_1 _ _ _ _ Hreq Hg) as [Hpath Hok].
rewrite Hpath in Hstep.
destruct (decide (path ∈ complete s)) as [Hc|Hc].
- (* the entry is complete: nobody starts a download *)
  destruct (Hafter Hc) as [Hzero Hone].
  pose proof (count_zero _ _ Hzero) as Hnone.
  pose proof (Forall_lookup_1 _ _ _ _ Hnone Hg) as Hr.
  destruct r as [p ok l]. unfold fetching in Hr. simpl in *.
  destruct l as [| |m0|m0|m0|m0|m0|]; try done.
  + simplify_eq.
    split; [done|by apply Forall_insert|done|]. intros _. simpl.
    by rewrite (insert_count_fetching _ _ _ _ Hg).
  + destruct (getFileLock s path) as [m1 s1] eqn:Hget. simplify_eq.
    assert (goroutines s1 = goroutines s ∧ complete s1 = complete s
            ∧ contacts s1 = contacts s) as (Hgs & Hcs & Hct).
    { unfold getFileLock in Hget. by destruct (locks s !! path); simplify_eq. }
    split; [done| | |]; simpl; rewrite ?Hgs, ?Hcs, ?Hct.
    * by apply Forall_insert.
    * done.
    * intros _. by rewrite (insert_count_fetching _ _ _ _ Hg).
  + unfold Lock in Hstep. case_decide; [done|]. simplify_eq.
    split; [done|by apply Forall_insert|done|]. intros _. simpl.
    by rewrite (insert_count_fetching _ _ _ _ Hg).
  + simplify_eq.
    split; [done|by apply Forall_insert|done|]. intros _. simpl.
    by rewrite (insert_count_fetching _ _ _ _ Hg).
  + simplify_eq.
    split; [done|by apply Forall_insert|done|]. intros _. simpl.
    by rewrite (insert_count_fetching _ _ _ _ Hg).
  + simplify_eq.
    split; [done|by apply Forall_insert|done|]. intros _. simpl.
    by rewrite (insert_count_fetching _ _ _ _ Hg).
- (* the entry is not complete *)
  destruct (Hbefore Hc) as [Hb Hlen].
  pose proof (one_fetching path s Hex Hb) as Hone.
  pose proof (Forall_lookup_1 _ _ _ _ Hb Hg) as Hr.
  destruct r as [p ok l]. unfold before_commit in Hr. simpl in *.
  destruct l as [| |m0|m0|m0|m0|m0|]; try done.
  + simplify_eq.
    split; [done|by apply Forall_insert| |done]. intros _. simpl.
    split; [by apply Forall_insert|]. by rewrite (insert_count_fetching _ _ _ _ Hg).
  + unfold getFileLock in Hstep.
    destruct (locks s !! path) as [m0|] eqn:Hentry; simplify_eq.
    * split; [done|by apply Forall_insert| |done]. intros _. simpl.
      rewrite Hentry.
      split; [by apply Forall_insert|]. by rewrite (insert_count_fetching _ _ _ _ Hg).
    * split; [done|by apply Forall_insert| |done]. intros _. simpl.
      rewrite lookup_insert_eq. split.
      -- apply Forall_insert; [|done]. eapply Forall_impl; [done|].
         intros [p' ok' l'] Hb'. unfold before_commit in *. simpl in *.
         by destruct l'.
      -- by rewrite (insert_count_fetching _ _ _ _ Hg).
  + unfold Lock in Hstep. case_decide; [done|]. simplify_eq.
    split; [done|by apply Forall_insert| |done]. intros _. simpl.
    split; [by apply Forall_insert|]. by rewrite (insert_count_fetching _ _ _ _ Hg).
  + simplify_eq.
    split; [done|by apply Forall_insert| |done]. intros _. simpl.
    split; [by apply Forall_insert|].
    pose proof (count_insert fetching (goroutines s) g _
      {| localPath := path; fetch_ok := true; pc := Fetching m0 |} Hg) as Hcnt.
    cbn [fetching pc] in Hcnt. lia.
  + (* the download ends and the entry is complete *)
    simplify_eq.
    pose proof (count_insert fetching (goroutines s) g _
      {| localPath := path; fetch_ok := true; pc := Deferred m0 |} Hg) as Hcnt.
    cbn [fetching pc] in Hcnt.
    split; [done|by apply Forall_insert| |]; simpl.
    * intros Hnot. exfalso. apply Hnot, elem_of_union. left.
      by apply elem_of_singleton.
    * intros _. lia.
Qed.

Lemma run_fills_once (path : string) (schedule : list nat) (s s' : State) :
fills_once path s → run s schedule = Some s' → fills_once path s'.
Proof.
revert s. induction schedule as [|g rest IH]; intros s Hinv; simpl.
{ by intros [= <-]. }
destruct (step s g) as [s1|] eqn:Hstep; [|done].
apply IH. by eapply step_fills_once.
Qed.

(** What the flaw leaves intact: when every download succeeds, the
  upstream is contacted at most once for the path, whatever the number
  of requests and the schedule. *)
Lemma one_contact_when_downloads_succeed (path : string) (oks : list bool)
  (schedule : list nat) (s : State) :
Forall (λ ok, ok = true) oks →
run (start path oks) schedule = Some s →
(length (contacts s) ≤ 1)%nat.
Proof.
intros Hoks Hrun.
pose proof (run_fills_once _ _ _ _ (start_fills_once path oks Hoks) Hrun)
  as [Hex _ Hbefore Hafter].
destruct (decide (path ∈ complete s)) as [Hc|Hc].
- by apply Hafter.
- destruct (Hbefore Hc) as [Hb ->]. by eapply one_fetching.
Qed.

(** C1, at the input where the code breaks it: three requests for one
  path, the download of the first fails.  The first request takes the
  lock and contacts the upstream, the second waits for the same mutex,
  the third has seen no entry yet.  The first deletes the table entry
  and unlocks; the second locks the old mutex and contacts the upstream;
  the third finds no table entry, stores a new mutex, locks it and
  contacts the upstream as well.  Two requests are inside the critical
  section for the path, both in the middle of a download. *)
Theorem two_requests_fill_at_once :
let path := "storage/ubuntu.iso" in
∃ s, run (start path [false; true; true])
       [0; 0; 0; 0; 1; 1; 2; 0; 0; 0; 1; 1; 2; 2; 2]%nat = Some s
  ∧ goroutines s
      = [ {| localPath := path; fetch_ok := false; pc := Returned |};
          {| localPath := path; fetch_ok := true; pc := Fetching 0 |};
          {| localPath := path; fetch_ok := true; pc := Fetching 2 |} ]
  ∧ fillers s path = 2%nat
  ∧ contacts s = [path; path; path].
Proof. eexists. split; [vm_compute; reflexivity|]. by vm_compute. Qed.

(** Downloads that succeed hide the flaw from the upstream, not from the
  critical section: here the first download succeeds, and the second
  and the third request are in the check after the lock at once. *)
Lemma two_requests_check_at_once :
let path := "storage/ubuntu.iso" in
∃ s, run (start path [true; true; true])
       [0; 0; 0; 0; 1; 1; 2; 0; 0; 0; 1; 2; 2]%nat = Some s
  ∧ fillers s path = 2%nat ∧ contacts s = [path].
Proof. eexists. split; [vm_compute; reflexivity|]. by vm_compute. Qed.

End LockManagerFacts.

(** * More properties of the program *)

(** ** The file system, once more *)

Lemma Remove_frame (fs : FS) (path q : string) :
  q ≠ path → Remove_ fs path !! q = fs !! q.
Proof.
  intros Hq. unfold Remove_, Remove.
  destruct (fs !! path) as [[]|]; simpl; [|destruct (has_entry fs path); simpl|];
    by rewrite ?lookup_delete_ne.
Qed.

Lemma mkdirs_present (l : list string) (fs : FS) (q : string) (n : Node) :
  fs !! q = Some n → (mkdirs fs l).1 !! q = Some n.
Proof.
  intros Hq. destruct (mkdirs_lookup l fs q) as [->|(Hnone & _)]; congruence.
Qed.

Lemma mkdirs_dirs (l : list string) (fs : FS) (a : string) :
  (mkdirs fs l).2 = true → a ∈ l → (mkdirs fs l).1 !! a = Some Dir.
Proof.
  revert fs. induction l as [|d l IH]; intros fs Hok Hin.
  { by apply elem_of_nil in Hin. }
  simpl in *. destruct (fs !! d) as [[]|] eqn:Hd; [done| |].
  - apply elem_of_cons in Hin as [->|Hin]; [by apply mkdirs_present|by apply IH].
  - apply elem_of_cons in Hin as [->|Hin]; [|by apply IH].
    apply mkdirs_present, lookup_insert_eq.
Qed.

(** What a write leaves at its path depends on what was there. *)
Lemma WriteFile_at (fails : bool) (written : option nat) (fs fs' : FS)
    (path data : string) :
  fs !! path = fs' !! path →
  (WriteFile fails written fs path data).1 !! path
  = (WriteFile fails written fs' path data).1 !! path.
Proof.
  intros Heq. unfold WriteFile. rewrite <- Heq.
  destruct (fs !! path) as [[]|] eqn:Hfs, fails, written; simpl;
    by rewrite ?lookup_insert_eq, ?Hfs.
Qed.

Lemma WriteFile_ok_at (written : option nat) (fs : FS) (path data : string) :
  fs !! path ≠ Some Dir →
  (WriteFile false written fs path data).1 !! path = Some (File data).
Proof.
  intros Hdir. unfold WriteFile.
  destruct (fs !! path) as [[]|]; simpl; by rewrite ?lookup_insert_eq.
Qed.




Lemma Create_lookup (fails : bool) (fs fs' : FS) (path q : string) :
  Create fails fs path = Some fs' → q ≠ path → fs' !! q = fs !! q.
Proof.
  unfold Create. intros Hcr Hq. destruct fails; [done|].
  destruct (fs !! path) as [[]|]; simplify_eq; by rewrite lookup_insert_ne.
Qed.

Lemma local_ne_temp (path suffix : string) : path ≠ path +:+ ".tmp." +:+ suffix.
Proof. intros H. symmetry in H. by apply temp_ne_local in H. Qed.

Lemma local_ne_sidecar (path : string) : path ≠ path +:+ ".sha256".
Proof. intros H. symmetry in H. by apply sidecar_ne_local in H. Qed.

Lemma temp_ne_sidecar (path suffix : string) :
  path +:+ ".tmp." +:+ suffix ≠ path +:+ ".sha256".
Proof. intros H. symmetry in H. by apply sidecar_ne_temp in H. Qed.

(** ** Sums over the volume, and 64-bit integers *)

Lemma int64_small (z : Z) : (- 2 ^ 63 ≤ z < 2 ^ 63)%Z → int64 z = z.
Proof.
  intros Hz. unfold int64. rewrite Z.mod_small by lia. lia.
Qed.

Lemma int64_add (a b : Z) : int64 (int64 a + b) = int64 (a + b).
Proof.
  unfold int64. f_equal.
  replace ((a + 2 ^ 63) mod 2 ^ 64 - 2 ^ 63 + b + 2 ^ 63)%Z
    with ((a + 2 ^ 63) mod 2 ^ 64 + b)%Z by lia.
  rewrite Zplus_mod_idemp_l. f_equal. lia.
Qed.

Lemma tally_insert_fresh (f : string → Node → nat) (fs : FS) (k : string)
    (v : Node) :
  fs !! k = None → tally f (<[k := v]> fs) = (f k v + tally f fs)%nat.
Proof.
  intros Hk. unfold tally. by rewrite (map_to_list_insert _ _ _ Hk).
Qed.

Lemma tally_delete (f : string → Node → nat) (fs : FS) (k : string) (v : Node) :
  fs !! k = Some v → tally f fs = (f k v + tally f (delete k fs))%nat.
Proof.
  intros Hk. unfold tally. by rewrite <- (map_to_list_delete _ _ _ Hk).
Qed.

Lemma tally_mkdirs (f : string → Node → nat) (l : list string) (fs : FS) :
  (∀ k, f k Dir = 0%nat) → tally f (mkdirs fs l).1 = tally f fs.
Proof.
  intros Hdir. revert fs. induction l as [|d l IH]; intros fs; [done|].
  simpl. destruct (fs !! d) as [[]|] eqn:Hd; [done|apply IH|].
  by rewrite IH, tally_insert_fresh, Hdir.
Qed.

Section MoreProperties.

Variable Glob : FS → string → list string.
Variable sha256hex : string → string.
Variable config : Config.

Local Abbreviation calculateChecksum := (calculateChecksum sha256hex).
Local Abbreviation isFileComplete := (isFileComplete Glob sha256hex).
Local Abbreviation downloadFile := (downloadFile sha256hex config).
Local Abbreviation proxyHandler := (proxyHandler Glob sha256hex config).
Local Abbreviation serve := (serve Glob sha256hex config).
Local Abbreviation sound := (sound Glob).
Local Abbreviation upstreamURLOf := (upstreamURLOf config).
Local Abbreviation temp_created := (temp_created config).
Local Abbreviation upstream_serves := (upstream_serves config).
Local Abbreviation upstream_refuses := (upstream_refuses config).
Local Abbreviation upstream_not_found := (upstream_not_found config).
Local Abbreviation stage := (stage config).
Local Abbreviation count_files := (count_files config).
Local Abbreviation getStats := (getStats config).
Local Abbreviation stored_files := (stored_files config).
Local Abbreviation stored_bytes := (stored_bytes config).

(** *** What the check touches *)

(** X1: the completeness check changes nothing but the object and its
    sidecar, and these it can only remove: every other path is as before,
    and nothing is created or rewritten. *)
Theorem isFileComplete_frame (rf : ReadFault) (fs : FS) (path q : string) :
  let fs' := (isFileComplete rf fs path).2 in
  (q ≠ path → q ≠ path +:+ ".sha256" → fs' !! q = fs !! q)
  ∧ (fs' !! q = fs !! q ∨ fs' !! q = None).
Proof.
  intros fs'. unfold fs'. split.
  - intros Hq Hq'. destruct (sound_dec Glob sha256hex fs path) as [Hs|Hs].
    + rewrite (isFileComplete_sound _ _ _ _ _ Hs).
      destruct (ReadFile _ _); [|done]. case_decide; [|done]. simpl.
      by rewrite !Remove_frame.
    + by rewrite (isFileComplete_unsound _ _ _ _ _ Hs).
  - apply isFileComplete_lookup.
Qed.

Lemma isFileComplete_other (rf : ReadFault) (fs : FS) (path q : string) :
  q ≠ path → q ≠ path +:+ ".sha256" →
  (isFileComplete rf fs path).2 !! q = fs !! q.
Proof.
  intros Hq Hq'. destruct (sound_dec Glob sha256hex fs path) as [Hs|Hs].
  - rewrite (isFileComplete_sound _ _ _ _ _ Hs).
    destruct (ReadFile _ _); [|done]. case_decide; [|done]. simpl.
    by rewrite !Remove_frame.
  - by rewrite (isFileComplete_unsound _ _ _ _ _ Hs).
Qed.

Lemma isFileComplete_no_file (rf : ReadFault) (fs : FS) (path : string) :
  fs !! path = None ∨ fs !! path = Some Dir →
  isFileComplete rf fs path = (false, fs).
Proof.
  unfold isFileComplete, Stat. by intros [-> | ->].
Qed.

(** X2: for a request that runs alone, the check after the lock repeats
    the verdict of the check before it and changes nothing: a miss stays
    a miss whatever the second read does, and the request goes to the
    upstream. *)
Theorem second_check_agrees (env : Env) (w : World) (requestPath : string) :
  let localPath := Join (StorageDir config) requestPath in
  let c1 := isFileComplete (read_fault env 0) (files w) localPath in
  c1.1 = false →
  isFileComplete (read_fault env 1) c1.2 localPath = (false, c1.2)
  ∧ requests (proxyHandler env w requestPath).2
    = upstreamURLOf requestPath :: requests w.
Proof.
  intros localPath c1 Hmiss. split.
  - by apply isFileComplete_false_again.
  - by apply proxyHandler_miss_requests.
Qed.

(** *** The stages of a download *)

Lemma downloadFile_stage (env : Env) (w : World)
    (localPath requestPath : string) :
  stage env w localPath requestPath
    (downloadFile env w localPath requestPath).
Proof.
  destruct (http_Get env (upstreamURLOf requestPath)) as [resp|] eqn:Hget.
  2: { unfold downloadFile. fold (upstreamURLOf requestPath). rewrite Hget.
       constructor. unfold upstream_refuses.
       by rewrite Hget. }
  destruct (decide (StatusCode resp = StatusOK)) as [Hst|Hst].
  2: { unfold downloadFile. fold (upstreamURLOf requestPath). rewrite Hget.
       destruct (Z.eqb_spec (StatusCode resp) StatusNotFound);
         [|destruct (Z.eqb_spec (StatusCode resp) StatusOK); [done|]];
         simpl; constructor; unfold upstream_refuses; by rewrite Hget. }
  destruct (MkdirAll (mkdir_fails env) (files w) (filepath_Dir localPath))
    as [fs1 ok] eqn:Hmk.
  destruct ok.
  2: { unfold downloadFile. fold (upstreamURLOf requestPath).
       rewrite Hget, Hst. simpl. rewrite Hmk. by eapply stage_mkdir. }
  destruct (Create (create_fails env) fs1 (tempPathOf env localPath))
    as [fs2|] eqn:Hcr.
  2: { unfold downloadFile. fold (upstreamURLOf requestPath).
       rewrite Hget, Hst. simpl. rewrite Hmk. fold (tempPathOf env localPath).
       rewrite Hcr. by eapply stage_create. }
  assert (Hcreated : temp_created env (files w) localPath requestPath resp fs2).
  { split; [done|]. split; [done|]. by exists fs1. }
  rewrite (downloadFile_commit _ _ _ _ _ _ _ _ Hcreated). simpl.
  eapply stage_commit; [done..|].
  apply (commit_cases sha256hex env resp fs2 localPath (generateTempSuffix env)).
Qed.

Lemma MkdirAll_lookup (fails : bool) (fs : FS) (path q : string) :
  let fs1 := (MkdirAll fails fs path).1 in
  fs1 !! q = fs !! q
  ∨ (fs !! q = None ∧ q ∈ ancestors path ∧ fs1 !! q = Some Dir).
Proof.
  unfold MkdirAll. destruct fails; simpl; [by left|]. apply mkdirs_lookup.
Qed.

Lemma MkdirAll_beside (fails : bool) (fs : FS) (localPath x : string) :
  (MkdirAll fails fs (filepath_Dir localPath)).1 !! (localPath +:+ x)
  = fs !! (localPath +:+ x).
Proof.
  destruct (MkdirAll_lookup fails fs (filepath_Dir localPath) (localPath +:+ x))
    as [->|(_ & Hin & _)]; [done|].
  by apply not_ancestor in Hin.
Qed.

Lemma MkdirAll_local (fails : bool) (fs : FS) (localPath : string) :
  (MkdirAll fails fs (filepath_Dir localPath)).1 !! localPath = fs !! localPath.
Proof.
  pose proof (MkdirAll_beside fails fs localPath "") as H.
  by rewrite append_nil_r in H.
Qed.

Lemma commit_frame (env : Env) (resp : Response) (fs : FS)
    (localPath suffix q : string) (r : FS * bool * option error) :
  let tempPath := localPath +:+ ".tmp." +:+ suffix in
  commit_result env resp fs localPath tempPath r →
  q ≠ localPath → q ≠ localPath +:+ ".sha256" → q ≠ tempPath →
  (if r.1.2 then r.1.1 else Remove_ r.1.1 tempPath) !! q = fs !! q.
Proof.
  intros tempPath Hc Hq Hside Htemp.
  inversion Hc as [data written Hcopy Heq|written Hcopy Hpos Hlen Heq
                  |written Hcopy Hlen Hsync Heq
                  |written fs3 Hcopy Hlen Htmp Hframe Hwhy Heq
                  |written fs3 Hcopy Hlen Hframe Hdir Hren Hsync Heq]; simpl.
  - by rewrite Remove_frame, lookup_insert_ne.
  - by rewrite Remove_frame, lookup_insert_ne.
  - by rewrite Remove_frame, lookup_insert_ne.
  - rewrite Remove_frame, Hframe by done. by rewrite lookup_insert_ne.
  - rewrite lookup_insert_ne, lookup_delete_ne, Hframe by done.
    by rewrite lookup_insert_ne.
Qed.

Lemma downloadFile_refused (env : Env) (w : World)
    (localPath requestPath : string) :
  upstream_refuses env requestPath →
  let d := downloadFile env w localPath requestPath in
  files d.1 = files w ∧ d.2 ≠ None.
Proof.
  intros Href d. unfold upstream_refuses in Href.
  pose proof (downloadFile_stage env w localPath requestPath) as Hst.
  fold d in Hst.
  inversion Hst as [e _ Heq|resp fs1 Hget Hok _ Heq|resp fs1 Hget Hok _ _ Heq
                   |resp fs1 fs2 r (Hget & Hok & _) _ _ _ Heq];
    try (by rewrite Hget in Href).
  done.
Qed.

(** *** A download that the upstream refuses *)

(** X3: when the upstream gives no 200 (it cannot be reached, or it
    answers 404, 500 or any other status), the request is answered 404 or
    502 and leaves the volume as the first check left it: no directory,
    temp file or sidecar is made for it. *)
Theorem refused_request_leaves_volume (env : Env) (w : World)
    (requestPath : string) :
  let localPath := Join (StorageDir config) requestPath in
  let c1 := isFileComplete (read_fault env 0) (files w) localPath in
  let r := proxyHandler env w requestPath in
  c1.1 = false → upstream_refuses env requestPath →
  files r.2 = c1.2
  ∧ (r.1 = JSON StatusNotFound "File not found on upstream"
     ∨ r.1 = JSON StatusBadGateway "Failed to fetch from upstream").
Proof.
  intros localPath c1 r Hmiss Href. unfold r.
  rewrite (proxyHandler_miss _ _ _ _ _ _ Hmiss). fold localPath. fold c1.
  destruct (downloadFile_refused env {| files := c1.2; requests := requests w |}
              localPath requestPath Href) as (Hfiles & Herr).
  destruct (downloadFile env _ localPath requestPath) as [w3 [err|]];
    simpl in *; [|done].
  case_decide; auto.
Qed.

(** *** What a download touches *)

Lemma downloadFile_keeps_object (env : Env) (w : World)
    (localPath requestPath : string) :
  let d := downloadFile env w localPath requestPath in
  d.2 ≠ None → files d.1 !! localPath = files w !! localPath.
Proof.
  intros d Herr.
  pose proof (downloadFile_stage env w localPath requestPath) as Hst.
  fold d in Hst.
  inversion Hst as [e _ Heq|resp fs1 Hget Hok Hmk Heq|resp fs1 Hget Hok Hmk _ Heq
                   |resp fs1 fs2 r Hcreated Hmk Hcr _ Heq]; simpl.
  - done.
  - rewrite <- (MkdirAll_local (mkdir_fails env) (files w) localPath).
    by rewrite Hmk.
  - rewrite <- (MkdirAll_local (mkdir_fails env) (files w) localPath).
    by rewrite Hmk.
  - destruct (downloadFile_after_create sha256hex config env w localPath
                requestPath resp fs2 Hcreated) as (_ & Hkeep).
    fold d in Hkeep. rewrite <- Heq in Hkeep, Herr. simpl in Hkeep, Herr.
    destruct (r.2) as [e|]; [|done].
    rewrite (Hkeep e eq_refl).
    rewrite (Create_lookup _ _ _ _ _ Hcr) by (symmetry; apply temp_ne_local).
    rewrite <- (MkdirAll_local (mkdir_fails env) (files w) localPath).
    by rewrite Hmk.
Qed.

(** X4: a request that is answered 404 or 502 leaves the object path as
    the first check left it, at whatever stage the download failed: no
    partial object appears, and an object that the check did not remove
    is still there with its bytes. *)
Theorem failed_request_keeps_object (env : Env) (w : World)
    (requestPath : string) (status : Z) (message : string) :
  let localPath := Join (StorageDir config) requestPath in
  let c1 := isFileComplete (read_fault env 0) (files w) localPath in
  let r := proxyHandler env w requestPath in
  r.1 = JSON status message → status ≠ StatusInternalServerError →
  files r.2 !! localPath = c1.2 !! localPath.
Proof.
  intros localPath c1 r Hanswer Hstatus. unfold r in *.
  destruct (c1.1) eqn:Hc1.
  { by rewrite (proxyHandler_hit _ _ _ _ _ _ Hc1) in Hanswer. }
  rewrite (proxyHandler_miss _ _ _ _ _ _ Hc1) in Hanswer |- *.
  fold localPath c1 in Hanswer |- *.
  pose proof (downloadFile_keeps_object env
                {| files := c1.2; requests := requests w |}
                localPath requestPath) as Hkeep.
  destruct (downloadFile env _ localPath requestPath) as [w3 [err|]];
    simpl in *.
  - case_decide; simpl; by apply Hkeep.
  - destruct (isFileComplete _ _ _).1; simpl in Hanswer; [done|].
    by simplify_eq.
Qed.

(** X5: a download changes nothing on the volume but the object, its
    sidecar, its own temp file and the directories above the object:
    every other path is as before, or is one of these directories, newly
    made. *)
Theorem downloadFile_frame (env : Env) (w : World)
    (localPath requestPath q : string) :
  let d := downloadFile env w localPath requestPath in
  q ≠ localPath → q ≠ localPath +:+ ".sha256" → q ≠ tempPathOf env localPath →
  files d.1 !! q = files w !! q
  ∨ (files w !! q = None ∧ q ∈ ancestors (filepath_Dir localPath)
     ∧ files d.1 !! q = Some Dir).
Proof.
  intros d Hq Hside Htemp.
  pose proof (MkdirAll_lookup (mkdir_fails env) (files w)
                (filepath_Dir localPath) q) as Hdirs.
  pose proof (downloadFile_stage env w localPath requestPath) as Hst.
  fold d in Hst.
  inversion Hst as [e _ Heq|resp fs1 Hget Hok Hmk Heq|resp fs1 Hget Hok Hmk _ Heq
                   |resp fs1 fs2 r Hcreated Hmk Hcr Hc Heq]; simpl.
  - by left.
  - by rewrite Hmk in Hdirs.
  - by rewrite Hmk in Hdirs.
  - rewrite Hmk in Hdirs. simpl in Hdirs.
    unfold tempPathOf in *.
    rewrite (commit_frame _ _ _ _ _ _ _ Hc) by done.
    by rewrite (Create_lookup _ _ _ _ _ Hcr) by done.
Qed.

(** *** A download in which nothing fails *)

Lemma commit_to_rename (env : Env) (resp : Response) (fs : FS)
    (localPath suffix : string) :
  let tempPath := localPath +:+ ".tmp." +:+ suffix in
  let fs1 := <[tempPath := File (Body resp)]> fs in
  let fs2 := (WriteFile (checksum_write_fails env) (checksum_written env) fs1
                (localPath +:+ ".sha256") (sha256hex (Body resp))).1 in
  BodyErr resp = false → write_fails_at env = None →
  ((ContentLength resp ≤ 0)%Z
   ∨ ContentLength resp = Z.of_nat (String.length (Body resp))) →
  sync_fails env = false →
  commit sha256hex env resp fs localPath tempPath
  = if rename_fails env || is_dir fs localPath
    then (fs2, false, Some errRename)
    else (<[localPath := File (Body resp)]> (delete tempPath fs2), true, None).
Proof.
  intros tempPath fs1 fs2 Hbody Hwrite Hlen Hsync.
  unfold commit, Copy. rewrite Hwrite, Hbody.
  replace ((0 <? ContentLength resp)%Z
           && negb (Z.of_nat (String.length (Body resp)) =? ContentLength resp)%Z)
    with false; cycle 1.
  { destruct Hlen as [Hle| ->].
    - by destruct (Z.ltb_spec 0 (ContentLength resp)); [lia|].
    - by rewrite Z.eqb_refl, andb_false_r. }
  unfold Sync. rewrite Hsync. simpl. fold tempPath. fold fs1. fold fs2.
  unfold Rename. destruct (rename_fails env); [done|]. simpl.
  assert (fs2 !! tempPath = Some (File (Body resp))) as ->.
  { unfold fs2. rewrite write_sidecar_frame by apply temp_ne_sidecar.
    apply lookup_insert_eq. }
  assert (fs2 !! localPath = fs !! localPath) as ->.
  { unfold fs2. rewrite write_sidecar_frame by apply local_ne_sidecar.
    apply lookup_insert_ne, temp_ne_local. }
  unfold is_dir. by destruct (fs !! localPath) as [[]|].
Qed.

(** The world that a download leaves when it gets as far as the
    rename. *)
Lemma downloadFile_volume (env : Env) (w : World)
    (localPath requestPath body : string) :
  let fs1 := (mkdirs (files w) (ancestors (filepath_Dir localPath))).1 in
  let tempPath := tempPathOf env localPath in
  let fsT := <[tempPath := File body]> (<[tempPath := File ""]> fs1) in
  let fs2 := (WriteFile (checksum_write_fails env) (checksum_written env) fsT
                (localPath +:+ ".sha256") (sha256hex body)).1 in
  upstream_serves env requestPath body →
  reaches_rename env (files w) localPath →
  downloadFile env w localPath requestPath
  = if rename_fails env || is_dir (files w) localPath
    then ({| files := Remove_ fs2 tempPath;
             requests := upstreamURLOf requestPath :: requests w |},
          Some errRename)
    else ({| files := <[localPath := File body]> (delete tempPath fs2);
             requests := upstreamURLOf requestPath :: requests w |}, None).
Proof.
  intros fs1 tempPath fsT fs2 (resp & Hget & Hst & Hbody & Herr & Hlen)
    (Hmkdir & Hcreate & Hwrite & Hsync & Hdirs & Htemp).
  pose proof (MkdirAll_local (mkdir_fails env) (files w) localPath) as Hl1.
  pose proof (MkdirAll_beside (mkdir_fails env) (files w) localPath
                (".tmp." +:+ generateTempSuffix env)) as Ht1.
  fold (tempPathOf env localPath) in Ht1.
  assert (MkdirAll (mkdir_fails env) (files w) (filepath_Dir localPath)
          = (fs1, true)) as Hmk.
  { unfold MkdirAll, fs1. rewrite Hmkdir, <- Hdirs. by destruct (mkdirs _ _). }
  rewrite Hmk in Hl1, Ht1. simpl in Hl1, Ht1.
  assert (Create (create_fails env) fs1 tempPath
          = Some (<[tempPath := File ""]> fs1)) as Hcr.
  { unfold Create, tempPath. rewrite Hcreate, Ht1.
    by destruct (files w !! tempPathOf env localPath) as [[]|]. }
  assert (Hcreated : temp_created env (files w) localPath requestPath resp
                       (<[tempPath := File ""]> fs1)).
  { split; [done|]. split; [done|]. by exists fs1. }
  rewrite (downloadFile_commit _ _ _ _ _ _ _ _ Hcreated).
  unfold tempPath, tempPathOf in *. rewrite commit_to_rename by (by rewrite ?Hbody).
  replace (is_dir (<[localPath +:+ ".tmp." +:+ generateTempSuffix env := File ""]> fs1)
             localPath) with (is_dir (files w) localPath); cycle 1.
  { unfold is_dir. rewrite lookup_insert_ne by apply temp_ne_local.
    by rewrite Hl1. }
  rewrite Hbody.
  by destruct (rename_fails env || is_dir (files w) localPath).
Qed.

(** The object, the sidecar and the temp file after such a download:
    the sidecar is what the write leaves of the one that was there. *)
Lemma downloadFile_to_rename (env : Env) (w : World)
    (localPath requestPath body : string) :
  let d := downloadFile env w localPath requestPath in
  let side := localPath +:+ ".sha256" in
  upstream_serves env requestPath body →
  reaches_rename env (files w) localPath →
  files d.1 !! tempPathOf env localPath = None
  ∧ files d.1 !! side
    = (WriteFile (checksum_write_fails env) (checksum_written env)
         (files w) side (sha256hex body)).1 !! side
  ∧ if rename_fails env || is_dir (files w) localPath
    then d.2 = Some errRename ∧ files d.1 !! localPath = files w !! localPath
    else d.2 = None ∧ files d.1 !! localPath = Some (File body).
Proof.
  intros d side Hserves Hreach. unfold d.
  rewrite (downloadFile_volume env w localPath requestPath body Hserves Hreach).
  pose proof (MkdirAll_local false (files w) localPath) as Hl1.
  pose proof (MkdirAll_beside false (files w) localPath ".sha256") as Hs1.
  unfold MkdirAll in Hl1, Hs1. simpl in Hl1, Hs1. fold side in Hs1.
  set (fs1 := (mkdirs (files w) (ancestors (filepath_Dir localPath))).1) in *.
  unfold tempPathOf.
  set (tempPath := localPath +:+ ".tmp." +:+ generateTempSuffix env) in *.
  set (fsT := <[tempPath := File body]> (<[tempPath := File ""]> fs1)).
  fold side.
  set (fs2 := (WriteFile (checksum_write_fails env) (checksum_written env)
                 fsT side (sha256hex body)).1).
  assert (fs2 !! side
          = (WriteFile (checksum_write_fails env) (checksum_written env)
               (files w) side (sha256hex body)).1 !! side) as Hside.
  { apply WriteFile_at. unfold fsT.
    rewrite !lookup_insert_ne by apply temp_ne_sidecar. done. }
  assert (fs2 !! tempPath = Some (File body)) as Htmp.
  { unfold fs2. rewrite write_sidecar_frame by apply temp_ne_sidecar.
    apply lookup_insert_eq. }
  destruct (rename_fails env || is_dir (files w) localPath); simpl.
  - rewrite (Remove_file _ _ _ Htmp). rewrite lookup_delete_eq.
    rewrite !lookup_delete_ne by first [apply temp_ne_sidecar|apply temp_ne_local].
    split; [done|]. split; [done|]. split; [done|].
    unfold fs2. rewrite write_sidecar_frame by apply local_ne_sidecar.
    unfold fsT. rewrite !lookup_insert_ne by apply temp_ne_local. done.
  - rewrite lookup_insert_eq.
    rewrite (lookup_insert_ne _ _ tempPath) by apply local_ne_temp.
    rewrite lookup_delete_eq.
    rewrite (lookup_insert_ne _ _ side) by apply local_ne_sidecar.
    rewrite lookup_delete_ne by apply temp_ne_sidecar. done.
Qed.

Lemma local_io_reaches_rename (env : Env) (fs : FS) (localPath : string) :
  write_fails_at env = None → local_io_ok env fs localPath →
  reaches_rename env fs localPath
  ∧ rename_fails env || is_dir fs localPath = false.
Proof.
  intros Hwrite (Hmkdir & Hcreate & Hsync & Hren & Hdirs & Hlocal & Htemp).
  split; [done|]. rewrite Hren. simpl. unfold is_dir.
  by destruct (fs !! localPath) as [[]|].
Qed.

Lemma reaches_rename_after_check (rf : ReadFault) (env : Env) (fs : FS)
    (localPath : string) :
  reaches_rename env fs localPath →
  reaches_rename env (isFileComplete rf fs localPath).2 localPath.
Proof.
  intros (Hmkdir & Hcreate & Hwrite & Hsync & Hdirs & Htemp).
  split_and!; try done.
  - apply mkdirs_ok. intros q data Hq Hfile.
    destruct (isFileComplete_lookup Glob sha256hex rf fs localPath q)
      as [Heq|Heq]; rewrite Heq in Hfile; [|done].
    by eapply (proj1 (mkdirs_ok _ _) Hdirs).
  - intros Hdir.
    destruct (isFileComplete_lookup Glob sha256hex rf fs localPath
                (tempPathOf env localPath)) as [Heq|Heq];
      rewrite Heq in Hdir; done.
Qed.

(** The entry that a download has just written is checked. *)
Lemma isFileComplete_fresh (fs : FS) (path body : string) :
  fs !! path = Some (File body) → body ≠ "" →
  Glob fs (path +:+ ".tmp.*") = [] →
  isFileComplete ReadOk fs path
  = match ReadFile fs (path +:+ ".sha256") with
    | Some sum =>
        if decide (sha256hex body ≠ sum)
        then (false, delete (path +:+ ".sha256") (delete path fs))
        else (true, fs)
    | None => (true, fs)
    end.
Proof.
  intros Hobj Hbody Hglob.
  assert (sound fs path) as Hsound by (apply sound_file; eauto).
  destruct (ReadFile fs (path +:+ ".sha256")) as [sum|] eqn:Hread.
  - case_decide as Hsum.
    + apply (isFileComplete_mismatch _ _ _ _ _ sum); [done..|].
      by rewrite (calculateChecksum_ok _ _ _ _ Hobj).
    + rewrite (isFileComplete_sound _ _ _ _ _ Hsound), Hread.
      rewrite (calculateChecksum_ok _ _ _ _ Hobj). by case_decide.
  - by rewrite (isFileComplete_sound _ _ _ _ _ Hsound), Hread.
Qed.

(** *** A request that fills the cache *)

Lemma proxyHandler_downloaded (env : Env) (w : World) (requestPath : string) :
  let localPath := Join (StorageDir config) requestPath in
  let c1 := isFileComplete (read_fault env 0) (files w) localPath in
  let d := downloadFile env {| files := c1.2; requests := requests w |}
             localPath requestPath in
  let v := isFileComplete (read_fault env 2) (files d.1) localPath in
  c1.1 = false → d.2 = None →
  proxyHandler env w requestPath
  = (if v.1 then ServeFile localPath
     else JSON StatusInternalServerError "File verification failed",
     {| files := v.2; requests := upstreamURLOf requestPath :: requests w |}).
Proof.
  intros localPath c1 d v Hmiss Hok.
  rewrite (proxyHandler_miss _ _ _ _ _ _ Hmiss). fold localPath c1 d.
  rewrite Hok. fold v. unfold d. by rewrite downloadFile_requests.
Qed.

Lemma sidecar_after_check (rf : ReadFault) (fs : FS) (path : string) :
  fs !! (path +:+ ".sha256") ≠ Some Dir →
  (isFileComplete rf fs path).2 !! (path +:+ ".sha256") ≠ Some Dir.
Proof.
  intros Hside.
  by destruct (isFileComplete_lookup Glob sha256hex rf fs path
                 (path +:+ ".sha256")) as [-> | ->].
Qed.

Lemma world_eta (w : World) : {| files := files w; requests := requests w |} = w.
Proof. by destruct w. Qed.

(** What a fill in which nothing fails leaves, and the verdict of the
    check on it. *)
Lemma fill_world (env : Env) (w : World) (requestPath body : string) :
  let localPath := Join (StorageDir config) requestPath in
  let side := localPath +:+ ".sha256" in
  let c1 := isFileComplete (read_fault env 0) (files w) localPath in
  let d := downloadFile env {| files := c1.2; requests := requests w |}
             localPath requestPath in
  upstream_serves env requestPath body → body ≠ "" →
  write_fails_at env = None → checksum_write_fails env = false →
  local_io_ok env (files w) localPath → files w !! side ≠ Some Dir →
  Glob (files d.1) (localPath +:+ ".tmp.*") = [] →
  d.2 = None
  ∧ files d.1 !! localPath = Some (File body)
  ∧ files d.1 !! side = Some (File (sha256hex body))
  ∧ files d.1 !! tempPathOf env localPath = None
  ∧ isFileComplete ReadOk (files d.1) localPath = (true, files d.1).
Proof.
  intros localPath side c1 d Hserves Hbody Hwrite Hsum Hio Hside Hglob.
  apply (local_io_ok_after_check Glob sha256hex (read_fault env 0) _ _ _ localPath)
    in Hio.
  apply local_io_reaches_rename in Hio as (Hreach & Hflag); [|done].
  apply (sidecar_after_check (read_fault env 0)) in Hside.
  fold side c1 in Hside. fold c1 in Hreach, Hflag.
  destruct (downloadFile_to_rename env {| files := c1.2; requests := requests w |}
              localPath requestPath body Hserves Hreach)
    as (Htemp & Hsidecar & Hres).
  fold d side in Htemp, Hsidecar, Hres. simpl in Hsidecar, Hres.
  rewrite Hflag in Hres. destruct Hres as (Herr & Hobj).
  rewrite Hsum, WriteFile_ok_at in Hsidecar by done.
  pose proof Hsidecar as Hsidecar'.
  split_and!; try done.
  rewrite (isFileComplete_fresh _ _ body Hobj Hbody Hglob).
  unfold ReadFile. fold side. rewrite Hsidecar'. by case_decide.
Qed.

(** X6: a miss that the upstream answers with a body that is not empty,
    when nothing fails on the way and no temp file of another attempt is
    in the directory, is served from the object path; the object holds
    the body, the sidecar holds its digest, the temp file of the download
    is gone, and the upstream was asked once. *)
Theorem fill_is_served (env : Env) (w : World) (requestPath body : string) :
  let localPath := Join (StorageDir config) requestPath in
  let side := localPath +:+ ".sha256" in
  let c1 := isFileComplete (read_fault env 0) (files w) localPath in
  let d := downloadFile env {| files := c1.2; requests := requests w |}
             localPath requestPath in
  c1.1 = false → upstream_serves env requestPath body → body ≠ "" →
  write_fails_at env = None → checksum_write_fails env = false →
  local_io_ok env (files w) localPath → files w !! side ≠ Some Dir →
  read_fault env 2 = ReadOk →
  Glob (files d.1) (localPath +:+ ".tmp.*") = [] →
  proxyHandler env w requestPath = (ServeFile localPath, d.1)
  ∧ files d.1 !! localPath = Some (File body)
  ∧ files d.1 !! side = Some (File (sha256hex body))
  ∧ files d.1 !! tempPathOf env localPath = None
  ∧ requests d.1 = upstreamURLOf requestPath :: requests w.
Proof.
  intros localPath side c1 d Hmiss Hserves Hbody Hwrite Hsum Hio Hside
    Hread Hglob.
  destruct (fill_world env w requestPath body Hserves Hbody Hwrite Hsum Hio
              Hside Hglob) as (Hok & Hobj & Hsidecar & Htemp & Hcheck).
  fold localPath side c1 d in Hok, Hobj, Hsidecar, Htemp, Hcheck.
  assert (requests d.1 = upstreamURLOf requestPath :: requests w) as Hreq
    by (unfold d; by rewrite downloadFile_requests).
  split_and!; try done.
  rewrite (proxyHandler_downloaded env w requestPath Hmiss Hok).
  fold localPath c1 d. rewrite Hread, Hcheck. simpl.
  by rewrite <- Hreq, world_eta.
Qed.


(** *** The sidecar as the download leaves it *)



(** X10: a download whose rename fails is not undone as a whole.  It
    returns the error, its temp file is removed and the object path is as
    before, but the sidecar has been rewritten: it holds the digest of the
    body that was not installed. *)
Theorem failed_rename_leaves_sidecar (env : Env) (w : World)
    (localPath requestPath body : string) :
  let d := downloadFile env w localPath requestPath in
  let side := localPath +:+ ".sha256" in
  upstream_serves env requestPath body →
  reaches_rename env (files w) localPath →
  checksum_write_fails env = false → files w !! side ≠ Some Dir →
  rename_fails env = true ∨ files w !! localPath = Some Dir →
  d.2 = Some errRename
  ∧ files d.1 !! side = Some (File (sha256hex body))
  ∧ files d.1 !! localPath = files w !! localPath
  ∧ files d.1 !! tempPathOf env localPath = None.
Proof.
  intros d side Hserves Hreach Hsum Hside Hwhy.
  destruct (downloadFile_to_rename env w localPath requestPath body
              Hserves Hreach) as (Htemp & Hsidecar & Hres).
  fold d side in Htemp, Hsidecar, Hres. rewrite Hsum in Hsidecar.
  assert (rename_fails env || is_dir (files w) localPath = true) as Hflag.
  { destruct Hwhy as [-> | Hdir]; [done|].
    unfold is_dir. rewrite Hdir. apply orb_true_r. }
  rewrite Hflag in Hres. destruct Hres as (Herr & Hobj).
  split_and!; try done.
  rewrite Hsidecar. by apply WriteFile_ok_at.
Qed.

(** X11: a download that succeeds leaves every directory above the
    object in place: the object is never a file without its
    directories. *)
Theorem download_makes_directories (env : Env) (w : World)
    (localPath requestPath above : string) :
  let d := downloadFile env w localPath requestPath in
  d.2 = None → above ∈ ancestors (filepath_Dir localPath) →
  files d.1 !! above = Some Dir.
Proof.
  intros d Hok Habove.
  pose proof (ancestors_Dir_shorter localPath above Habove) as Hshort.
  pose proof (downloadFile_stage env w localPath requestPath) as Hst.
  fold d in Hst.
  inversion Hst as [e _ Heq|resp fs1 Hget Hst' Hmk Heq
                   |resp fs1 Hget Hst' Hmk _ Heq
                   |resp fs1 fs2 r Hcreated Hmk Hcr Hc Heq];
    rewrite <- Heq in Hok; simpl in Hok; try done.
  simpl. unfold tempPathOf in *.
  rewrite (commit_frame _ _ _ _ _ _ _ Hc); cycle 1.
  { intros ->. lia. }
  { intros ->. rewrite length_append in Hshort. lia. }
  { intros ->. rewrite length_append in Hshort. lia. }
  rewrite (Create_lookup _ _ _ _ _ Hcr); cycle 1.
  { intros ->. rewrite length_append in Hshort. lia. }
  unfold MkdirAll in Hmk. destruct (mkdir_fails env); [done|].
  assert (fs1 = (mkdirs (files w) (ancestors (filepath_Dir localPath))).1)
    as -> by by rewrite Hmk.
  apply mkdirs_dirs; [by rewrite Hmk|done].
Qed.

(** *** Directories and files in the way *)

Lemma downloadFile_onto_directory (env : Env) (w : World)
    (localPath requestPath : string) :
  files w !! localPath = Some Dir →
  (downloadFile env w localPath requestPath).2 ≠ None.
Proof.
  intros Hdir.
  pose proof (downloadFile_stage env w localPath requestPath) as Hst.
  inversion Hst as [e _ Heq|resp fs1 Hget Hok Hmk Heq|resp fs1 Hget Hok Hmk _ Heq
                   |resp fs1 fs2 r Hcreated Hmk Hcr Hc Heq]; simpl; try done.
  assert (fs2 !! localPath = Some Dir) as Hfs2.
  { rewrite (Create_lookup _ _ _ _ _ Hcr) by (symmetry; apply temp_ne_local).
    rewrite <- Hdir, <- (MkdirAll_local (mkdir_fails env) (files w) localPath).
    by rewrite Hmk. }
  unfold tempPathOf in Hc.
  inversion Hc as [| | | |written fs3 Hcopy Hlen Hframe Hnodir Hren Hsync Heq'];
    simpl; try done.
  rewrite Hframe in Hnodir by apply local_ne_sidecar.
  by rewrite lookup_insert_ne in Hnodir by apply temp_ne_local.
Qed.

(** X12: a local path that is a directory of the volume is never served
    and never replaced: whatever the upstream sends, the request is
    answered 404 or 502, and the directory is still there. *)
Theorem directory_is_never_served (env : Env) (w : World)
    (requestPath : string) :
  let localPath := Join (StorageDir config) requestPath in
  let r := proxyHandler env w requestPath in
  files w !! localPath = Some Dir →
  (r.1 = JSON StatusNotFound "File not found on upstream"
   ∨ r.1 = JSON StatusBadGateway "Failed to fetch from upstream")
  ∧ files r.2 !! localPath = Some Dir.
Proof.
  intros localPath r Hdir.
  assert (isFileComplete (read_fault env 0) (files w) localPath
          = (false, files w)) as Hc1
    by (apply isFileComplete_no_file; by right).
  pose proof (proxyHandler_miss Glob sha256hex config env w requestPath) as Hr.
  cbv zeta in Hr. fold localPath in Hr. rewrite Hc1 in Hr. simpl in Hr.
  rewrite world_eta in Hr. unfold r. rewrite (Hr eq_refl).
  pose proof (downloadFile_onto_directory env w localPath requestPath Hdir)
    as Herr.
  pose proof (downloadFile_keeps_object env w localPath requestPath) as Hkeep.
  simpl in Hkeep. rewrite Hdir in Hkeep.
  destruct (downloadFile env w localPath requestPath) as [w3 [err|]];
    simpl in *; [|done].
  case_decide; simpl; (split; [auto|by apply Hkeep]).
Qed.

(** X13: when a regular file is where a directory above the object
    should be, and the upstream answers 200, the request is answered 502
    before any byte is stored: nothing at the object path or beside it
    (object, sidecar, temp file) changes after the first check. *)
Theorem file_in_the_way (env : Env) (w : World)
    (requestPath above data : string) (resp : Response) :
  let localPath := Join (StorageDir config) requestPath in
  let c1 := isFileComplete (read_fault env 0) (files w) localPath in
  let r := proxyHandler env w requestPath in
  c1.1 = false →
  above ∈ ancestors (filepath_Dir localPath) →
  files w !! above = Some (File data) →
  http_Get env (upstreamURLOf requestPath) = Some resp →
  StatusCode resp = StatusOK →
  r.1 = JSON StatusBadGateway "Failed to fetch from upstream"
  ∧ ∀ x, files r.2 !! (localPath +:+ x) = c1.2 !! (localPath +:+ x).
Proof.
  intros localPath c1 r Hmiss Habove Hfile Hget Hok.
  pose proof (ancestors_Dir_shorter localPath above Habove) as Hshort.
  assert (c1.2 !! above = Some (File data)) as Hfile'.
  { unfold c1. rewrite isFileComplete_other; [done| |].
    - intros ->. lia.
    - intros ->. rewrite length_append in Hshort. lia. }
  assert ((MkdirAll (mkdir_fails env) c1.2 (filepath_Dir localPath)).2 = false)
    as Hfails.
  { unfold MkdirAll. destruct (mkdir_fails env); [done|].
    destruct (mkdirs c1.2 (ancestors (filepath_Dir localPath))).2 eqn:Hmk;
      [|done].
    by destruct (proj1 (mkdirs_ok _ _) Hmk above data). }
  unfold r. rewrite (proxyHandler_miss _ _ _ _ _ _ Hmiss). fold localPath c1.
  pose proof (downloadFile_stage env {| files := c1.2; requests := requests w |}
                localPath requestPath) as Hst.
  inversion Hst as [e Href Heq|resp' fs1 _ _ Hmk Heq|resp' fs1 _ _ Hmk _ Heq
                   |resp' fs1 fs2 r' _ Hmk _ _ Heq]; simpl in *.
  - unfold upstream_refuses in Href. by rewrite Hget in Href.
  - split; [done|]. intros x.
    rewrite <- (MkdirAll_beside (mkdir_fails env) c1.2 localPath x).
    by rewrite Hmk.
  - by rewrite Hmk in Hfails.
  - by rewrite Hmk in Hfails.
Qed.

(** *** The statistics *)

Lemma count_files_from (l : list (string * Node)) (a c : Z) :
  foldl (λ '(totalSize, fileCount) '(path, info),
           if negb (IsDir info)
           then (int64 (totalSize + Size info), int64 (fileCount + 1))
           else (totalSize, fileCount))
    (int64 a, int64 c)
    ((λ kv, (kv.1, info_of kv.2))
       <$> filter (λ kv, at_or_inside (StorageDir config) kv.1 = true) l)
  = (int64 (a + Z.of_nat
              (sum_list_with
                 (λ kv, file_weight (StorageDir config) true kv.1 kv.2) l)),
     int64 (c + Z.of_nat
              (sum_list_with
                 (λ kv, file_weight (StorageDir config) false kv.1 kv.2) l))).
Proof.
  revert a c. induction l as [|[path n] l IH]; intros a c.
  { simpl. by rewrite !Z.add_0_r. }
  rewrite filter_cons. simpl.
  destruct (decide (at_or_inside (StorageDir config) path = true)) as [Hin|Hout].
  - rewrite fmap_cons. simpl. destruct n as [data|]; simpl.
    + rewrite !int64_add, IH, Hin. f_equal; f_equal; lia.
    + by rewrite IH.
  - rewrite IH. destruct n as [data|]; simpl; [|done].
    apply not_true_is_false in Hout. by rewrite Hout.
Qed.

Lemma count_files_tally (fs : FS) :
  count_files fs
  = (int64 (Z.of_nat (stored_bytes fs)), int64 (Z.of_nat (stored_files fs))).
Proof.
  unfold count_files, Walk, stored_bytes, stored_files, tally.
  change (0, 0)%Z with (int64 0, int64 0). by rewrite count_files_from.
Qed.

(** X14: [getStats] reports every regular file at or below the storage
    directory, sidecars and temp files as well as objects, and their
    bytes in MiB rounded down, as long as the counters do not wrap; the
    limit it reports is the configured one, whatever the volume holds. *)
Theorem getStats_reports (fs : FS) :
  (Z.of_nat (stored_files fs) < 2 ^ 63)%Z →
  (Z.of_nat (stored_bytes fs) < 2 ^ 63)%Z →
  getStats fs
  = {| cached_files := Z.of_nat (stored_files fs);
       cache_size_mb := Z.of_nat (stored_bytes fs) / 2 ^ 20;
       cache_limit_mb := CacheSize config;
       storage_dir := StorageDir config;
       upstream := UpstreamURL config |}.
Proof.
  intros Hfiles Hbytes. unfold getStats. rewrite count_files_tally.
  rewrite !int64_small by lia. f_equal.
  rewrite (Z.quot_div_nonneg (Z.of_nat (stored_bytes fs))) by lia.
  rewrite Z.quot_div_nonneg; [|apply Z.div_pos; lia|lia].
  rewrite Z.div_div by lia. done.
Qed.

(** X15: a fill of a new entry below the storage directory adds two
    files to the statistics, the object and its sidecar, and the bytes
    of both; the temp file and the directories that the download made
    add nothing. *)
Theorem fill_adds_two_files (env : Env) (w : World)
    (requestPath body : string) :
  let localPath := Join (StorageDir config) requestPath in
  let side := localPath +:+ ".sha256" in
  let r := proxyHandler env w requestPath in
  files w !! localPath = None → files w !! side = None →
  files w !! tempPathOf env localPath = None →
  at_or_inside (StorageDir config) localPath = true →
  at_or_inside (StorageDir config) side = true →
  upstream_serves env requestPath body → body ≠ "" →
  write_fails_at env = None → checksum_write_fails env = false →
  local_io_ok env (files w) localPath →
  read_fault env 2 = ReadOk →
  Glob (files (downloadFile env w localPath requestPath).1)
    (localPath +:+ ".tmp.*") = [] →
  r.1 = ServeFile localPath
  ∧ stored_files (files r.2) = (stored_files (files w) + 2)%nat
  ∧ stored_bytes (files r.2)
    = (stored_bytes (files w) + String.length body
       + String.length (sha256hex body))%nat
  ∧ cached_files (getStats (files r.2))
    = int64 (cached_files (getStats (files w)) + 2).
Proof.
  intros localPath side r Hlocal Hside Htemp Hin Hin' Hserves Hbody Hwrite
    Hsum Hio Hread Hglob.
  assert (isFileComplete (read_fault env 0) (files w) localPath
          = (false, files w)) as Hc1
    by (apply isFileComplete_no_file; by left).
  apply local_io_reaches_rename in Hio as (Hreach & Hflag); [|done].
  pose proof (downloadFile_volume env w localPath requestPath body
                Hserves Hreach) as Hd.
  cbv zeta in Hd. rewrite Hflag, Hsum in Hd.
  pose proof (MkdirAll_beside false (files w) localPath) as Hbeside.
  unfold MkdirAll in Hbeside. simpl in Hbeside.
  pose proof (Hbeside "") as Hl1. rewrite append_nil_r in Hl1.
  pose proof (Hbeside ".sha256") as Hs1. fold side in Hs1.
  pose proof (Hbeside (".tmp." +:+ generateTempSuffix env)) as Ht1.
  fold (tempPathOf env localPath) in Ht1.
  set (fs1 := (mkdirs (files w) (ancestors (filepath_Dir localPath))).1) in *.
  set (tempPath := tempPathOf env localPath) in *.
  fold side in Hd.
  assert (tempPath ≠ side) as Hts by apply temp_ne_sidecar.
  assert (tempPath ≠ localPath) as Htl by apply temp_ne_local.
  assert (localPath ≠ side) as Hls by apply local_ne_sidecar.
  rewrite insert_insert_eq in Hd.
  assert ((WriteFile false (checksum_written env)
             (<[tempPath := File body]> fs1) side (sha256hex body)).1
          = <[side := File (sha256hex body)]>
              (<[tempPath := File body]> fs1)) as Hw.
  { unfold WriteFile. rewrite lookup_insert_ne by done.
    by rewrite Hs1, Hside. }
  rewrite Hw in Hd. simpl in Hd.
  set (fs4 := <[localPath := File body]>
                (delete tempPath
                   (<[side := File (sha256hex body)]>
                      (<[tempPath := File body]> fs1)))) in *.
  assert (∀ f, (∀ k, f k Dir = 0%nat) →
            tally f fs4
            = (tally f (files w) + f localPath (File body)
               + f side (File (sha256hex body)))%nat) as Htally.
  { intros f Hf. unfold fs4.
    rewrite tally_insert_fresh; cycle 1.
    { rewrite lookup_delete_ne, !lookup_insert_ne by done.
      by rewrite Hl1, Hlocal. }
    rewrite delete_insert_ne by done.
    rewrite delete_insert_eq.
    rewrite tally_insert_fresh; cycle 1.
    { rewrite lookup_delete_ne by done. by rewrite Hs1, Hside. }
    rewrite delete_id by (by rewrite Ht1, Htemp).
    unfold fs1. rewrite tally_mkdirs by done. lia. }
  assert (proxyHandler env w requestPath
          = (ServeFile localPath,
             {| files := fs4;
                requests := upstreamURLOf requestPath :: requests w |}))
    as Hr.
  { pose proof (proxyHandler_downloaded env w requestPath) as Hp.
    cbv zeta in Hp. fold localPath in Hp. rewrite Hc1 in Hp. simpl in Hp.
    rewrite world_eta in Hp. rewrite Hd in Hp, Hglob. simpl in Hp, Hglob.
    rewrite (Hp eq_refl eq_refl), Hread.
    rewrite (isFileComplete_fresh _ _ body); [|by apply lookup_insert_eq|done..].
    unfold ReadFile. fold side. unfold fs4.
    rewrite lookup_insert_ne, lookup_delete_ne, lookup_insert_eq by done.
    by case_decide. }
  unfold r. rewrite Hr. simpl.
  assert (stored_files fs4 = (stored_files (files w) + 2)%nat) as Hfiles.
  { unfold stored_files. rewrite Htally by done. simpl.
    rewrite Hin, Hin'. lia. }
  split_and!; [done|done| |].
  - unfold stored_bytes. rewrite Htally by done. simpl.
    rewrite Hin, Hin'. lia.
  - unfold getStats. rewrite !count_files_tally. simpl.
    rewrite Hfiles, int64_add. f_equal. lia.
Qed.

End MoreProperties.

(** ** The names of temp files *)

Lemma no_sep_app (a b : string) :
  no_sep (a +:+ b) = no_sep a && no_sep b.
Proof.
  induction a as [|c a IH]; [done|]. rewrite append_cons. simpl.
  by rewrite IH, andb_assoc.
Qed.

Lemma string_of_uint_plain (d : Decimal.uint) :
  no_sep (NilEmpty.string_of_uint d) = true
  ∧ no_dot (NilEmpty.string_of_uint d) = true.
Proof.
  induction d as [|d [IH1 IH2]|d [IH1 IH2]|d [IH1 IH2]|d [IH1 IH2]|d [IH1 IH2]
                 |d [IH1 IH2]|d [IH1 IH2]|d [IH1 IH2]|d [IH1 IH2]|d [IH1 IH2]];
    simpl; by rewrite ?IH1, ?IH2.
Qed.

Lemma fmt_d_plain (n : Z) : no_sep (fmt_d n) = true ∧ no_dot (fmt_d n) = true.
Proof.
  unfold fmt_d, NilZero.string_of_int, NilZero.string_of_uint.
  destruct (Z.to_int n) as [d|d]; destruct d; simpl;
    try done;
    match goal with
    | |- context [NilEmpty.string_of_uint ?d] =>
        by destruct (string_of_uint_plain d) as [-> ->]
    end.
Qed.

Lemma to_int_not_nil (n : Z) :
  Z.to_int n ≠ Decimal.Pos Decimal.Nil ∧ Z.to_int n ≠ Decimal.Neg Decimal.Nil.
Proof.
  destruct n as [|p|p]; simpl; split; try done; intros [= H];
    by apply DecimalPos.Unsigned.to_uint_nonnil in H.
Qed.

Lemma fmt_d_inj (a b : Z) : fmt_d a = fmt_d b → a = b.
Proof.
  unfold fmt_d. intros H. apply DecimalZ.to_int_inj.
  destruct (to_int_not_nil a) as [Ha1 Ha2], (to_int_not_nil b) as [Hb1 Hb2].
  pose proof (NilZero.isi _ Ha1 Ha2) as Hia.
  pose proof (NilZero.isi _ Hb1 Hb2) as Hib.
  rewrite H in Hia. congruence.
Qed.

Lemma dir_prefix_no_sep (s : string) : no_sep s = true → dir_prefix s = "".
Proof.
  induction s as [|c s IH]; [done|]. simpl.
  intros [Hc Hs]%andb_true_iff. rewrite (IH Hs).
  apply negb_true_iff, bool_decide_eq_false in Hc. by rewrite !decide_False by done.
Qed.

Lemma dir_prefix_app (path s : string) :
  no_sep s = true → dir_prefix (path +:+ s) = dir_prefix path.
Proof.
  intros Hs. induction path as [|c path IH].
  - by apply dir_prefix_no_sep.
  - rewrite append_cons. simpl. by rewrite IH.
Qed.

Lemma dotted_inj (a a' b b' : string) :
  no_dot a = true → no_dot a' = true →
  a +:+ "." +:+ b = a' +:+ "." +:+ b' → a = a' ∧ b = b'.
Proof.
  revert a'. induction a as [|c a IH]; intros [|c' a'] Ha Ha' Heq.
  - by simplify_eq.
  - rewrite append_cons in Heq. simpl in Ha'. by simplify_eq.
  - rewrite append_cons in Heq.
    change ("" +:+ "." +:+ b') with (String "."%char b') in Heq.
    injection Heq as -> _. simpl in Ha. by simplify_eq.
  - rewrite !append_cons in Heq. simpl in Ha, Ha'.
    apply andb_true_iff in Ha as [_ Ha]. apply andb_true_iff in Ha' as [_ Ha'].
    injection Heq as -> Heq. by destruct (IH a' Ha Ha' Heq) as [-> ->].
Qed.

(** X16: the temp file of a download lies in the directory of its object,
    the one that the download has made sure of, whatever the process and
    the clock: its suffix has no separator. *)
Theorem temp_file_beside_object (env : Env) (localPath : string) :
  filepath_Dir (tempPathOf env localPath) = filepath_Dir localPath
  ∧ no_sep (generateTempSuffix env) = true.
Proof.
  assert (no_sep (generateTempSuffix env) = true) as Hsuffix.
  { unfold generateTempSuffix. rewrite !no_sep_app.
    destruct (fmt_d_plain (Getpid env)) as [-> _].
    by destruct (fmt_d_plain (UnixNano env)) as [-> _]. }
  split; [|done]. unfold filepath_Dir, tempPathOf.
  rewrite dir_prefix_app; [done|]. by rewrite no_sep_app, Hsuffix.
Qed.

(** X17: two downloads of one path write to the same temp file exactly
    when they run in the same process at the same nanosecond of its
    clock; the process id and the time can be read back from the name. *)
Theorem temp_files_differ (env env' : Env) (localPath : string) :
  tempPathOf env localPath = tempPathOf env' localPath
  ↔ Getpid env = Getpid env' ∧ UnixNano env = UnixNano env'.
Proof.
  unfold tempPathOf, generateTempSuffix. split.
  - intros Heq. apply (inj (String.append localPath)) in Heq.
    apply (inj (String.append ".tmp.")) in Heq.
    apply dotted_inj in Heq as [Hpid Hnano]; try apply fmt_d_plain.
    split; by apply fmt_d_inj.
  - by intros [-> ->].
Qed.

(** ** Request paths that share an entry *)

Lemma clean_from_steps (rooted : bool) (l : list string) (out : Out) :
  clean_from rooted out (filter (λ e, e ≠ "" ∧ e ≠ ".") l)
  = clean_from rooted out l.
Proof.
  revert out. induction l as [|e l IH]; intros out; [done|].
  rewrite filter_cons. unfold clean_from in *. case_decide as He; simpl.
  - apply IH.
  - rewrite IH. f_equal. unfold clean_step.
    destruct (decide (e = "")); [done|]. destruct (decide (e = ".")); [done|].
    by destruct He.
Qed.

Lemma append_eq_nil (a b : string) : a +:+ b = "" → a = "".
Proof. by destruct a. Qed.

Lemma Clean_below (dir path : string) :
  dir ≠ "" →
  Clean (dir +:+ "/" +:+ path)
  = render (is_rooted dir)
      (clean_from (is_rooted dir)
         (clean_from (is_rooted dir) {| dotdots := 0; elems := [] |} (split dir))
         (steps_of path)).
Proof.
  intros Hdir. unfold Clean, steps_of.
  destruct (decide (dir +:+ "/" +:+ path = "")) as [H%append_eq_nil|_]; [done|].
  by rewrite is_rooted_app, split_app_sep, clean_from_app, clean_from_steps.
Qed.

(** X18: the local path of a request is found from the elements of the
    request path that are neither empty nor [.]: two request paths with
    the same such elements share one cache entry, although the upstream is
    asked for each under its own URL. *)
Theorem request_paths_share_entry (config : Config) (path path' : string) :
  StorageDir config ≠ "" → steps_of path = steps_of path' →
  Join (StorageDir config) path = Join (StorageDir config) path'
  ∧ (path ≠ path' → upstreamURLOf config path ≠ upstreamURLOf config path').
Proof.
  intros Hdir Hsteps. split.
  - unfold Join. destruct (decide (StorageDir config = "")); [done|].
    rewrite (Clean_below _ path), (Clean_below _ path') by done.
    by rewrite Hsteps.
  - intros Hne Heq. apply Hne. unfold upstreamURLOf in Heq.
    by apply (inj (String.append (UpstreamURL config))) in Heq.
Qed.

(** ** Objects whose names are the names of sidecars *)

Lemma split_suffix (s : string) :
  ∃ l e, split s = (l ++ [e])%list
    ∧ ∀ x, no_sep x = true → split (s +:+ x) = (l ++ [e +:+ x])%list.
Proof.
  induction s as [|c s (l & e & Hs & Hx)].
  - exists [], "". split; [done|]. intros x Hno. by apply split_one.
  - destruct (decide (c = Separator)) as [Hc|Hc].
    + exists ("" :: l), e. split.
      * simpl. by rewrite decide_True, Hs by done.
      * intros x Hno. rewrite append_cons. simpl.
        by rewrite decide_True, Hx by done.
    + destruct l as [|a l].
      * exists [], (String c e). split.
        -- simpl. by rewrite decide_False, Hs by done.
        -- intros x Hno. rewrite append_cons. simpl.
           by rewrite decide_False, Hx by done.
      * exists (String c a :: l), e. split.
        -- simpl. by rewrite decide_False, Hs by done.
        -- intros x Hno. rewrite append_cons. simpl.
           by rewrite decide_False, Hx by done.
Qed.

Lemma append_assoc (a b c : string) : (a +:+ b) +:+ c = a +:+ b +:+ c.
Proof.
  induction a as [|x a IH]; [done|]. by rewrite !append_cons, IH.
Qed.

Lemma join_sep_suffix (l : list string) (e x : string) :
  join_sep (l ++ [e +:+ x]) = join_sep (l ++ [e]) +:+ x.
Proof.
  induction l as [|a l IH]; [done|].
  destruct l as [|b l].
  - simpl. by rewrite !append_assoc.
  - change (join_sep ((a :: b :: l) ++ [e +:+ x]))
      with (a +:+ "/" +:+ join_sep ((b :: l) ++ [e +:+ x])).
    change (join_sep ((a :: b :: l) ++ [e]))
      with (a +:+ "/" +:+ join_sep ((b :: l) ++ [e])).
    by rewrite IH, !append_assoc.
Qed.

Lemma join_sep_last (l : list string) (e : string) :
  e ≠ "" → join_sep (l ++ [e]) ≠ "".
Proof.
  intros He. destruct l as [|a [|b l]]; simpl; [done| |];
    destruct a; done.
Qed.

Lemma suffixed_name (e x : string) :
  e ≠ "" → e ≠ "." → e ≠ ".." →
  e +:+ x ≠ "" ∧ e +:+ x ≠ "." ∧ e +:+ x ≠ "..".
Proof.
  intros H1 H2 H3. destruct e as [|c [|c' [|c'' e]]]; [done| | |].
  - destruct x as [|d [|d' x]]; [by rewrite append_nil_r| |]; split_and!;
      try done; intros [= -> ->]; done.
  - destruct x as [|d x]; [by rewrite append_nil_r|]. by split_and!.
  - by split_and!.
Qed.

Lemma clean_step_name (rooted : bool) (out : Out) (e : string) :
  e ≠ "" → e ≠ "." → e ≠ ".." →
  clean_step rooted out e = {| dotdots := dotdots out; elems := e :: elems out |}.
Proof.
  intros H1 H2 H3. unfold clean_step. by rewrite !decide_False by done.
Qed.

Lemma render_suffix (rooted : bool) (k : nat) (es : list string) (e x : string) :
  e ≠ "" →
  render rooted {| dotdots := k; elems := (e +:+ x) :: es |}
  = render rooted {| dotdots := k; elems := e :: es |} +:+ x.
Proof.
  intros He. unfold render, out_elems. simpl.
  rewrite !(assoc_L (++)), join_sep_suffix.
  destruct rooted; [by rewrite append_assoc|].
  pose proof (join_sep_last (replicate k ".." ++ rev es) e He) as Hne.
  rewrite (decide_False (P := join_sep _ = "")) by done.
  rewrite decide_False; [done|]. intros H%append_eq_nil. done.
Qed.

(** A suffix without separator on a path that ends in a name goes
    through [filepath.Clean]. *)
Lemma Clean_suffix (path e x : string) :
  path ≠ "" → last (split path) = Some e →
  e ≠ "" → e ≠ "." → e ≠ ".." → no_sep x = true →
  Clean (path +:+ x) = Clean path +:+ x.
Proof.
  intros Hpath Hlast H1 H2 H3 Hx. unfold Clean.
  destruct (decide (path = "")) as [|_]; [done|].
  destruct (decide (path +:+ x = "")) as [H%append_eq_nil|_]; [done|].
  rewrite is_rooted_app by done.
  destruct (split_suffix path) as (l & e' & Hs & Hsx).
  rewrite Hs, last_snoc in Hlast. simplify_eq.
  rewrite Hs, (Hsx x Hx), !clean_from_app. simpl.
  destruct (suffixed_name e x H1 H2 H3) as (H1' & H2' & H3').
  rewrite !clean_step_name by done. by apply render_suffix.
Qed.

Lemma Join_suffix (dir requestPath e x : string) :
  dir ≠ "" → last (split requestPath) = Some e →
  e ≠ "" → e ≠ "." → e ≠ ".." → no_sep x = true →
  Join dir (requestPath +:+ x) = Join dir requestPath +:+ x.
Proof.
  intros Hdir Hlast H1 H2 H3 Hx. unfold Join. rewrite !decide_False by done.
  rewrite <- !append_assoc.
  apply (Clean_suffix _ e); try done.
  - rewrite append_assoc. by intros H%append_eq_nil.
  - rewrite append_assoc, split_app_sep, last_app, Hlast. done.
Qed.

Section Sidecars.

Variable Glob : FS → string → list string.
Variable sha256hex : string → string.
Variable config : Config.

(** X19: objects and sidecars share their names.  The local path of the
    request path with [.sha256] added is the sidecar path of the
    request path; when a sidecar is there, and none of its own, the
    request is a hit and is served the sidecar, whatever the upstream
    has under that name. *)
Theorem sidecar_is_served_as_object (env : Env) (w : World)
    (requestPath e sum : string) :
  let side := Join (StorageDir config) requestPath +:+ ".sha256" in
  StorageDir config ≠ "" →
  last (split requestPath) = Some e → e ≠ "" → e ≠ "." → e ≠ ".." →
  files w !! side = Some (File sum) → sum ≠ "" →
  files w !! (side +:+ ".sha256") = None →
  Glob (files w) (side +:+ ".tmp.*") = [] →
  Join (StorageDir config) (requestPath +:+ ".sha256") = side
  ∧ proxyHandler Glob sha256hex config env w (requestPath +:+ ".sha256")
    = (ServeFile side, w).
Proof.
  intros side Hdir Hlast H1 H2 H3 Hside Hsum Hnone Hglob.
  assert (Join (StorageDir config) (requestPath +:+ ".sha256") = side) as Hjoin
    by by apply (Join_suffix _ _ e).
  split; [done|].
  rewrite <- Hjoin. apply proxyHandler_hit. rewrite Hjoin.
  rewrite isFileComplete_sound by (apply sound_file; eauto).
  unfold ReadFile. by rewrite Hnone.
Qed.

End Sidecars.

(** ** The lock table: requests return, and the table drains *)

Module LockManagerProgress.
Import LockManager LockManagerFacts.

Lemma arrive_excludes (entries : gset string) (reqs : list (string * bool)) :
  mutexes_exclude (arrive entries reqs).
Proof.
  intros m. unfold holders, arrive. simpl.
  rewrite decide_False by apply not_elem_of_empty.
  induction reqs as [|req reqs IH]; [done|]. simpl. by rewrite count_cons.
Qed.

Lemma arrive_work (entries : gset string) (reqs : list (string * bool)) :
  work (arrive entries reqs) = (7 * length reqs)%nat.
Proof.
  unfold work, arrive. simpl.
  induction reqs as [|req reqs IH]; [done|].
  rewrite fmap_cons. cbn [sum_list_with length]. rewrite IH.
  unfold steps_left. simpl. lia.
Qed.

Lemma steps_left_insert (l : list Request) (g : nat) (old new : Request) :
  l !! g = Some old →
  (sum_list_with steps_left (<[g := new]> l) + steps_left old
   = sum_list_with steps_left l + steps_left new)%nat.
Proof.
  revert g. induction l as [|r l IH]; intros g Hg; [done|].
  destruct g as [|g]; simpl in *.
  - simplify_eq. lia.
  - specialize (IH g Hg). lia.
Qed.

(** What a step does to the goroutines: the one that moves goes to a
    place from which it has fewer steps left. *)
Lemma step_moves (s s' : State) (g : nat) :
  step s g = Some s' →
  ∃ r l,
    let r' := {| localPath := localPath r; fetch_ok := fetch_ok r; pc := l |} in
    goroutines s !! g = Some r
    ∧ goroutines s' = <[g := r']> (goroutines s)
    ∧ (steps_left r' < steps_left r)%nat.
Proof.
  unfold step. destruct (goroutines s !! g) as [r|] eqn:Hg; [|done].
  destruct r as [path ok l]. simpl.
  destruct l as [| |m0|m0|m0|m0|m0|].
  - case_decide; intros [= <-]; eexists _, _; (split; [done|]);
      (split; [done|]); unfold steps_left; simpl; lia.
  - unfold getFileLock. destruct (locks s !! path); intros [= <-];
      eexists _, _; (split; [done|]); (split; [done|]);
      unfold steps_left; simpl; lia.
  - unfold Lock. case_decide; [done|]. intros [= <-].
    eexists _, _. split; [done|]. split; [done|]. unfold steps_left; simpl; lia.
  - case_decide; intros [= <-]; eexists _, _; (split; [done|]);
      (split; [done|]); unfold steps_left; simpl; lia.
  - intros [= <-]. eexists _, _. split; [done|]. split; [done|].
    unfold steps_left; simpl; lia.
  - intros [= <-]. eexists _, _. split; [done|]. split; [done|].
    unfold steps_left; simpl; lia.
  - intros [= <-]. eexists _, _. split; [done|]. split; [done|].
    unfold steps_left; simpl; lia.
  - done.
Qed.

Lemma step_work (s s' : State) (g : nat) :
  step s g = Some s' → (work s' < work s)%nat.
Proof.
  intros (r & l & Hg & Hgs & Hless)%step_moves. unfold work. rewrite Hgs.
  pose proof (steps_left_insert _ _ _
    {| localPath := localPath r; fetch_ok := fetch_ok r; pc := l |} Hg).
  simpl in *. lia.
Qed.

Lemma run_work (schedule : list nat) (s s' : State) :
  run s schedule = Some s' → (length schedule + work s' ≤ work s)%nat.
Proof.
  revert s. induction schedule as [|g rest IH]; intros s; simpl.
  { intros [= <-]. lia. }
  destruct (step s g) as [s1|] eqn:Hstep; [|done].
  intros Hrun%IH. apply step_work in Hstep. lia.
Qed.

(** X20: every run of the server is short: however the requests are
    scheduled, each of them takes at most seven steps, so no request
    spins, and a run of [n] requests has at most [7 n] steps. *)
Theorem runs_are_bounded (entries : gset string) (reqs : list (string * bool))
    (schedule : list nat) (s : State) :
  run (arrive entries reqs) schedule = Some s →
  (length schedule + work s ≤ 7 * length reqs)%nat.
Proof.
  intros Hrun%run_work. by rewrite arrive_work in Hrun.
Qed.

Lemma count_pos (P : Request → bool) (l : list Request) :
  (0 < count P l)%nat → ∃ g r, l !! g = Some r ∧ P r = true.
Proof.
  induction l as [|r l IH]; [unfold count; simpl; lia|].
  rewrite count_cons. destruct (P r) eqn:Hr.
  - intros _. by exists 0%nat, r.
  - intros (g & r' & Hg & Hr')%IH. by exists (S g), r'.
Qed.

(** A request that is not waiting for a mutex can move. *)
Lemma step_unless_waiting (s : State) (g : nat) (r : Request) :
  goroutines s !! g = Some r → returned r = false →
  (∀ m, pc r = AtLock m → m ∉ locked s) →
  is_Some (step s g).
Proof.
  intros Hg Hret Hfree. unfold step. rewrite Hg.
  destruct r as [path ok l]. unfold returned in Hret. simpl in *.
  destruct l as [| |m0|m0|m0|m0|m0|]; try done.
  - by case_decide.
  - by destruct (getFileLock s path).
  - unfold Lock. by rewrite decide_False by by apply Hfree.
  - by case_decide.
Qed.

(** Where each mutex has its one holder, a request that waits for a
    mutex waits for a holder that can move. *)
Lemma can_step (s : State) (g : nat) (r : Request) :
  mutexes_exclude s →
  goroutines s !! g = Some r → returned r = false →
  ∃ g' s', step s g' = Some s'.
Proof.
  intros Hinv Hg Hret.
  destruct (pc r) as [| |m| | | | |] eqn:Hpc;
    try (destruct (step_unless_waiting s g r Hg Hret) as [s' Hs'];
         [intros m'; by rewrite Hpc|by exists g, s']).
  destruct (decide (m ∈ locked s)) as [Hheld|Hfree].
  - specialize (Hinv m). rewrite decide_True in Hinv by done.
    destruct (count_pos (holds m) (goroutines s)) as (g' & r' & Hg' & Hholds).
    { unfold holders in Hinv. lia. }
    destruct (step_unless_waiting s g' r' Hg') as [s' Hs'].
    + unfold holds in Hholds. unfold returned. by destruct (pc r').
    + intros m' Hpc'. unfold holds in Hholds. by rewrite Hpc' in Hholds.
    + by exists g', s'.
  - destruct (step_unless_waiting s g r Hg Hret) as [s' Hs'].
    + intros m'. rewrite Hpc. by intros [= <-].
    + by exists g, s'.
Qed.

Lemma all_returned_or_not (l : list Request) :
  Forall (λ r, returned r = true) l
  ∨ ∃ g r, l !! g = Some r ∧ returned r = false.
Proof.
  induction l as [|r l [IH|(g & r' & Hg & Hr')]].
  - by left.
  - destruct (returned r) eqn:Hr.
    + left. by constructor.
    + right. by exists 0%nat, r.
  - right. by exists (S g), r'.
Qed.

Lemma can_finish (n : nat) (s : State) :
  (work s ≤ n)%nat → mutexes_exclude s →
  ∃ rest s', run s rest = Some s'
    ∧ Forall (λ r, returned r = true) (goroutines s').
Proof.
  revert s. induction n as [|n IH]; intros s Hwork Hinv.
  - destruct (all_returned_or_not (goroutines s)) as [Hall|(g & r & Hg & Hr)];
      [by exists [], s|].
    destruct (can_step s g r Hinv Hg Hr) as (g' & s1 & Hstep).
    apply step_work in Hstep. lia.
  - destruct (all_returned_or_not (goroutines s)) as [Hall|(g & r & Hg & Hr)];
      [by exists [], s|].
    destruct (can_step s g r Hinv Hg Hr) as (g' & s1 & Hstep).
    pose proof (step_work _ _ _ Hstep) as Hless.
    destruct (IH s1) as (rest & s' & Hrun & Hall);
      [lia|by eapply step_excludes|].
    exists (g' :: rest), s'. simpl. by rewrite Hstep.
Qed.

(** X21: the server never deadlocks.  In every state that a run reaches,
    as long as a request has not returned some request can take a step,
    and the run can be continued until every request has returned. *)
Theorem no_deadlock (entries : gset string) (reqs : list (string * bool))
    (schedule : list nat) (s : State) :
  run (arrive entries reqs) schedule = Some s →
  (∀ g r, goroutines s !! g = Some r → returned r = false →
     ∃ g' s', step s g' = Some s')
  ∧ ∃ rest s', run s rest = Some s'
      ∧ Forall (λ r, returned r = true) (goroutines s').
Proof.
  intros Hrun.
  pose proof (run_excludes _ _ _ (arrive_excludes entries reqs) Hrun) as Hinv.
  split.
  - intros g r Hg Hret. by eapply can_step.
  - by apply (can_finish (work s)).
Qed.

(** Moving a goroutine keeps the entries of the table owned, when the
    entries that it owned are gone or still its own, and every new entry
    is its own. *)
Lemma goto_owned (s s1 : State) (g : nat) (r : Request) (l : PC) :
  let r' := {| localPath := localPath r; fetch_ok := fetch_ok r; pc := l |} in
  entries_owned s →
  goroutines s !! g = Some r → goroutines s1 = goroutines s →
  (∀ path, is_Some (locks s1 !! path) → registered path r = true →
     registered path r' = true) →
  (∀ path, is_Some (locks s1 !! path) →
     is_Some (locks s !! path) ∨ registered path r' = true) →
  entries_owned (goto s1 g r l).
Proof.
  intros r' Hinv Hg Hgs Hkeep Hnew path Hentry. simpl in *. rewrite Hgs.
  assert (r' ∈ <[g := r']> (goroutines s)) as Hin.
  { apply list_elem_of_lookup. exists g. apply list_lookup_insert_eq.
    by eapply lookup_lt_Some. }
  destruct (Hnew path Hentry) as [Hold|Hmine]; [|by exists r'].
  destruct (Hinv path Hold) as (r0 & (i & Hi)%list_elem_of_lookup & Hr0).
  destruct (decide (i = g)) as [->|Hne].
  - assert (r0 = r) as -> by congruence. exists r'. split; [done|].
    by apply Hkeep.
  - exists r0. split; [|done]. apply list_elem_of_lookup. exists i.
    by rewrite list_lookup_insert_ne.
Qed.

Lemma step_owned (s s' : State) (g : nat) :
  entries_owned s → step s g = Some s' → entries_owned s'.
Proof.
  intros Hinv. unfold step.
  destruct (goroutines s !! g) as [r|] eqn:Hg; [|done].
  destruct r as [path ok l]. simpl.
  destruct l as [| |m0|m0|m0|m0|m0|].
  - case_decide; intros [= <-]; eapply goto_owned; eauto; done.
  - unfold getFileLock.
    destruct (locks s !! path) as [m1|] eqn:Hpath; intros [= <-].
    + eapply goto_owned; eauto; done.
    + eapply goto_owned; eauto; [done|]. simpl. intros q Hq.
      destruct (decide (path = q)) as [->|Hne].
      * right. unfold registered. simpl. by apply bool_decide_eq_true.
      * left. by rewrite lookup_insert_ne in Hq.
  - unfold Lock. case_decide; [done|]. intros [= <-].
    eapply goto_owned; eauto; done.
  - case_decide; intros [= <-]; eapply goto_owned; eauto; done.
  - intros [= <-]. eapply goto_owned; eauto; done.
  - intros [= <-]. eapply goto_owned; eauto; simpl.
    + intros q Hq Hreg. unfold registered in Hreg. simpl in Hreg.
      apply bool_decide_eq_true in Hreg as <-.
      rewrite lookup_delete_eq in Hq. by destruct Hq.
    + intros q Hq. left. destruct (decide (path = q)) as [->|Hne].
      * rewrite lookup_delete_eq in Hq. by destruct Hq.
      * by rewrite lookup_delete_ne in Hq.
  - intros [= <-]. eapply goto_owned; eauto; done.
  - done.
Qed.

Lemma run_owned (schedule : list nat) (s s' : State) :
  entries_owned s → run s schedule = Some s' → entries_owned s'.
Proof.
  revert s. induction schedule as [|g rest IH]; intros s Hinv; simpl.
  { by intros [= <-]. }
  destruct (step s g) as [s1|] eqn:Hstep; [|done].
  apply IH. by eapply step_owned.
Qed.

Lemma count_none (P : Request → bool) (l : list Request) :
  Forall (λ r, P r = false) l → count P l = 0%nat.
Proof.
  induction 1 as [|r l Hr _ IH]; [done|]. by rewrite count_cons, Hr, IH.
Qed.

(** X22: the lock table does not leak.  Once every request of a run has
    returned, the table has no entry and no mutex is locked, however the
    requests were scheduled and whether their downloads succeeded. *)
Theorem lock_table_drains (entries : gset string) (reqs : list (string * bool))
    (schedule : list nat) (s : State) :
  run (arrive entries reqs) schedule = Some s →
  Forall (λ r, returned r = true) (goroutines s) →
  locks s = ∅ ∧ locked s = ∅.
Proof.
  intros Hrun Hall. split.
  - assert (entries_owned (arrive entries reqs)) as Hstart.
    { intros path [m Hm]. simpl in Hm. by rewrite lookup_empty in Hm. }
    pose proof (run_owned _ _ _ Hstart Hrun) as Hinv.
    apply map_empty. intros path.
    destruct (locks s !! path) as [m|] eqn:Hpath; [|done].
    destruct (Hinv path) as (r & Hin & Hreg); [by eexists|].
    rewrite Forall_forall in Hall. specialize (Hall r Hin).
    unfold registered in Hreg. unfold returned in Hall. by destruct (pc r).
  - pose proof (run_excludes _ _ _ (arrive_excludes entries reqs) Hrun) as Hinv.
    apply elem_of_equiv_empty_L. intros m Hm.
    specialize (Hinv m). rewrite decide_True in Hinv by done.
    unfold holders in Hinv. rewrite count_none in Hinv; [done|].
    eapply Forall_impl; [exact Hall|]. intros r Hr.
    unfold holds. unfold returned in Hr. by destruct (pc r).
Qed.

(** *** Contacts *)

Lemma goto_contacts (s s1 : State) (g : nat) (r : Request) (l : PC) :
  let r' := {| localPath := localPath r; fetch_ok := fetch_ok r; pc := l |} in
  (length (contacts s) ≤ count decided (goroutines s))%nat →
  goroutines s !! g = Some r → goroutines s1 = goroutines s →
  (length (contacts s1) + (if decided r then 1 else 0)
   ≤ length (contacts s) + (if decided r' then 1 else 0))%nat →
  (length (contacts (goto s1 g r l))
   ≤ count decided (goroutines (goto s1 g r l)))%nat.
Proof.
  intros r' Hinv Hg Hgs Hstep. simpl. rewrite Hgs.
  pose proof (count_insert decided (goroutines s) g r r' Hg).
  unfold r' in *. lia.
Qed.

Lemma step_contacts (s s' : State) (g : nat) :
  (length (contacts s) ≤ count decided (goroutines s))%nat →
  step s g = Some s' →
  (length (contacts s') ≤ count decided (goroutines s'))%nat.
Proof.
  intros Hinv. unfold step.
  destruct (goroutines s !! g) as [r|] eqn:Hg; [|done].
  destruct r as [path ok l]. simpl.
  destruct l as [| |m0|m0|m0|m0|m0|].
  - case_decide; intros [= <-]; eapply goto_contacts; eauto; unfold decided; simpl; lia.
  - unfold getFileLock. destruct (locks s !! path); intros [= <-];
      eapply goto_contacts; eauto; unfold decided; simpl; lia.
  - unfold Lock. case_decide; [done|]. intros [= <-].
    eapply goto_contacts; eauto; unfold decided; simpl; lia.
  - case_decide; intros [= <-]; eapply goto_contacts; eauto; unfold decided; simpl; lia.
  - intros [= <-]. eapply goto_contacts; eauto; unfold decided; simpl; lia.
  - intros [= <-]. eapply goto_contacts; eauto; unfold decided; simpl; lia.
  - intros [= <-]. eapply goto_contacts; eauto; unfold decided; simpl; lia.
  - done.
Qed.

Lemma count_length (P : Request → bool) (l : list Request) :
  (count P l ≤ length l)%nat.
Proof.
  induction l as [|r l IH]; [done|]. rewrite count_cons. simpl.
  destruct (P r); lia.
Qed.

Lemma step_length (s s' : State) (g : nat) :
  step s g = Some s' → length (goroutines s') = length (goroutines s).
Proof.
  intros (r & l & _ & -> & _)%step_moves. apply length_insert.
Qed.

(** X23: the upstream is asked at most once for each request, however
    the requests are scheduled: no request fetches twice. *)
Theorem one_contact_per_request (entries : gset string)
    (reqs : list (string * bool)) (schedule : list nat) (s : State) :
  run (arrive entries reqs) schedule = Some s →
  (length (contacts s) ≤ length reqs)%nat.
Proof.
  assert (∀ s0, run s0 schedule = Some s →
            (length (contacts s0) ≤ count decided (goroutines s0))%nat →
            (length (contacts s) ≤ length (goroutines s0))%nat) as Hrun.
  { induction schedule as [|g rest IH]; intros s0; simpl.
    - intros [= <-] Hinv. pose proof (count_length decided (goroutines s0)). lia.
    - destruct (step s0 g) as [s1|] eqn:Hstep; [|done]. intros Hrest Hinv.
      rewrite <- (step_length _ _ _ Hstep). apply IH; [done|].
      by eapply step_contacts. }
  intros Hs. apply Hrun in Hs.
  - simpl in Hs. by rewrite length_fmap in Hs.
  - simpl. lia.
Qed.

(** *** Requests for different paths *)

Lemma elem_of_insert_inv (l : list Request) (g : nat) (new x : Request) :
  x ∈ <[g := new]> l → x = new ∨ x ∈ l.
Proof.
  intros (i & Hi)%list_elem_of_lookup.
  destruct (decide (i = g)) as [->|Hne].
  - left. destruct (decide (g < length l)%nat) as [Hlt|Hge].
    + rewrite list_lookup_insert_eq in Hi by done. congruence.
    + rewrite list_insert_ge in Hi by lia.
      apply lookup_lt_Some in Hi. lia.
  - right. rewrite list_lookup_insert_ne in Hi by done.
    by eapply list_elem_of_lookup_2.
Qed.

(** A step that leaves the request with the mutex it had, or with none,
    and adds no entry to the table. *)
Lemma goto_per_path (s s1 : State) (g : nat) (r : Request) (l : PC) :
  let r' := {| localPath := localPath r; fetch_ok := fetch_ok r; pc := l |} in
  mutexes_per_path s →
  goroutines s !! g = Some r →
  goroutines s1 = goroutines s → next s1 = next s →
  (∀ p m, locks s1 !! p = Some m → locks s !! p = Some m) →
  mutex_of r' = mutex_of r ∨ mutex_of r' = None →
  mutexes_per_path (goto s1 g r l).
Proof.
  intros r' [Hnext Hentry Htable Hsame] Hg Hgs Hn Hlocks Hmutex.
  assert (r ∈ goroutines s) as Hr by by eapply list_elem_of_lookup_2.
  assert (∀ x m, x ∈ <[g := r']> (goroutines s) → mutex_of x = Some m →
            ∃ y, y ∈ goroutines s ∧ mutex_of y = Some m
                 ∧ localPath y = localPath x) as Hold.
  { intros x m [->|Hx]%elem_of_insert_inv Hm; [|by exists x].
    exists r. destruct Hmutex as [Heq|Heq]; rewrite Heq in Hm; done. }
  split; simpl; rewrite ?Hgs, ?Hn.
  - intros x m Hx Hm. destruct (Hold x m Hx Hm) as (y & Hy & Hym & _).
    by eapply Hnext.
  - intros p m Hp%Hlocks. destruct (Hentry p m Hp) as [Hlt Hpaths].
    split; [done|]. intros x Hx Hm.
    destruct (Hold x m Hx Hm) as (y & Hy & Hym & <-). by apply Hpaths.
  - intros p q m Hp%Hlocks Hq%Hlocks. by eapply Htable.
  - intros x x' m Hx Hx' Hm Hm'.
    destruct (Hold x m Hx Hm) as (y & Hy & Hym & <-).
    destruct (Hold x' m Hx' Hm') as (y' & Hy' & Hym' & <-).
    by eapply Hsame.
Qed.

Lemma step_per_path (s s' : State) (g : nat) :
  mutexes_per_path s → step s g = Some s' → mutexes_per_path s'.
Proof.
  intros Hinv. unfold step.
  destruct (goroutines s !! g) as [r|] eqn:Hg; [|done].
  assert (r ∈ goroutines s) as Hr by by eapply list_elem_of_lookup_2.
  destruct r as [path ok l]. simpl.
  destruct l as [| |m0|m0|m0|m0|m0|].
  - case_decide; intros [= <-]; eapply goto_per_path; eauto.
  - unfold getFileLock. destruct Hinv as [Hnext Hentry Htable Hsame].
    destruct (locks s !! path) as [actual|] eqn:Hpath; intros [= <-].
    + destruct (Hentry path actual Hpath) as [Hlt Hpaths].
      split; simpl.
      * intros x m [->|Hx]%elem_of_insert_inv Hm.
        -- unfold mutex_of in Hm. simpl in Hm. simplify_eq. lia.
        -- specialize (Hnext x m Hx Hm). lia.
      * intros p m Hp. destruct (Hentry p m Hp) as [Hlt' Hpaths'].
        split; [lia|]. intros x [->|Hx]%elem_of_insert_inv Hm.
        -- unfold mutex_of in Hm. simpl in Hm. simplify_eq.
           by eapply Htable.
        -- by apply Hpaths'.
      * done.
      * intros x x' m [->|Hx]%elem_of_insert_inv [->|Hx']%elem_of_insert_inv
          Hm Hm'; try done.
        -- unfold mutex_of in Hm. simpl in Hm. simplify_eq. simpl.
           symmetry. by apply Hpaths.
        -- unfold mutex_of in Hm'. simpl in Hm'. simplify_eq. simpl.
           by apply Hpaths.
        -- by eapply Hsame.
    + split; simpl.
      * intros x m [->|Hx]%elem_of_insert_inv Hm.
        -- unfold mutex_of in Hm. simpl in Hm. simplify_eq. lia.
        -- specialize (Hnext x m Hx Hm). lia.
      * intros p m Hp. destruct (decide (path = p)) as [->|Hne].
        -- rewrite lookup_insert_eq in Hp. simplify_eq. split; [lia|].
           intros x [->|Hx]%elem_of_insert_inv Hm; [done|].
           specialize (Hnext x _ Hx Hm). lia.
        -- rewrite lookup_insert_ne in Hp by done.
           destruct (Hentry p m Hp) as [Hlt' Hpaths']. split; [lia|].
           intros x [->|Hx]%elem_of_insert_inv Hm; [|by apply Hpaths'].
           unfold mutex_of in Hm. simpl in Hm. simplify_eq. lia.
      * intros p q m Hp Hq.
        destruct (decide (path = p)) as [Hpp|Hnp];
          destruct (decide (path = q)) as [Hpq|Hnq]; [congruence| | |].
        -- subst p. rewrite lookup_insert_eq in Hp.
           rewrite lookup_insert_ne in Hq by done. simplify_eq.
           destruct (Hentry q _ Hq) as [Hlt' _]. lia.
        -- subst q. rewrite lookup_insert_eq in Hq.
           rewrite lookup_insert_ne in Hp by done. simplify_eq.
           destruct (Hentry p _ Hp) as [Hlt' _]. lia.
        -- rewrite lookup_insert_ne in Hp, Hq by done. by eapply Htable.
      * intros x x' m [->|Hx]%elem_of_insert_inv [->|Hx']%elem_of_insert_inv
          Hm Hm'; try done.
        -- unfold mutex_of in Hm. simpl in Hm. simplify_eq.
           specialize (Hnext x' _ Hx' Hm'). lia.
        -- unfold mutex_of in Hm'. simpl in Hm'. simplify_eq.
           specialize (Hnext x _ Hx Hm). lia.
        -- by eapply Hsame.
  - unfold Lock. case_decide; [done|]. intros [= <-].
    eapply goto_per_path; eauto.
  - case_decide; intros [= <-]; eapply goto_per_path; eauto.
  - intros [= <-]. eapply goto_per_path; eauto.
  - intros [= <-]. eapply goto_per_path; eauto. simpl.
    intros p m Hp. destruct (decide (path = p)) as [->|Hne].
    + by rewrite lookup_delete_eq in Hp.
    + by rewrite lookup_delete_ne in Hp.
  - intros [= <-]. eapply goto_per_path; eauto.
  - done.
Qed.

Lemma run_per_path (schedule : list nat) (s s' : State) :
  mutexes_per_path s → run s schedule = Some s' → mutexes_per_path s'.
Proof.
  revert s. induction schedule as [|g rest IH]; intros s Hinv; simpl.
  { by intros [= <-]. }
  destruct (step s g) as [s1|] eqn:Hstep; [|done].
  apply IH. by eapply step_per_path.
Qed.

Lemma arrive_per_path (entries : gset string) (reqs : list (string * bool)) :
  mutexes_per_path (arrive entries reqs).
Proof.
  assert (∀ r m, r ∈ goroutines (arrive entries reqs) → mutex_of r = Some m →
            False) as Hnone.
  { intros r m Hr Hm. simpl in Hr.
    apply list_elem_of_fmap in Hr as (req & -> & _). done. }
  split; simpl.
  - intros r m Hr Hm. by destruct (Hnone r m).
  - intros p m Hp. by rewrite lookup_empty in Hp.
  - intros p q m Hp. by rewrite lookup_empty in Hp.
  - intros r r' m Hr _ Hm. by destruct (Hnone r m).
Qed.

(** X24: the mutexes are per path.  A request waits only for a request
    for the same local path: when no other request of the run is for its
    path, it can take a step in every state that the run reaches, until
    it has returned. *)
Theorem other_paths_never_block (entries : gset string)
    (reqs : list (string * bool)) (schedule : list nat) (s : State)
    (g : nat) (r : Request) :
  run (arrive entries reqs) schedule = Some s →
  goroutines s !! g = Some r → returned r = false →
  (∀ g' r', goroutines s !! g' = Some r' → g' ≠ g →
     localPath r' ≠ localPath r) →
  is_Some (step s g).
Proof.
  intros Hrun Hg Hret Halone.
  pose proof (run_excludes _ _ _ (arrive_excludes entries reqs) Hrun) as Hexcl.
  pose proof (run_per_path _ _ _ (arrive_per_path entries reqs) Hrun)
    as [_ _ _ Hsame].
  apply (step_unless_waiting s g r Hg Hret). intros m Hpc Hlocked.
  specialize (Hexcl m). rewrite decide_True in Hexcl by done.
  destruct (count_pos (holds m) (goroutines s)) as (g' & r' & Hg' & Hholds).
  { unfold holders in Hexcl. lia. }
  assert (g' ≠ g) as Hne.
  { intros ->. assert (r' = r) as -> by congruence.
    unfold holds in Hholds. by rewrite Hpc in Hholds. }
  apply (Halone g' r' Hg' Hne).
  apply (Hsame r' r m).
  - by eapply list_elem_of_lookup_2.
  - by eapply list_elem_of_lookup_2.
  - unfold holds in Hholds. unfold mutex_of.
    destruct (pc r'); try done; by apply bool_decide_eq_true in Hholds as ->.
  - unfold mutex_of. by rewrite Hpc.
Qed.

(** While the request for [p] holds its mutex, the request for [q] goes
    on. *)
Lemma other_paths_never_block_witness :
  let s := default (arrive ∅ [])
             (run (arrive ∅ [("p", true); ("q", true)]) [0; 0; 0; 1; 1]%nat) in
  is_Some (step s 1).
Proof.
  intros s.
  apply (other_paths_never_block ∅ [("p", true); ("q", true)]
           [0; 0; 0; 1; 1]%nat s 1
           {| localPath := "q"; fetch_ok := true; pc := AtLock 1 |}).
  - vm_compute. reflexivity.
  - vm_compute. reflexivity.
  - reflexivity.
  - intros g' r' Hg' Hne. destruct g' as [|[|g']].
    + vm_compute in Hg'. injection Hg' as <-. simpl. discriminate.
    + contradiction Hne. reflexivity.
    + vm_compute in Hg'. discriminate Hg'.
Defined.

(** *** Two requests for one path *)

(** The second request waits for the mutex that the first one holds:
    five steps are taken, and at most nine are left. *)
Lemma runs_are_bounded_witness :
  let schedule := [0; 1; 0; 1; 0]%nat in
  let s := default (arrive ∅ [])
             (run (arrive ∅ [("p", true); ("p", true)]) schedule) in
  (length schedule + work s ≤ 7 * 2)%nat.
Proof.
  intros schedule s.
  apply (runs_are_bounded ∅ [("p", true); ("p", true)] schedule s).
  vm_compute. reflexivity.
Defined.

(** In that state some request can move, and the run can be finished. *)
Lemma no_deadlock_witness :
  let s := default (arrive ∅ [])
             (run (arrive ∅ [("p", true); ("p", true)]) [0; 1; 0; 1; 0]%nat) in
  (∀ g r, goroutines s !! g = Some r → returned r = false →
     ∃ g' s', step s g' = Some s')
  ∧ ∃ rest s', run s rest = Some s'
      ∧ Forall (λ r, returned r = true) (goroutines s').
Proof.
  intros s.
  apply (no_deadlock ∅ [("p", true); ("p", true)] [0; 1; 0; 1; 0]%nat s).
  vm_compute. reflexivity.
Defined.

(** Two requests that both miss before either has filled: two contacts,
    and no more. *)
Lemma one_contact_per_request_witness :
  let schedule := [0; 1; 0; 1; 0; 0; 0; 0; 0; 1; 1; 1; 1]%nat in
  let s := default (arrive ∅ [])
             (run (arrive ∅ [("p", false); ("p", false)]) schedule) in
  (length (contacts s) ≤ 2)%nat.
Proof.
  intros schedule s.
  apply (one_contact_per_request ∅ [("p", false); ("p", false)] schedule s).
  vm_compute. reflexivity.
Defined.

(** Both requests have returned: the table is empty, no mutex is locked. *)
Lemma lock_table_drains_witness :
  let schedule := [0; 1; 0; 1; 0; 0; 0; 0; 0; 1; 1; 1; 1]%nat in
  let s := default (arrive ∅ [])
             (run (arrive ∅ [("p", true); ("p", true)]) schedule) in
  locks s = ∅ ∧ locked s = ∅.
Proof.
  intros schedule s.
  apply (lock_table_drains ∅ [("p", true); ("p", true)] schedule s).
  - vm_compute. reflexivity.
  - vm_compute. repeat constructor.
Defined.

End LockManagerProgress.

(** ** The further theorems at work on the example server *)

(** A first request for a path: the second check misses like the first. *)
Lemma second_check_agrees_witness :
  let env := calm (always (ok_response 3 "abc")) in
  let localPath := Join (StorageDir default_config) "/a" in
  let c1 := isFileComplete star_glob toy_hex (read_fault env 0)
              (files fresh_world) localPath in
  isFileComplete star_glob toy_hex (read_fault env 1) c1.2 localPath
    = (false, c1.2)
  ∧ requests (proxyHandler star_glob toy_hex default_config env fresh_world "/a").2
    = upstreamURLOf default_config "/a" :: requests fresh_world.
Proof.
  intros env localPath c1.
  apply (second_check_agrees star_glob toy_hex default_config env fresh_world "/a").
  vm_compute. reflexivity.
Defined.

(** The upstream is out of service: 502, and the volume is as it was. *)
Lemma refused_request_leaves_volume_witness :
  let env := calm (always unavailable) in
  let r := proxyHandler star_glob toy_hex default_config env fresh_world "/a" in
  files r.2 = files fresh_world
  ∧ r.1 = JSON StatusBadGateway "Failed to fetch from upstream".
Proof.
  intros env r.
  destruct (refused_request_leaves_volume star_glob toy_hex default_config env
              fresh_world "/a") as (H1 & H2).
  - vm_compute. reflexivity.
  - vm_compute. discriminate.
  - split; [exact H1|]. vm_compute. reflexivity.
Defined.

(** An empty object and an upstream out of service: the answer is 502 and
    the empty object is still there. *)
Lemma failed_request_keeps_object_witness :
  let env := calm (always unavailable) in
  let w := {| files := <["storage/a" := File ""]> (files fresh_world);
              requests := [] |} in
  let r := proxyHandler star_glob toy_hex default_config env w "/a" in
  files r.2 !! "storage/a" = Some (File "").
Proof.
  intros env w r.
  etransitivity.
  - apply (failed_request_keeps_object star_glob toy_hex default_config env w
             "/a" StatusBadGateway "Failed to fetch from upstream").
    + vm_compute. reflexivity.
    + vm_compute. discriminate.
  - vm_compute. reflexivity.
Defined.

(** A download of [/a] leaves the entry of [/b] alone. *)
Lemma downloadFile_frame_witness :
  let env := calm (always (ok_response 3 "abc")) in
  let w := {| files := <["storage/b" := File "keep"]> (files fresh_world);
              requests := [] |} in
  let d := downloadFile toy_hex default_config env w "storage/a" "/a" in
  files d.1 !! "storage/b" = Some (File "keep").
Proof.
  intros env w d.
  destruct (downloadFile_frame toy_hex default_config env w "storage/a" "/a"
              "storage/b") as [H|(H & _)].
  - discriminate.
  - discriminate.
  - vm_compute. discriminate.
  - exact H.
  - vm_compute in H. discriminate H.
Defined.

(** Three bytes are fetched, stored with their digest and served. *)
Lemma fill_is_served_witness :
  let env := calm (always (ok_response 3 "abc")) in
  let r := proxyHandler star_glob toy_hex default_config env fresh_world "/a" in
  r.1 = ServeFile "storage/a"
  ∧ files r.2 !! "storage/a" = Some (File "abc")
  ∧ files r.2 !! "storage/a.sha256" = Some (File "sum:abc")
  ∧ files r.2 !! tempPathOf env "storage/a" = None
  ∧ requests r.2 = ["https://mirrors.tuna.tsinghua.edu.cn/a"].
Proof.
  intros env r.
  destruct (fill_is_served star_glob toy_hex default_config env fresh_world
              "/a" "abc") as (H1 & H2 & H3 & H4 & H5).
  - vm_compute. reflexivity.
  - exists (ok_response 3 "abc"). split; [reflexivity|]. split; [reflexivity|].
    split; [reflexivity|]. split; [reflexivity|]. right. reflexivity.
  - discriminate.
  - reflexivity.
  - reflexivity.
  - split; [reflexivity|]. split; [reflexivity|]. split; [reflexivity|].
    split; [reflexivity|]. split; [vm_compute; reflexivity|].
    split; vm_compute; discriminate.
  - vm_compute. discriminate.
  - reflexivity.
  - vm_compute. reflexivity.
  - unfold r. rewrite H1. simpl.
    split; [reflexivity|]. split; [exact H2|]. split; [exact H3|].
    split; [exact H4 | exact H5].
Defined.




(** The rename fails: no object, no temp file, but a sidecar. *)
Lemma failed_rename_leaves_sidecar_witness :
  let env := no_rename (always (ok_response 3 "abc")) in
  let d := downloadFile toy_hex default_config env fresh_world "storage/a" "/a" in
  d.2 = Some errRename
  ∧ files d.1 !! "storage/a.sha256" = Some (File "sum:abc")
  ∧ files d.1 !! "storage/a" = None
  ∧ files d.1 !! tempPathOf env "storage/a" = None.
Proof.
  intros env d.
  apply (failed_rename_leaves_sidecar toy_hex default_config env fresh_world
           "storage/a" "/a" "abc").
  - exists (ok_response 3 "abc"). split; [reflexivity|]. split; [reflexivity|].
    split; [reflexivity|]. split; [reflexivity|]. right. reflexivity.
  - split; [reflexivity|]. split; [reflexivity|]. split; [reflexivity|].
    split; [reflexivity|]. split; [vm_compute; reflexivity|].
    vm_compute. discriminate.
  - reflexivity.
  - vm_compute. discriminate.
  - left. reflexivity.
Defined.

(** The request for [/] is a request for the storage directory itself. *)
Lemma directory_is_never_served_witness :
  let env := calm (always (ok_response 3 "abc")) in
  let r := proxyHandler star_glob toy_hex default_config env fresh_world "/" in
  Join (StorageDir default_config) "/" = "storage"
  ∧ (r.1 = JSON StatusNotFound "File not found on upstream"
     ∨ r.1 = JSON StatusBadGateway "Failed to fetch from upstream")
  ∧ files r.2 !! "storage" = Some Dir.
Proof.
  intros env r. split; [vm_compute; reflexivity|].
  apply (directory_is_never_served star_glob toy_hex default_config env
           fresh_world "/").
  vm_compute. reflexivity.
Defined.

(** An object was stored at [/pool]; a request for [/pool/a] cannot be
    stored below it. *)
Lemma file_in_the_way_witness :
  let env := calm (always (ok_response 3 "abc")) in
  let w := {| files := <["storage/pool" := File "x"]> (files fresh_world);
              requests := [] |} in
  let r := proxyHandler star_glob toy_hex default_config env w "/pool/a" in
  r.1 = JSON StatusBadGateway "Failed to fetch from upstream"
  ∧ files r.2 !! "storage/pool/a" = None.
Proof.
  intros env w r.
  destruct (file_in_the_way star_glob toy_hex default_config env w "/pool/a"
              "storage/pool" "x" (ok_response 3 "abc")) as (H1 & H2).
  - vm_compute. reflexivity.
  - vm_compute. right. left.
  - vm_compute. reflexivity.
  - reflexivity.
  - reflexivity.
  - split; [exact H1|]. specialize (H2 ""). vm_compute in H2. exact H2.
Defined.

(** [/a] and [//./a/] are one entry and two URLs. *)
Lemma request_paths_share_entry_witness :
  Join (StorageDir default_config) "/a" = Join (StorageDir default_config) "//./a/"
  ∧ upstreamURLOf default_config "/a" ≠ upstreamURLOf default_config "//./a/".
Proof.
  destruct (request_paths_share_entry default_config "/a" "//./a/") as (H1 & H2).
  - discriminate.
  - vm_compute. reflexivity.
  - split; [exact H1|]. apply H2. discriminate.
Defined.

(** The example volume: two files, ten bytes, zero MiB. *)
Lemma getStats_reports_witness :
  getStats default_config cached_volume
  = {| cached_files := 2; cache_size_mb := 0; cache_limit_mb := 10240;
       storage_dir := "./storage";
       upstream := "https://mirrors.tuna.tsinghua.edu.cn" |}.
Proof.
  rewrite (getStats_reports default_config cached_volume).
  - vm_compute. reflexivity.
  - vm_compute. reflexivity.
  - vm_compute. reflexivity.
Defined.

(** After the fill of [/a] the statistics show two files and ten bytes. *)
Lemma fill_adds_two_files_witness :
  let env := calm (always (ok_response 3 "abc")) in
  let r := proxyHandler star_glob toy_hex default_config env fresh_world "/a" in
  r.1 = ServeFile "storage/a"
  ∧ stored_files default_config (files r.2) = 2%nat
  ∧ stored_bytes default_config (files r.2) = 10%nat
  ∧ cached_files (getStats default_config (files r.2)) = 2.
Proof.
  intros env r.
  destruct (fill_adds_two_files star_glob toy_hex default_config env fresh_world
              "/a" "abc") as (H1 & H2 & H3 & H4).
  - vm_compute. reflexivity.
  - vm_compute. reflexivity.
  - vm_compute. reflexivity.
  - vm_compute. reflexivity.
  - vm_compute. reflexivity.
  - exists (ok_response 3 "abc"). split; [reflexivity|]. split; [reflexivity|].
    split; [reflexivity|]. split; [reflexivity|]. right. reflexivity.
  - discriminate.
  - reflexivity.
  - reflexivity.
  - split; [reflexivity|]. split; [reflexivity|]. split; [reflexivity|].
    split; [reflexivity|]. split; [vm_compute; reflexivity|].
    split; vm_compute; discriminate.
  - reflexivity.
  - vm_compute. reflexivity.
  - split; [exact H1|]. split; [exact H2|]. split; [exact H3|].
    fold r in H4. rewrite H4. vm_compute. reflexivity.
Defined.

(** A download to [storage/pool/a] makes [storage/pool]. *)
Lemma download_makes_directories_witness :
  let env := calm (always (ok_response 3 "abc")) in
  let d := downloadFile toy_hex default_config env empty_world
             "storage/pool/a" "/pool/a" in
  files d.1 !! "storage/pool" = Some Dir.
Proof.
  intros env d.
  apply (download_makes_directories toy_hex default_config env empty_world
           "storage/pool/a" "/pool/a" "storage/pool").
  - vm_compute. reflexivity.
  - vm_compute. right. left.
Defined.

(** The entry of [/a] is cached: a request for [/a.sha256] is answered
    with the sidecar, and the upstream is not asked. *)
Lemma sidecar_is_served_as_object_witness :
  let env := calm (λ _, None) in
  let w := {| files := cached_volume; requests := [] |} in
  Join (StorageDir default_config) "/a.sha256" = "storage/a.sha256"
  ∧ proxyHandler star_glob toy_hex default_config env w "/a.sha256"
    = (ServeFile "storage/a.sha256", w).
Proof.
  intros env w.
  apply (sidecar_is_served_as_object star_glob toy_hex default_config env w
           "/a" "a" "sum:abc").
  - discriminate.
  - vm_compute. reflexivity.
  - discriminate.
  - discriminate.
  - discriminate.
  - vm_compute. reflexivity.
  - discriminate.
  - vm_compute. reflexivity.
  - vm_compute. reflexivity.
Defined.
